(** * A shallow embedding of [src/gc.c]

    The collector of [src/gc.c] is a non-moving mark and sweep collector
    that pool-allocates small objects and keeps big objects on a list.
    This file embeds its functions over an explicit C-like store and
    proves properties of the size-class resolver, the pool allocator,
    the sweeper, the tracer and the allocation entry point.

    Modelling conventions.
    - [size_t] and [uptrint_t] values are integers in [0, 2^w) with the
      wrap-around of their arithmetic written out ([wrap]); [w] is 32 or
      64 according to [BITS64].
    - Pointers are byte addresses in [Z]; [NULL] is [0].  Pointer
      arithmetic is exact (a pointer that leaves its block is undefined
      in C and never happens on a well-formed heap).
    - Memory is a store of machine words keyed by the byte address of
      the word, together with the list of blocks handed out by [malloc]
      and not yet given back.  A load or store outside every live block
      is a [Fault] (the C program has undefined behaviour there).
    - [malloc] is an oracle: the functions that call it take the address
      it is going to return ([0] when the OS allocator fails).
    - Loops that C does not bound take a fuel; running out of fuel
      ([OutOfFuel]) stands for a loop that does not terminate.
    - Ghost state: [trace] records the calls of [malloc] and [free],
      [visited] the objects whose body [gc_markval] traces, and
      [collections] counts the calls of [gc_collect]. *)

From Stdlib Require Import ZArith List Bool Lia.
Import ListNotations.
Open Scope Z_scope.

(** ** Machine words *)

Inductive arch := BITS32 | BITS64.

(** The size of a pointer, [sizeof (void * )]. *)
Definition ptr_size (W : arch) : Z :=
  match W with BITS32 => 4 | BITS64 => 8 end.

Definition word_mod (W : arch) : Z := 2 ^ (8 * ptr_size W).

(** Arithmetic of [size_t]. *)
Definition wrap (W : arch) (z : Z) : Z := z mod word_mod W.

Definition GC_PAGE_SZ : Z := 16384.
Definition N_POOLS : Z := 16.
Definition NULL : Z := 0.

(** ** The header word of [gcval_t] and [bigval_t]

    [marked] is bit 0, [finalize] bit 1, [otherbits] the remaining
    bits. *)

Definition marked (w : Z) : bool := Z.testbit w 0.
Definition finalize (w : Z) : bool := Z.testbit w 1.
Definition otherbits (w : Z) : Z := Z.shiftr w 2.

(** [v->marked = 1] and [v->marked = 0] on the word that holds the bit
    field. *)
Definition set_marked (w : Z) : Z := Z.lor w 1.
Definition clear_marked (w : Z) : Z := Z.ldiff w 1.

(** [#define gcv_isfree(v)  ((v)->otherbits!=0)] *)
Definition gcv_isfree (w : Z) : bool := negb (otherbits w =? 0).

(** ** Size classes *)

(** The table [szc] of [jl_gc_init]. *)
Definition szc : list Z :=
  [8; 16; 24; 32; 48; 64; 96; 128; 192; 256; 384; 512; 768; 1024; 1536; 2048].

Definition szclass_size (k : Z) : Z := nth (Z.to_nat k) szc 0.

Definition szclass (sz : Z) : Z :=
  if sz <=? 8 then 0 else
  if sz <=? 128 then
    if sz <=? 16 then 1 else
    if sz <=? 32 then
      if sz <=? 24 then 2 else 3
    else if sz <=? 64 then
      if sz <=? 48 then 4 else 5
    else if sz <=? 96 then 6 else 7
  else if sz <=? 512 then
    if sz <=? 256 then
      if sz <=? 192 then 8 else 9
    else if sz <=? 384 then 10 else 11
  else if sz <=? 1024 then
    if sz <=? 768 then 12 else 13
  else if sz <=? 1536 then 14 else 15.

(** ** The store *)

Inductive event :=
| EvMalloc (n p : Z)
| EvFree (p : Z).

Record store := mkStore {
  mem : Z -> Z;
  blocks : list (Z * Z);
  trace : list event;
  visited : list Z
}.

Definition in_block (W : arch) (a : Z) (b : Z * Z) : bool :=
  (fst b <=? a) && (a + ptr_size W <=? fst b + snd b).

(** The word at [a] lies inside a live block. *)
Definition valid (W : arch) (st : store) (a : Z) : bool :=
  existsb (in_block W a) (blocks st).

Definition upd (m : Z -> Z) (a w : Z) : Z -> Z :=
  fun x => if x =? a then w else m x.

Definition load (W : arch) (st : store) (a : Z) : option Z :=
  if valid W st a then Some (mem st a) else None.

Definition store_word (W : arch) (st : store) (a w : Z) : option store :=
  if valid W st a
  then Some (mkStore (upd (mem st) a w) (blocks st) (trace st) (visited st))
  else None.

(** [malloc(n)] answering [r]. *)
Definition malloc (n r : Z) (st : store) : store :=
  mkStore (mem st)
          (if r =? NULL then blocks st else (r, n) :: blocks st)
          (trace st ++ [EvMalloc n r]) (visited st).

(** [free(p)] of the base of a live block; anything else is undefined. *)
Definition free (p : Z) (st : store) : option store :=
  if existsb (fun b => fst b =? p) (blocks st)
  then Some (mkStore (mem st)
                     (filter (fun b => negb (fst b =? p)) (blocks st))
                     (trace st ++ [EvFree p]) (visited st))
  else None.

(** ** Outcomes and sequencing *)

Inductive res (S A : Type) :=
| Ok (a : A) (s : S)
| Fault (s : S)       (* access outside every live block *)
| Abort (s : S)       (* a failed [assert] *)
| OutOfFuel.            (* fuel exhausted: the loop does not end *)

Arguments Ok {S A} a s.
Arguments Fault {S A} s.
Arguments Abort {S A} s.
Arguments OutOfFuel {S A}.

Definition M (S A : Type) : Type := S -> res S A.

Definition ret {S A} (a : A) : M S A := fun s => Ok a s.

Definition bind {S A B} (m : M S A) (k : A -> M S B) : M S B :=
  fun s =>
    match m s with
    | Ok a s' => k a s'
    | Fault s' => Fault s'
    | Abort s' => Abort s'
    | OutOfFuel => OutOfFuel
    end.

Notation "x <- m ;; k" := (bind m (fun x => k))
  (at level 61, m at next level, right associativity).
Notation "m ;; k" := (bind m (fun _ => k))
  (at level 61, right associativity).

Definition get {S} : M S S := fun s => Ok s s.
Definition out_of_fuel {S A} : M S A := fun _ => OutOfFuel.
Definition abort {S A} : M S A := fun s => Abort s.

(** Run a computation on a component of a larger state. *)
Definition lift {S T A} (prj : T -> S) (inj : S -> T -> T) (m : M S A)
  : M T A :=
  fun t =>
    match m (prj t) with
    | Ok a s => Ok a (inj s t)
    | Fault s => Fault (inj s t)
    | Abort s => Abort (inj s t)
    | OutOfFuel => OutOfFuel
    end.

(** ** Pools *)

Record pool_t := mkPool {
  osize : Z;
  pages : Z;
  freelist : Z
}.

(** A pool function works on the store and on the pool it was handed. *)
Record pst := mkPst {
  st : store;
  pl : pool_t
}.

(** What a [gcval_t **] or [page_t **] of the pool code can point to:
    the pool's own fields or a word in memory. *)
Inductive loc :=
| LFreelist
| LPages
| LMem (a : Z).

Definition read_loc (W : arch) (s : pst) (l : loc) : option Z :=
  match l with
  | LFreelist => Some (freelist (pl s))
  | LPages => Some (pages (pl s))
  | LMem a => load W (st s) a
  end.

Definition write_loc (W : arch) (s : pst) (l : loc) (w : Z) : option pst :=
  match l with
  | LFreelist => Some (mkPst (st s) (mkPool (osize (pl s)) (pages (pl s)) w))
  | LPages => Some (mkPst (st s) (mkPool (osize (pl s)) w (freelist (pl s))))
  | LMem a =>
      match store_word W (st s) a w with
      | Some st' => Some (mkPst st' (pl s))
      | None => None
      end
  end.

Definition rd (W : arch) (l : loc) : M pst Z :=
  fun s => match read_loc W s l with Some w => Ok w s | None => Fault s end.

Definition wr (W : arch) (l : loc) (w : Z) : M pst unit :=
  fun s => match write_loc W s l w with Some s' => Ok tt s' | None => Fault s end.

Definition p_osize : M pst Z := fun s => Ok (osize (pl s)) s.

Definition p_malloc (n r : Z) : M pst Z :=
  fun s => Ok r (mkPst (malloc n r (st s)) (pl s)).

Definition p_free (W : arch) (p : Z) : M pst unit :=
  fun s => match free p (st s) with
           | Some st' => Ok tt (mkPst st' (pl s))
           | None => Fault s
           end.

(** The loop of [add_page]:
    [while (v <= lim) { *pfl = v; pfl = &v->next; v += p->osize; }] *)
Fixpoint add_page_loop (W : arch) (fuel : nat) (lim : Z) (pfl : loc) (v : Z)
  : M pst loc :=
  match fuel with
  | O => out_of_fuel
  | S n =>
      if v <=? lim then
        wr W pfl v ;;
        osz <- p_osize ;;
        add_page_loop W n lim (LMem v) (v + osz)
      else ret pfl
  end.

(** Fuel that a loop stepping from [v] up to [lim] by a positive stride
    cannot exhaust. *)
Definition span (v lim : Z) : nat := S (Z.to_nat (lim - v + 1)).

(** [add_page].  The end pointer [lim] is [pg + GC_PAGE_SZ - osize],
    computed exactly.  That is the value of the C pointer expression as
    long as [osize <= pg + GC_PAGE_SZ]; for a larger [osize] the C
    expression wraps around the address space, which the model does
    not follow.  The statements about the cells that [add_page] threads
    take [osize <= GC_PAGE_SZ]; the pools of [jl_gc_init] have cells of
    at most 2048 bytes and a header word. *)
Definition add_page (W : arch) (r : Z) : M pst unit :=
  pg <- p_malloc GC_PAGE_SZ r ;;
  let v := pg + ptr_size W in
  osz <- p_osize ;;
  let lim := pg + GC_PAGE_SZ - osz in
  oldfl <- rd W LFreelist ;;
  pfl <- add_page_loop W (span v lim) lim LFreelist v ;;
  wr W pfl oldfl ;;
  pgs <- rd W LPages ;;
  wr W (LMem pg) pgs ;;            (* pg->next = p->pages *)
  nxt <- rd W (LMem pg) ;;
  wr W LPages nxt.                 (* p->pages = pg->next *)

Definition pool_alloc (W : arch) (r : Z) : M pst Z :=
  fl <- rd W LFreelist ;;
  (if fl =? NULL then add_page W r else ret tt) ;;
  fl <- rd W LFreelist ;;
  (if fl =? NULL then abort else ret tt) ;;   (* assert(p->freelist != NULL) *)
  v <- rd W LFreelist ;;
  nxt <- rd W (LMem v) ;;
  wr W LFreelist nxt ;;
  wr W (LMem v) 0 ;;                          (* v->flags = 0 *)
  ret (v + ptr_size W).

(** The inner loop of [sweep_pool], over the cells of one page.  The
    header of [v] is read once: the three reads of the source see the
    same word, nothing being written between them. *)
Fixpoint sweep_cells (W : arch) (fuel : nat) (lim : Z) (pfl : loc)
    (empty : bool) (v : Z) : M pst (loc * bool) :=
  match fuel with
  | O => out_of_fuel
  | S n =>
      if v <=? lim then
        w <- rd W (LMem v) ;;
        let empty := if negb (gcv_isfree w) then false else empty in
        if gcv_isfree w || negb (marked w) then
          wr W pfl v ;;
          osz <- p_osize ;;
          sweep_cells W n lim (LMem v) empty (v + osz)
        else
          wr W (LMem v) (clear_marked w) ;;
          osz <- p_osize ;;
          sweep_cells W n lim pfl empty (v + osz)
      else ret (pfl, empty)
  end.

(** The outer loop of [sweep_pool], over the page list.  As in
    [add_page] the end pointer [lim] is computed exactly, which is the
    value of the C expression as long as [osize <= pg + GC_PAGE_SZ];
    the statements about what a sweep of the pages does take
    [osize <= GC_PAGE_SZ]. *)
Fixpoint sweep_pages (W : arch) (fuel : nat) (pg : Z) (ppg pfl : loc)
  : M pst loc :=
  match fuel with
  | O => out_of_fuel
  | S n =>
      if pg =? NULL then ret pfl else
      osz <- p_osize ;;
      let lim := pg + GC_PAGE_SZ - osz in
      let v := pg + ptr_size W in
      let prev_pfl := pfl in
      r <- sweep_cells W (span v lim) lim pfl true v ;;
      let (pfl, empty) := r : loc * bool in
      nextpg <- rd W (LMem pg) ;;
      if empty then
        wr W ppg nextpg ;;
        p_free W pg ;;
        sweep_pages W n nextpg ppg prev_pfl
      else
        sweep_pages W n nextpg (LMem pg) pfl
  end.

Definition sweep_pool (W : arch) (fuel : nat) : M pst unit :=
  pg <- rd W LPages ;;
  pfl <- sweep_pages W fuel pg LPages LFreelist ;;
  wr W pfl NULL.

(** ** Store operations as computations *)

Definition s_load (W : arch) (a : Z) : M store Z :=
  fun s => match load W s a with Some w => Ok w s | None => Fault s end.

Definition s_store (W : arch) (a w : Z) : M store unit :=
  fun s => match store_word W s a w with Some s' => Ok tt s' | None => Fault s end.

Definition s_free (p : Z) : M store unit :=
  fun s => match free p s with Some s' => Ok tt s' | None => Fault s end.

Definition s_malloc (n r : Z) : M store Z :=
  fun s => Ok r (malloc n r s).

Definition s_visit (v : Z) : M store unit :=
  fun s => Ok tt (mkStore (mem s) (blocks s) (trace s) (visited s ++ [v])).

(** ** The collector's global state *)

Record gc_state := mkGc {
  heap : store;
  big_objects : Z;
  pools : list pool_t;
  allocd_bytes : Z;
  collect_interval : Z;
  collections : nat
}.

Definition null_pool : pool_t := mkPool 0 NULL NULL.

Fixpoint upd_nth {A} (i : nat) (x : A) (l : list A) : list A :=
  match l, i with
  | [], _ => []
  | _ :: t, O => x :: t
  | h :: t, S j => h :: upd_nth j x t
  end.

Definition on_heap {A} (m : M store A) : M gc_state A :=
  lift heap
       (fun s g => mkGc s (big_objects g) (pools g) (allocd_bytes g)
                        (collect_interval g) (collections g))
       m.

(** Run a pool function on [&pools[i]]. *)
Definition on_pool {A} (i : nat) (m : M pst A) : M gc_state A :=
  lift (fun g => mkPst (heap g) (nth i (pools g) null_pool))
       (fun s g => mkGc (st s) (big_objects g) (upd_nth i (pl s) (pools g))
                        (allocd_bytes g) (collect_interval g) (collections g))
       m.

Definition set_big_objects (v : Z) : M gc_state unit :=
  fun g => Ok tt (mkGc (heap g) v (pools g) (allocd_bytes g)
                       (collect_interval g) (collections g)).

Definition set_allocd_bytes (n : Z) : M gc_state unit :=
  fun g => Ok tt (mkGc (heap g) (big_objects g) (pools g) n
                       (collect_interval g) (collections g)).

Definition count_collection : M gc_state unit :=
  fun g => Ok tt (mkGc (heap g) (big_objects g) (pools g) (allocd_bytes g)
                       (collect_interval g) (S (collections g))).

(** The static initialisers of the file, before [jl_gc_init]. *)
Definition static_state : gc_state :=
  mkGc (mkStore (fun _ => 0) [] [] []) NULL
       (repeat null_pool (Z.to_nat N_POOLS)) 0 (8192 * 1024) O.

Definition jl_gc_init (W : arch) : M gc_state unit :=
  fun g => Ok tt (mkGc (heap g) (big_objects g)
                       (map (fun c => mkPool (c + ptr_size W) NULL NULL) szc)
                       (allocd_bytes g) (collect_interval g) (collections g)).

(** ** Big objects

    A [bigval_t] at [v] has its [next] field at [v], its flags word at
    [v + sizeof(void * )] and its payload after the two. *)

Definition alloc_big (W : arch) (r : Z) (sz : Z) : M gc_state Z :=
  v <- on_heap (s_malloc (wrap W (sz + 2 * ptr_size W)) r) ;;
  big <- (fun g => Ok (big_objects g) g) ;;
  on_heap (s_store W v big) ;;
  on_heap (s_store W (v + ptr_size W) 0) ;;
  set_big_objects v ;;
  ret (v + 2 * ptr_size W).

(** What [bigval_t **pv] points to. *)
Inductive bloc :=
| BHead
| BNext (v : Z).

Definition write_bloc (W : arch) (pv : bloc) (w : Z) : M gc_state unit :=
  match pv with
  | BHead => set_big_objects w
  | BNext v => on_heap (s_store W v w)
  end.

Fixpoint sweep_big_loop (W : arch) (fuel : nat) (v : Z) (pv : bloc)
  : M gc_state unit :=
  match fuel with
  | O => out_of_fuel
  | S n =>
      if v =? NULL then ret tt else
      nxt <- on_heap (s_load W v) ;;
      fl <- on_heap (s_load W (v + ptr_size W)) ;;
      if marked fl then
        on_heap (s_store W (v + ptr_size W) (clear_marked fl)) ;;
        sweep_big_loop W n nxt (BNext v)
      else
        write_bloc W pv nxt ;;
        on_heap (s_free v) ;;
        sweep_big_loop W n nxt pv
  end.

Definition sweep_big (W : arch) (fuel : nat) : M gc_state unit :=
  v <- (fun g => Ok (big_objects g) g) ;;
  sweep_big_loop W fuel v BHead.

Fixpoint sweep_pools (W : arch) (fuel : nat) (idx : list nat)
  : M gc_state unit :=
  match idx with
  | [] => ret tt
  | i :: rest => on_pool i (sweep_pool W fuel) ;; sweep_pools W fuel rest
  end.

Definition gc_sweep (W : arch) (fuel : nat) : M gc_state unit :=
  sweep_big W fuel ;;
  sweep_pools W fuel (seq 0 (Z.to_nat N_POOLS)).

(** ** The runtime's objects

    [julia.h] is not part of the sources at hand; the tracer only uses
    its predicates and field accessors.  An object is therefore
    described by what those report for it: one constructor per branch
    of the dispatch in [gc_markval], carrying the fields that branch
    reads. *)

Inductive jl_obj :=
| JBits
| JArray (dims data space : Z) (elty_bits : bool) (elts : list Z)
| JTuple (data : list Z)
| JLambdaInfo (ast sparams tfunc roots specTypes unspecialized : Z)
| JFunc (env linfo : Z)
| JTypeName (primary : Z)
| JTagType (env linfo name super parameters : Z)
| JStructType (env linfo name super parameters names types
               ctor_factory instance : Z)
| JBitsType (env linfo name super parameters bnbits : Z)
| JMTable (defs cache : Z) (cache_1arg : list Z)
| JTask (on_exit start result eh_task : Z)
| JStruct (fields : list Z)
| JOther.

Record jl_methlist_t := mkMethlist {
  ml_sig : Z;
  ml_tvars : Z;
  ml_func : Z;
  ml_next : Z
}.

Record jl_binding_t := mkBinding {
  b_value : Z;
  b_type : Z
}.

Record runtime := mkRuntime {
  obj_at : Z -> jl_obj;
  methlist_at : Z -> jl_methlist_t;
  (* the odd slots of [m->bindings.table]; [None] is [HT_NOTFOUND] *)
  module_bindings : Z -> list (option Z);
  binding_at : Z -> jl_binding_t;
  jl_root_task : Z;
  jl_current_task : Z;
  jl_system_module : Z;
  jl_user_module : Z;
  jl_methtable_type : Z;
  jl_bottom_func : Z;
  jl_any_func : Z;
  jl_null : Z;
  jl_true : Z;
  jl_false : Z;
  jl_mark_type_cache : M store unit
}.

(** ** Mark phase *)

(** [gc_val(o)] is the word before the payload. *)
Definition gc_val (W : arch) (o : Z) : Z := o - ptr_size W.

Definition gc_marked (W : arch) (o : Z) : M store bool :=
  w <- s_load W (gc_val W o) ;; ret (marked w).

Definition gc_setmark (W : arch) (o : Z) : M store unit :=
  w <- s_load W (gc_val W o) ;; s_store W (gc_val W o) (set_marked w).

Fixpoint mark_each (f : Z -> M store unit) (l : list Z) : M store unit :=
  match l with
  | [] => ret tt
  | x :: t => f x ;; mark_each f t
  end.

(** [if (x != NULL) GC_Markval(x);] *)
Definition mark_nonnull (f : Z -> M store unit) (x : Z) : M store unit :=
  if x =? NULL then ret tt else f x.

Definition assert {S} (b : bool) : M S unit :=
  if b then ret tt else abort.

Fixpoint gc_mark_methlist (W : arch) (R : runtime) (mv : Z -> M store unit)
    (fuel : nat) (ml : Z) : M store unit :=
  match fuel with
  | O => out_of_fuel
  | S n =>
      if ml =? NULL then ret tt else
      gc_setmark W ml ;;
      mv (ml_sig (methlist_at R ml)) ;;
      mv (ml_tvars (methlist_at R ml)) ;;
      mv (ml_func (methlist_at R ml)) ;;
      gc_mark_methlist W R mv n (ml_next (methlist_at R ml))
  end.

(** The dispatch of [gc_markval] after the mark bit is set; [mv] is
    [GC_Markval]. *)
Definition trace_obj (W : arch) (R : runtime) (mv : Z -> M store unit)
    (fuel : nat) (o : jl_obj) : M store unit :=
  match o with
  | JBits => ret tt
  | JArray dims data space elty_bits elts =>
      mv dims ;;
      (if data =? space then ret tt else gc_setmark W data) ;;
      if elty_bits then ret tt else mark_each (mark_nonnull mv) elts
  | JTuple data => mark_each (mark_nonnull mv) data
  | JLambdaInfo ast sparams tfunc roots specTypes unspecialized =>
      mv ast ;; mv sparams ;; mv tfunc ;; mv roots ;; mv specTypes ;;
      mark_nonnull mv unspecialized
  | JFunc env linfo =>
      mark_nonnull mv env ;; mark_nonnull mv linfo
  | JTypeName primary => mark_nonnull mv primary
  | JTagType env linfo name super parameters =>
      assert (env =? NULL) ;; assert (linfo =? NULL) ;;
      mv name ;; mv super ;; mv parameters
  | JStructType env linfo name super parameters names types
                ctor_factory instance =>
      mark_nonnull mv env ;; mark_nonnull mv linfo ;;
      mv name ;; mv super ;; mv parameters ;; mv names ;; mv types ;;
      mark_nonnull mv ctor_factory ;; mark_nonnull mv instance
  | JBitsType env linfo name super parameters bnbits =>
      assert (env =? NULL) ;; assert (linfo =? NULL) ;;
      mv name ;; mv super ;; mv parameters ;; mv bnbits
  | JMTable defs cache cache_1arg =>
      gc_mark_methlist W R mv fuel defs ;;
      gc_mark_methlist W R mv fuel cache ;;
      mark_each (mark_nonnull mv) cache_1arg
  | JTask on_exit start result eh_task =>
      mv on_exit ;; mv start ;; mv result ;; mv eh_task
  | JStruct fields => mark_each mv fields
  | JOther => abort
  end.

Fixpoint gc_markval (W : arch) (R : runtime) (fuel : nat) (v : Z)
  : M store unit :=
  match fuel with
  | O => out_of_fuel
  | S n =>
      assert (negb (v =? NULL)) ;;
      m <- gc_marked W v ;;
      if m then ret tt else
      gc_setmark W v ;;
      s_visit v ;;
      trace_obj W R (gc_markval W R n) n (obj_at R v)
  end.

Definition mark_binding (W : arch) (R : runtime) (mv : Z -> M store unit)
    (slot : option Z) : M store unit :=
  match slot with
  | None => ret tt
  | Some b =>
      gc_setmark W b ;;
      mark_nonnull mv (b_value (binding_at R b)) ;;
      mv (b_type (binding_at R b))
  end.

Fixpoint mark_bindings (W : arch) (R : runtime) (mv : Z -> M store unit)
    (slots : list (option Z)) : M store unit :=
  match slots with
  | [] => ret tt
  | s :: t => mark_binding W R mv s ;; mark_bindings W R mv t
  end.

Definition gc_mark_module (W : arch) (R : runtime) (fuel : nat) (m : Z)
  : M store unit :=
  gc_setmark W m ;;
  mark_bindings W R (gc_markval W R fuel) (module_bindings R m).

Definition gc_mark (W : arch) (R : runtime) (fuel : nat) : M store unit :=
  let mv := gc_markval W R fuel in
  mv (jl_root_task R) ;;
  mv (jl_current_task R) ;;
  gc_mark_module W R fuel (jl_system_module R) ;;
  gc_mark_module W R fuel (jl_user_module R) ;;
  mv (jl_methtable_type R) ;;
  mv (jl_bottom_func R) ;;
  mv (jl_any_func R) ;;
  mv (jl_null R) ;;
  mv (jl_true R) ;;
  mv (jl_false R) ;;
  jl_mark_type_cache R.

(** ** The collector and the allocation entry point *)

Definition gc_collect (W : arch) (R : runtime) (fuel : nat) : M gc_state unit :=
  count_collection ;;
  on_heap (gc_mark W R fuel) ;;
  gc_sweep W fuel ;;
  set_allocd_bytes 0.

(** The trigger at the head of [allocb]:
    [if (allocd_bytes > collect_interval) gc_collect();] *)
Definition maybe_collect (W : arch) (R : runtime) (fuel : nat)
  : M gc_state unit :=
  g <- get ;;
  if collect_interval g <? allocd_bytes g
  then gc_collect W R fuel else ret tt.

Definition allocb (W : arch) (R : runtime) (fuel : nat) (r : Z) (sz : Z)
  : M gc_state Z :=
  maybe_collect W R fuel ;;
  g <- get ;;
  set_allocd_bytes (wrap W (allocd_bytes g + sz)) ;;
  if 2048 <? sz then alloc_big W r sz
  else on_pool (Z.to_nat (szclass sz)) (pool_alloc W r).

(** ** Vocabulary of the statements *)

(** [k] is the least index of [szc] whose size holds [sz]. *)
Definition least_class (sz k : Z) : Prop :=
  0 <= k <= 15 /\ sz <= szclass_size k /\
  forall j, 0 <= j < k -> szclass_size j < sz.

(** The [n] addresses [v], [v + osz], [v + 2 osz], ... *)
Fixpoint cells (v osz : Z) (n : nat) : list Z :=
  match n with
  | O => []
  | S k => v :: cells (v + osz) osz k
  end.

(** [floor((GC_PAGE_SZ - sizeof(void * )) / osz)] *)
Definition ncells (W : arch) (osz : Z) : Z :=
  (GC_PAGE_SZ - ptr_size W) / osz.

(** The cells of the page at [pg], in address order. *)
Definition page_cells (W : arch) (osz pg : Z) : list Z :=
  cells (pg + ptr_size W) osz (Z.to_nat (ncells W osz)).

(** Reading a location without the bounds check. *)
Definition peek (s : pst) (l : loc) : Z :=
  match l with
  | LFreelist => freelist (pl s)
  | LPages => pages (pl s)
  | LMem a => mem (st s) a
  end.

(** The links from location [l] run through [cs] and leave the
    location [e] open: [l] holds the first of [cs], each of [cs] holds
    the next, and [e] is the link field of the last. *)
Fixpoint oseg (s : pst) (l : loc) (cs : list Z) (e : loc) : Prop :=
  match cs with
  | [] => l = e
  | c :: t => peek s l = c /\ oseg s (LMem c) t e
  end.

(** The null-terminated list that starts at [a] consists of [l]. *)
Fixpoint chain (m : Z -> Z) (a : Z) (l : list Z) : Prop :=
  match l with
  | [] => a = NULL
  | c :: t => a = c /\ c <> NULL /\ chain m (m c) t
  end.

(** The list that starts at [a] runs through [l] and continues at [b]. *)
Fixpoint lseg (m : Z -> Z) (a : Z) (l : list Z) (b : Z) : Prop :=
  match l with
  | [] => a = b
  | c :: t => a = c /\ lseg m (m c) t b
  end.

(** Some live block holds the bytes [a, a + n). *)
Definition allocated (s : store) (a n : Z) : Prop :=
  exists b, In b (blocks s) /\ fst b <= a /\ a + n <= fst b + snd b.

Definition spot_checks : Prop :=
  szclass 1 = 0 /\ szclass 8 = 0 /\ szclass 9 = 1 /\ szclass 16 = 1 /\
  szclass 24 = 2 /\ szclass 129 = 8 /\ szclass 2048 = 15.

(** Writing a location without the bounds check. *)
Definition poke (s : pst) (l : loc) (w : Z) : pst :=
  match l with
  | LFreelist => mkPst (st s) (mkPool (osize (pl s)) (pages (pl s)) w)
  | LPages => mkPst (st s) (mkPool (osize (pl s)) w (freelist (pl s)))
  | LMem a =>
      mkPst (mkStore (upd (mem (st s)) a w) (blocks (st s)) (trace (st s))
                     (visited (st s)))
            (pl s)
  end.

Definition loc_ok (W : arch) (s : pst) (l : loc) : Prop :=
  match l with
  | LMem a => valid W (st s) a = true
  | _ => True
  end.

(** The link field of the last of [cs], or [l] itself. *)
Definition last_loc (l : loc) (cs : list Z) : loc :=
  match rev cs with
  | [] => l
  | c :: _ => LMem c
  end.

(** What the loop of [add_page] does to a state when no access faults:
    it stores each cell of [cs] in the link left open by the one
    before. *)
Fixpoint thread (s : pst) (pfl : loc) (cs : list Z) : pst * loc :=
  match cs with
  | [] => (s, pfl)
  | c :: t => thread (poke s pfl c) (LMem c) t
  end.

(** The state [add_page] reaches when [malloc] answers [r] and no
    access faults. *)
Definition add_page_result (W : arch) (r : Z) (s : pst) : pst :=
  let s1 := mkPst (malloc GC_PAGE_SZ r (st s)) (pl s) in
  let t := thread s1 LFreelist (page_cells W (osize (pl s)) r) in
  let s3 := poke (fst t) (snd t) (freelist (pl s)) in
  let s4 := poke s3 (LMem r) (pages (pl s3)) in
  poke s4 LPages (peek s4 (LMem r)).

(** Every state a computation can end in satisfies [Q]. *)
Definition post {S A} (m : M S A) (s : S) (Q : S -> Prop) : Prop :=
  match m s with
  | Ok _ s' | Fault s' | Abort s' => Q s'
  | OutOfFuel => True
  end.

(** The pool table as [jl_gc_init] sets it up and the allocator keeps
    it: pool [k] serves class [k], and the head of its free list, if
    any, is a cell inside a live block. *)
Definition pools_ok (W : arch) (g : gc_state) : Prop :=
  forall k, 0 <= k < N_POOLS ->
    let p := nth (Z.to_nat k) (pools g) null_pool in
    osize p = szclass_size k + ptr_size W /\
    (freelist p = NULL \/
     0 < freelist p /\ allocated (heap g) (freelist p) (osize p)).

(** The number of bytes behind the payload pointer that [allocb]
    promises for a request of [sz]. *)
Definition payload_size (sz : Z) : Z :=
  if 2048 <? sz then sz else szclass_size (szclass sz).

Definition keeps {S A X} (f : S -> X) (m : M S A) : Prop :=
  forall s, post m s (fun s' => f s' = f s).

Definition counters (g : gc_state) : Z * nat := (allocd_bytes g, collections g).

(** ** Vocabulary of the sweep *)

(** [sweep_pool] appends the cell with header [w] to the free list. *)
Definition cell_kept (w : Z) : bool := gcv_isfree w || negb (marked w).

Definition kept_cells (W : arch) (osz : Z) (m0 : Z -> Z) (pg : Z) : list Z :=
  filter (fun c => cell_kept (m0 c)) (page_cells W osz pg).

Definition live_cells (W : arch) (osz : Z) (m0 : Z -> Z) (pg : Z) : list Z :=
  filter (fun c => negb (cell_kept (m0 c))) (page_cells W osz pg).

(** Every cell of the page has the free encoding. *)
Definition page_empty (W : arch) (osz : Z) (m0 : Z -> Z) (pg : Z) : bool :=
  forallb (fun c => gcv_isfree (m0 c)) (page_cells W osz pg).

Definition survivors (W : arch) (osz : Z) (m0 : Z -> Z) (pgs : list Z)
  : list Z :=
  filter (fun pg => negb (page_empty W osz m0 pg)) pgs.

Definition released (W : arch) (osz : Z) (m0 : Z -> Z) (pgs : list Z)
  : list Z :=
  filter (page_empty W osz m0) pgs.

(** The words a sweep of the pages [pgs] looks at: the cell headers of
    each page, then its link. *)
Definition page_words (W : arch) (osz : Z) (pg : Z) : list Z :=
  page_cells W osz pg ++ [pg].

Definition words (W : arch) (osz : Z) (pgs : list Z) : list Z :=
  flat_map (page_words W osz) pgs.

(** The pages of a pool do not overlap. *)
Fixpoint separated (pgs : list Z) : Prop :=
  match pgs with
  | [] => True
  | a :: t =>
      Forall (fun b => a + GC_PAGE_SZ <= b \/ b + GC_PAGE_SZ <= a) t /\
      separated t
  end.

(** A pool whose page list is [pgs]: the cells are at least a word
    wide, the pages are linked in this order up to a null link, each is
    a live block of [GC_PAGE_SZ] bytes, and no two overlap. *)
Definition wf_pool (W : arch) (s : pst) (pgs : list Z) : Prop :=
  ptr_size W <= osize (pl s) /\
  chain (mem (st s)) (pages (pl s)) pgs /\
  Forall (fun pg => 0 < pg /\ In (pg, GC_PAGE_SZ) (blocks (st s))) pgs /\
  separated pgs.

Definition disj (X Y : list Z) : Prop := forall x, In x X -> In x Y -> False.

(** The state of [sweep_pool] between two cells.  [FL] are the cells
    appended to the free list so far, [L] the surviving cells whose
    mark was cleared, [Surv] the pages kept so far, [Todo] the words not
    looked at yet; [pfl] and [ppg] are the cursors of the code and
    [cur] the page pointer the page cursor holds. *)
Record sinv (W : arch) (osz : Z) (m0 : Z -> Z) (s : pst)
       (FL L Surv Todo : list Z) (pfl ppg : loc) (cur : Z) : Prop := {
  si_osize : osize (pl s) = osz;
  si_nodup : NoDup (FL ++ L ++ Surv ++ Todo);
  si_fl : oseg s LFreelist FL pfl;
  si_pg : oseg s LPages Surv ppg;
  si_cur : peek s ppg = cur;
  si_todo : forall a, In a Todo -> mem (st s) a = m0 a;
  si_live : forall c, In c L -> mem (st s) c = clear_marked (m0 c);
  si_valid : forall a, In a (FL ++ L ++ Surv ++ Todo) -> valid W (st s) a = true
}.

(** Every address of [X] lies in the page of some member of [Own]. *)
Definition owned (W : arch) (X Own : list Z) : Prop :=
  forall a, In a X ->
    exists p, In p Own /\ p <= a /\ a + ptr_size W <= p + GC_PAGE_SZ.

(** Each page of [P] is a live block. *)
Definition page_blocks (s : pst) (P : list Z) : Prop :=
  forall p, In p P -> In (p, GC_PAGE_SZ) (blocks (st s)).

(** The blocks that are left when the pages [gone] have been freed. *)
Definition without (gone : list Z) (bl : list (Z * Z)) : list (Z * Z) :=
  filter (fun b => negb (existsb (Z.eqb (fst b)) gone)) bl.

(** ** Vocabulary of the mark phase *)

(** The method list that starts at [ml] consists of [nodes] and ends in
    a null [next]. *)
Fixpoint ml_chain (R : runtime) (ml : Z) (nodes : list Z) : Prop :=
  match nodes with
  | [] => ml = NULL
  | n :: t => ml = n /\ n <> NULL /\ ml_chain R (ml_next (methlist_at R n)) t
  end.

(** The two lists of every method table are null-terminated. *)
Definition methlists_finite (R : runtime) : Prop :=
  forall v defs cache cache_1arg,
    obj_at R v = JMTable defs cache cache_1arg ->
    (exists nodes, ml_chain R defs nodes) /\
    (exists nodes, ml_chain R cache nodes).

(** The addresses of the words inside a block, and inside any live
    block. *)
Definition block_addrs (W : arch) (b : Z * Z) : list Z :=
  map (fun i => fst b + Z.of_nat i)
      (seq 0 (Z.to_nat (snd b - ptr_size W + 1))).

Definition valid_addrs (W : arch) (s : store) : list Z :=
  flat_map (block_addrs W) (blocks s).

(** How many words of the live blocks have bit 0 clear. *)
Definition unmarked_count (W : arch) (s : store) : nat :=
  length (filter (fun a => negb (marked (mem s a))) (valid_addrs W s)).

(** The mark phase only sets mark bits. *)
Definition marks_grow (s s' : store) : Prop :=
  blocks s' = blocks s /\
  forall a, marked (mem s a) = true -> marked (mem s' a) = true.

(** [gc_setmark] on a valid header. *)
Definition with_mark (s : store) (a : Z) : store :=
  mkStore (upd (mem s) a (set_marked (mem s a))) (blocks s) (trace s)
          (visited s).

(** No object was traced twice, and every traced object is marked. *)
Definition vis_ok (W : arch) (s : store) : Prop :=
  NoDup (visited s) /\
  forall o, In o (visited s) -> marked (mem s (gc_val W o)) = true.

(** With enough fuel the computation ends, always in the same way, and
    not by running out of fuel; the state it ends in satisfies [Q]. *)
Definition halts {A} (m : nat -> M store A) (s : store) (Q : store -> Prop)
  : Prop :=
  exists N out,
    (forall n, (N <= n)%nat -> m n s = out) /\
    match out with
    | Ok _ s' | Fault s' | Abort s' => Q s'
    | OutOfFuel => False
    end.

Definition mark_pre (W : arch) (k : nat) (s : store) : Prop :=
  (unmarked_count W s <= k)%nat /\ vis_ok W s.

Definition mark_post (W : arch) (s s' : store) : Prop :=
  marks_grow s s' /\ vis_ok W s'.

(** A marking step that halts from every state with at most [k]
    unmarked words. *)
Definition good (W : arch) (k : nat) (f : nat -> M store unit) : Prop :=
  forall s, mark_pre W k s -> halts f s (mark_post W s).

(** The state in which [gc_markval] traces the body of an unmarked
    object [v]: the mark of [v] is set and [v] is recorded. *)
Definition entered (W : arch) (s : store) (v : Z) : store :=
  mkStore (mem (with_mark s (gc_val W v))) (blocks s) (trace s)
          (visited s ++ [v]).

(** The header word of the object at [a] lies in one of the blocks
    [bl]. *)
Definition hdr_valid (W : arch) (bl : list (Z * Z)) (a : Z) : Prop :=
  existsb (in_block W (gc_val W a)) bl = true.

(** The nodes of a method list and what [gc_mark_methlist] needs of
    them: a header to mark, and three fields it can trace. *)
Fixpoint ml_ok (R : runtime) (P H : Z -> Prop) (ml : Z) (nodes : list Z)
  : Prop :=
  match nodes with
  | [] => ml = NULL
  | n :: t =>
      ml = n /\ n <> NULL /\ H n /\
      P (ml_sig (methlist_at R n)) /\ P (ml_tvars (methlist_at R n)) /\
      P (ml_func (methlist_at R n)) /\
      ml_ok R P H (ml_next (methlist_at R n)) t
  end.

(** What the branch of [gc_markval] for the object [o] requires of its
    fields: [P] holds of the fields it traces without a null test, [P]
    or null of those it tests, [H] of the buffer it marks directly, and
    the asserted fields are null. *)
Definition obj_ok (R : runtime) (P H : Z -> Prop) (o : jl_obj) : Prop :=
  let O x := x = NULL \/ P x in
  let ML ml := exists nodes, ml_ok R P H ml nodes in
  match o with
  | JBits => True
  | JArray dims data space elty_bits elts =>
      P dims /\ (data <> space -> H data) /\
      (elty_bits = false -> Forall O elts)
  | JTuple data => Forall O data
  | JLambdaInfo ast sparams tfunc roots specTypes unspecialized =>
      P ast /\ P sparams /\ P tfunc /\ P roots /\ P specTypes /\
      O unspecialized
  | JFunc env linfo => O env /\ O linfo
  | JTypeName primary => O primary
  | JTagType env linfo name super parameters =>
      env = NULL /\ linfo = NULL /\ P name /\ P super /\ P parameters
  | JStructType env linfo name super parameters names types
                ctor_factory instance =>
      O env /\ O linfo /\ P name /\ P super /\ P parameters /\
      P names /\ P types /\ O ctor_factory /\ O instance
  | JBitsType env linfo name super parameters bnbits =>
      env = NULL /\ linfo = NULL /\ P name /\ P super /\ P parameters /\
      P bnbits
  | JMTable defs cache cache_1arg =>
      ML defs /\ ML cache /\ Forall O cache_1arg
  | JTask on_exit start result eh_task =>
      P on_exit /\ P start /\ P result /\ P eh_task
  | JStruct fields => Forall P fields
  | JOther => False
  end.

(** The objects [dom] form a closed heap inside the blocks [bl]: each
    is non-null, has its header in a block, and refers only to objects
    of [dom]. *)
Definition closed (W : arch) (R : runtime) (bl : list (Z * Z))
    (dom : list Z) : Prop :=
  forall v, In v dom ->
    v <> NULL /\ hdr_valid W bl v /\
    obj_ok R (fun x => In x dom) (hdr_valid W bl) (obj_at R v).

(** On a store with the blocks [bl] the computation neither faults nor
    aborts, and it leaves the blocks alone. *)
Definition safe (bl : list (Z * Z)) (m : M store unit) : Prop :=
  forall s, blocks s = bl ->
    match m s with
    | Ok _ s' => blocks s' = bl
    | OutOfFuel => True
    | Fault _ | Abort _ => False
    end.

(** ** Concrete states used in the examples *)

Definition ex_store : store := mkStore (fun _ => 0) [] [] [].

(** A fresh pool of the largest size class on a 64-bit machine. *)
Definition ex_pst : pst := mkPst ex_store (mkPool (2048 + 8) NULL NULL).

(** A runtime with two closures that refer to each other through
    their environments. *)
Definition ex_runtime : runtime :=
  mkRuntime (fun a => if a =? 4104 then JFunc 4120 NULL
                      else if a =? 4120 then JFunc 4104 NULL
                      else JBits)
            (fun _ => mkMethlist NULL NULL NULL NULL)
            (fun _ => [])
            (fun _ => mkBinding NULL NULL)
            NULL NULL NULL NULL NULL NULL NULL NULL NULL NULL
            (ret tt).

(** The two closures live in one block; their headers are clear. *)
Definition ex_cycle_store : store := mkStore (fun _ => 0) [(4096, 64)] [] [].

(** The collector right after [jl_gc_init] on a 64-bit machine. *)
Definition ex_gc : gc_state :=
  mkGc ex_store NULL (map (fun c => mkPool (c + 8) NULL NULL) szc) 0
       (8192 * 1024) O.

(** A pool with one page at 65536 whose seven cells are all garbage:
    their headers are zero, that is live and unmarked. *)
Definition ex_garbage_pst : pst :=
  mkPst (mkStore (fun _ => 0) [(65536, GC_PAGE_SZ)] [] [])
        (mkPool (2048 + 8) 65536 NULL).


(** The same runtime with every root set to the first closure. *)
Definition ex_rooted_runtime : runtime :=
  mkRuntime (obj_at ex_runtime) (methlist_at ex_runtime)
            (module_bindings ex_runtime) (binding_at ex_runtime)
            4104 4104 4104 4104 4104 4104 4104 4104 4104 4104
            (ret tt).

(** A collector whose allocation counter is past the interval. *)
Definition ex_full_gc : gc_state :=
  mkGc ex_cycle_store NULL (pools ex_gc) (8192 * 1024 + 1) (8192 * 1024) O.

Definition ex_pages : list Z := [65536].

(** A method table at 4104 whose list of definitions has one entry, at
    4120, that links to itself; the three fields of the entry are the
    value at 4136. *)
Definition ex_loop_runtime : runtime :=
  mkRuntime (fun a => if a =? 4104 then JMTable 4120 NULL [] else JBits)
            (fun _ => mkMethlist 4136 4136 4136 4120)
            (fun _ => [])
            (fun _ => mkBinding NULL NULL)
            NULL NULL NULL NULL NULL NULL NULL NULL NULL NULL
            (ret tt).

(** ** Vocabulary of the further properties *)

(** A computation keeps [P] in every outcome. *)
Definition preserves {S A} (P : S -> Prop) (m : M S A) : Prop :=
  forall s, P s -> post m s P.

(** No pool has a page on its list. *)
Definition no_pages (g : gc_state) : Prop :=
  Forall (fun p => pages p = NULL) (pools g).

(** A pool function that leaves the page list and the cell size of its
    pool alone, in every outcome. *)
Definition same_pool (s : pst) (s' : pst) : Prop :=
  pages (pl s') = pages (pl s) /\ osize (pl s') = osize (pl s).


Definition pool_shape (s : pst) : Z * Z := (pages (pl s), osize (pl s)).

(** Every pool of the table has an empty page list and an empty free
    list. *)
Definition pools_drained (g : gc_state) : Prop :=
  forall k, 0 <= k < N_POOLS ->
    pages (nth (Z.to_nat k) (pools g) null_pool) = NULL /\
    freelist (nth (Z.to_nat k) (pools g) null_pool) = NULL.

(** A pool with one page at 65536 whose first cell is live and marked
    (header 1) and whose other six cells are garbage. *)
Definition ex_marked_pst : pst :=
  mkPst (mkStore (fun a => if a =? 65544 then 1 else 0)
                 [(65536, GC_PAGE_SZ)] [] [])
        (mkPool (2048 + 8) 65536 NULL).

(** ** Vocabulary of the big-object list *)

(** The headers (link and flags word) of two [bigval_t] do not
    overlap. *)
Definition hdr_apart (W : arch) (a b : Z) : Prop :=
  a + 2 * ptr_size W <= b \/ b + 2 * ptr_size W <= a.

Fixpoint big_apart (W : arch) (vs : list Z) : Prop :=
  match vs with
  | [] => True
  | a :: t => Forall (hdr_apart W a) t /\ big_apart W t
  end.

(** [v] is the base of a live block that holds at least the header. *)
Definition big_block (W : arch) (s : store) (v : Z) : Prop :=
  exists n, In (v, n) (blocks s) /\ 2 * ptr_size W <= n.

(** The list that starts at [head] links the objects [vs] up to a null
    link; each is a live block of its own. *)
Definition wf_big (W : arch) (s : store) (head : Z) (vs : list Z) : Prop :=
  chain (mem s) head vs /\
  Forall (big_block W s) vs /\
  big_apart W vs.

(** The flags word of the big object at [v] has its mark set. *)
Definition big_marked (W : arch) (m : Z -> Z) (v : Z) : bool :=
  marked (m (v + ptr_size W)).

Definition big_kept (W : arch) (m : Z -> Z) (vs : list Z) : list Z :=
  filter (big_marked W m) vs.

Definition big_gone (W : arch) (m : Z -> Z) (vs : list Z) : list Z :=
  filter (fun v => negb (big_marked W m v)) vs.

(** What [bigval_t **pv] holds. *)
Definition peekb (g : gc_state) (pv : bloc) : Z :=
  match pv with
  | BHead => big_objects g
  | BNext u => mem (heap g) u
  end.

(** The cursor [pv] of [sweep_big] points into a live object that is
    not among the objects still to be looked at. *)
Definition bloc_ok (W : arch) (g : gc_state) (pv : bloc) (rest : list Z)
  : Prop :=
  match pv with
  | BHead => True
  | BNext u => big_block W (heap g) u /\ Forall (hdr_apart W u) rest
  end.

(** The header words of the objects [vs]. *)
Definition hdr_words (W : arch) (vs : list Z) : list Z :=
  flat_map (fun v => [v; v + ptr_size W]) vs.

(** Everything but the heap and the head of the big-object list. *)
Definition same_globals (g g' : gc_state) : Prop :=
  pools g' = pools g /\ allocd_bytes g' = allocd_bytes g /\
  collect_interval g' = collect_interval g /\
  collections g' = collections g /\
  visited (heap g') = visited (heap g).

(** Two big objects: the one at 8192 is marked, the one at 4096, which
    it links to, is not. *)
Definition ex_big_gc : gc_state :=
  mkGc (mkStore (fun a => if a =? 8192 then 4096 else
                          if a =? 8200 then 1 else 0)
                [(8192, 48); (4096, 48)] [] [])
       8192 (pools ex_gc) 0 (8192 * 1024) O.

Definition ex_bigs : list Z := [8192; 4096].

(** ** Vocabulary of the tracer's invariant *)

(** The header of the object at [x] has its mark set. *)
Definition is_marked (W : arch) (s : store) (x : Z) : Prop :=
  marked (mem s (gc_val W x)) = true.

(** Everything [gc_markval] follows or marks from the object at [o]
    carries its mark: the fields it traces, the non-null ones among
    those it tests, the buffer of an array and the entries of the
    method lists. *)
Definition black (W : arch) (R : runtime) (s : store) (o : Z) : Prop :=
  obj_ok R (is_marked W s) (is_marked W s) (obj_at R o).

(** No marked object of [dom] refers to an unmarked one. *)
Definition tricolour (W : arch) (R : runtime) (dom : list Z) (s : store)
  : Prop :=
  forall o, In o dom -> is_marked W s o -> black W R s o.

(** What the tracer marks without tracing (array buffers, method-list
    entries, modules, bindings): one of [buf] and not an object of
    [dom]. *)
Definition direct (dom buf : list Z) (b : Z) : Prop :=
  In b buf /\ ~ In b dom.

(** The objects [dom] refer only to objects of [dom], and what the
    tracer marks without tracing is in [buf] and is not an object of
    [dom]. *)
Definition separate (R : runtime) (dom buf : list Z) : Prop :=
  forall o, In o dom ->
    obj_ok R (fun x => In x dom) (direct dom buf) (obj_at R o).

(** The word at [a] is the header of an object of [dom] or of something
    in [buf]. *)
Definition header (W : arch) (dom buf : list Z) (a : Z) : Prop :=
  exists x, (In x dom \/ In x buf) /\ a = gc_val W x.

(** What a marking step establishes whenever it returns: marks are
    only set; [Q] holds from then on; no word other than a header is
    written and nothing is allocated or freed; the objects of [dom] it
    traced are black from then on; and an object of [dom] is marked
    only if it was before or was traced. *)
Definition marks_to (W : arch) (R : runtime) (dom buf : list Z)
    (m : M store unit) (Q : store -> Prop) : Prop :=
  forall s s', m s = Ok tt s' ->
    marks_grow s s' /\
    (forall s'', marks_grow s' s'' -> Q s'') /\
    (trace s' = trace s /\
     forall a, ~ header W dom buf a -> mem s' a = mem s a) /\
    exists new,
      visited s' = visited s ++ new /\
      (forall o, In o new ->
         In o dom /\ forall s'', marks_grow s' s'' -> black W R s'' o) /\
      (forall a, In a dom -> is_marked W s' a ->
                 is_marked W s a \/ In a new).

(** The two closures of [ex_runtime]. *)
Definition ex_dom : list Z := [4104; 4120].

(** The two modules and the binding of [ex_mark_runtime]. *)
Definition ex_buf : list Z := [4136; 4152; 4168].

(** ** Vocabulary of the roots *)

(** The roots that [gc_mark] hands to [gc_markval]. *)
Definition traced_roots (R : runtime) : list Z :=
  [jl_root_task R; jl_current_task R; jl_methtable_type R; jl_bottom_func R;
   jl_any_func R; jl_null R; jl_true R; jl_false R].

(** What [gc_mark_module] does with one slot of the bindings table: it
    marks the binding ([H]) and traces its value, if any, and its type
    ([P]). *)
Definition slot_ok (R : runtime) (P H : Z -> Prop) (slot : option Z) : Prop :=
  match slot with
  | None => True
  | Some b =>
      H b /\
      (b_value (binding_at R b) = NULL \/ P (b_value (binding_at R b))) /\
      P (b_type (binding_at R b))
  end.

Definition module_ok (R : runtime) (P H : Z -> Prop) (m : Z) : Prop :=
  H m /\ Forall (slot_ok R P H) (module_bindings R m).

Definition roots_ok (R : runtime) (P H : Z -> Prop) : Prop :=
  Forall P (traced_roots R) /\
  module_ok R P H (jl_system_module R) /\
  module_ok R P H (jl_user_module R).

(** A runtime whose roots are the first closure of [ex_runtime], with
    two modules; the system module binds the second closure. *)
Definition ex_mark_runtime : runtime :=
  mkRuntime (obj_at ex_runtime) (methlist_at ex_runtime)
            (fun m => if m =? 4136 then [Some 4168; None] else [])
            (fun _ => mkBinding 4120 4104)
            4104 4104 4136 4152 4104 4104 4104 4104 4104 4104
            (ret tt).

Definition ex_mark_store : store := mkStore (fun _ => 0) [(4096, 128)] [] [].

(** A pool whose free list holds the first two cells of its page. *)
Definition ex_fl_pst : pst :=
  mkPst (mkStore (fun a => if a =? 65544 then 67600 else 0)
                 [(65536, GC_PAGE_SZ)] [] [])
        (mkPool (2048 + 8) 65536 65544).

Definition ex_fl_rest : list Z := [67600].

(** ** Reachability *)

(** [x] is reachable from the roots: it belongs to every set [P] that
    holds the roots of [gc_mark] (with the values and types of the
    module bindings) and that holds, with an object of [dom], every
    field the tracer follows from it. *)
Definition reachable (R : runtime) (dom : list Z) (x : Z) : Prop :=
  forall P : Z -> Prop,
    roots_ok R P (fun _ => True) ->
    (forall o, In o dom -> P o -> obj_ok R P (fun _ => True) (obj_at R o)) ->
    P x.

(** ** A heap of three big objects

    The objects at 8192 and 4096 hold a closure and the value it
    refers to; the object at 12288 is not referred to.  The two modules
    live in a block of their own. *)
Definition ex_heap_runtime : runtime :=
  mkRuntime (fun a => if a =? 8208 then JFunc 4112 NULL else JBits)
            (fun _ => mkMethlist NULL NULL NULL NULL)
            (fun _ => [])
            (fun _ => mkBinding NULL NULL)
            8208 8208 16392 16408 8208 8208 8208 8208 8208 8208
            (ret tt).

Definition ex_heap_gc : gc_state :=
  mkGc (mkStore (fun a => if a =? 12288 then 8192 else
                          if a =? 8192 then 4096 else 0)
                [(12288, 48); (8192, 48); (4096, 48); (16384, 64)] [] [])
       12288 (pools ex_gc) 0 (8192 * 1024) O.

Definition ex_heap_bigs : list Z := [12288; 8192; 4096].
Definition ex_heap_dom : list Z := [8208; 4112].
Definition ex_heap_buf : list Z := [16392; 16408].

(** ** The stack of GC frames

    A [jl_gcframe_t] holds the array [roots] of [nroots] values and
    the link [prev].  A frame is described by the list of its [nroots]
    roots and by its [prev] pointer. *)
Record jl_gcframe_t := mkFrame {
  gf_roots : list Z;
  gf_prev : Z
}.

(** [gc_mark_stack]: [mv] is [GC_Markval]; the loop over the frames
    takes a fuel. *)
Fixpoint gc_mark_stack (frame_at : Z -> jl_gcframe_t)
    (mv : Z -> M store unit) (fuel : nat) (s : Z) : M store unit :=
  match fuel with
  | O => out_of_fuel
  | S n =>
      if s =? NULL then ret tt else
      mark_each mv (gf_roots (frame_at s)) ;;
      gc_mark_stack frame_at mv n (gf_prev (frame_at s))
  end.

(** The frames [fs] are linked from [s] up to a null [prev], and [P]
    holds of every root of every frame. *)
Fixpoint frames_ok (frame_at : Z -> jl_gcframe_t) (P : Z -> Prop) (s : Z)
    (fs : list Z) : Prop :=
  match fs with
  | [] => s = NULL
  | f :: t =>
      s = f /\ f <> NULL /\ Forall P (gf_roots (frame_at f)) /\
      frames_ok frame_at P (gf_prev (frame_at f)) t
  end.

(** Two frames: the inner one at 100 holds the first closure of
    [ex_runtime], the outer one at 200 the second. *)
Definition ex_frame_at (s : Z) : jl_gcframe_t :=
  if s =? 100 then mkFrame [4104] 200
  else if s =? 200 then mkFrame [4120] NULL
  else mkFrame [] NULL.

Definition ex_frames : list Z := [100; 200].

(** * Proofs *)

Lemma ptr_size_cases W : ptr_size W = 4 \/ ptr_size W = 8.
Proof. destruct W; simpl; auto. Qed.

Lemma szclass_range sz : 0 <= szclass sz <= 15.
Proof.
  unfold szclass.
  repeat match goal with |- context [?a <=? ?b] => destruct (a <=? b) end; lia.
Qed.

Lemma szclass_fits sz : sz <= 2048 -> sz <= szclass_size (szclass sz).
Proof.
  intros H. unfold szclass.
  repeat match goal with
         | |- context [?a <=? ?b] => destruct (Z.leb_spec a b)
         end; vm_compute szclass_size; lia.
Qed.

Lemma szclass_size_below j k :
  0 <= j < k -> k <= 15 ->
  szclass_size j <= szclass_size (k - 1).
Proof.
  intros Hj Hk.
  assert (Hc : k = 1 \/ k = 2 \/ k = 3 \/ k = 4 \/ k = 5 \/ k = 6 \/ k = 7 \/
               k = 8 \/ k = 9 \/ k = 10 \/ k = 11 \/ k = 12 \/ k = 13 \/
               k = 14 \/ k = 15) by lia.
  assert (Hd : j = 0 \/ j = 1 \/ j = 2 \/ j = 3 \/ j = 4 \/ j = 5 \/ j = 6 \/
               j = 7 \/ j = 8 \/ j = 9 \/ j = 10 \/ j = 11 \/ j = 12 \/
               j = 13 \/ j = 14) by lia.
  repeat (destruct Hc as [-> | Hc]); try subst k;
    repeat (destruct Hd as [-> | Hd]); try subst j; vm_compute; try discriminate; lia.
Qed.

Lemma szclass_prev_too_small sz :
  1 <= sz -> 0 < szclass sz -> szclass_size (szclass sz - 1) < sz.
Proof.
  intros H. unfold szclass.
  repeat match goal with
         | |- context [?a <=? ?b] => destruct (Z.leb_spec a b)
         end; try (vm_compute szclass_size); lia.
Qed.


(** C5: on 1..2048 [szclass] returns the least class that holds the
    request, and the seven spot checks of the specification hold. *)
Theorem szclass_least_class :
  forall sz, 1 <= sz <= 2048 ->
    least_class sz (szclass sz) /\ spot_checks.
Proof.
  intros sz [H1 H2]. split.
  - split; [apply szclass_range|]. split; [apply szclass_fits; lia|].
    intros j Hj.
    pose proof (szclass_range sz) as Hr.
    pose proof (szclass_size_below j (szclass sz) Hj (proj2 Hr)).
    pose proof (szclass_prev_too_small sz H1). lia.
  - repeat split; reflexivity.
Qed.

Lemma szclass_least_class_witness :
  1 <= 129 <= 2048 /\ least_class 129 (szclass 129) /\ spot_checks.
Proof. split; [lia | apply (szclass_least_class 129); lia]. Defined.

(** C10: [szclass] is a total, state-free function, and every request
    above 1536, also above 2048, is answered with 15. *)
Theorem szclass_above_1536 :
  forall sz, 1536 < sz -> szclass sz = 15.
Proof.
  intros sz H. unfold szclass.
  repeat match goal with
         | |- context [?a <=? ?b] => destruct (Z.leb_spec a b)
         end; lia.
Qed.

Lemma szclass_above_1536_witness :
  1536 < 2 ^ 64 - 1 /\ szclass (2 ^ 64 - 1) = 15.
Proof. split; [lia | apply (szclass_above_1536 (2 ^ 64 - 1)); lia]. Defined.

(** ** The store *)

Lemma upd_same m a w : upd m a w a = w.
Proof. unfold upd. now rewrite Z.eqb_refl. Qed.

Lemma upd_other m a w x : x <> a -> upd m a w x = m x.
Proof. unfold upd. intros H. destruct (Z.eqb_spec x a); congruence. Qed.

Lemma valid_intro W s a b :
  In b (blocks s) -> fst b <= a -> a + ptr_size W <= fst b + snd b ->
  valid W s a = true.
Proof.
  intros Hin H1 H2. unfold valid. apply existsb_exists. exists b. split; auto.
  unfold in_block. apply andb_true_iff. split; apply Z.leb_le; lia.
Qed.

Lemma valid_elim W s a :
  valid W s a = true ->
  exists b, In b (blocks s) /\ fst b <= a /\ a + ptr_size W <= fst b + snd b.
Proof.
  unfold valid. intros H. apply existsb_exists in H. destruct H as [b [Hin Hb]].
  unfold in_block in Hb. apply andb_true_iff in Hb. destruct Hb as [H1 H2].
  apply Z.leb_le in H1, H2. eauto.
Qed.

(** ** Locations *)

Lemma loc_eq_dec (x y : loc) : {x = y} + {x <> y}.
Proof. decide equality. apply Z.eq_dec. Qed.

Lemma rd_ok W s l : loc_ok W s l -> rd W l s = Ok (peek s l) s.
Proof.
  destruct l; simpl; intros H; unfold rd; simpl; auto.
  unfold load. now rewrite H.
Qed.

Lemma wr_ok W s l w : loc_ok W s l -> wr W l w s = Ok tt (poke s l w).
Proof.
  destruct l; simpl; intros H; unfold wr; simpl; auto.
  unfold store_word. now rewrite H.
Qed.

Lemma wr_fault W s a w :
  valid W (st s) a = false -> wr W (LMem a) w s = Fault s.
Proof. intros H. unfold wr; simpl. unfold store_word. now rewrite H. Qed.

Lemma peek_poke_same s l w : peek (poke s l w) l = w.
Proof. destruct l; simpl; auto. apply upd_same. Qed.

Lemma peek_poke_other s l l' w : l' <> l -> peek (poke s l w) l' = peek s l'.
Proof.
  destruct l, l'; simpl; intros H; auto; try congruence.
  apply upd_other. congruence.
Qed.

Lemma loc_ok_poke W s l w l' : loc_ok W (poke s l w) l' <-> loc_ok W s l'.
Proof. destruct l, l'; simpl; tauto. Qed.

Lemma poke_blocks s l w : blocks (st (poke s l w)) = blocks (st s).
Proof. destruct l; reflexivity. Qed.

Lemma poke_trace s l w : trace (st (poke s l w)) = trace (st s).
Proof. destruct l; reflexivity. Qed.

Lemma poke_osize s l w : osize (pl (poke s l w)) = osize (pl s).
Proof. destruct l; reflexivity. Qed.

Lemma poke_mem_other s l w a : l <> LMem a -> mem (st (poke s l w)) a = mem (st s) a.
Proof.
  intros H. change (peek (poke s l w) (LMem a) = peek s (LMem a)).
  apply peek_poke_other. congruence.
Qed.

Lemma poke_pages s l w : l <> LPages -> pages (pl (poke s l w)) = pages (pl s).
Proof.
  intros H. change (peek (poke s l w) LPages = peek s LPages).
  apply peek_poke_other. congruence.
Qed.

Lemma poke_freelist s l w :
  l <> LFreelist -> freelist (pl (poke s l w)) = freelist (pl s).
Proof.
  intros H. change (peek (poke s l w) LFreelist = peek s LFreelist).
  apply peek_poke_other. congruence.
Qed.

Lemma valid_poke W s l w a : valid W (st (poke s l w)) a = valid W (st s) a.
Proof. unfold valid. now rewrite poke_blocks. Qed.

(** ** Open segments *)

Lemma last_loc_nil l : last_loc l [] = l.
Proof. reflexivity. Qed.

Lemma last_loc_snoc l cs c : last_loc l (cs ++ [c]) = LMem c.
Proof. unfold last_loc. rewrite rev_app_distr. reflexivity. Qed.

Lemma last_loc_cons l c cs : last_loc l (c :: cs) = last_loc (LMem c) cs.
Proof.
  unfold last_loc. simpl. destruct (rev cs) eqn:E; simpl; auto.
Qed.

Lemma last_loc_in l cs : In (last_loc l cs) (l :: map LMem cs).
Proof.
  revert l. induction cs as [|c cs IH]; intros l.
  - left. reflexivity.
  - rewrite last_loc_cons. right. apply (IH (LMem c)).
Qed.

Lemma oseg_end s l cs e : oseg s l cs e -> e = last_loc l cs.
Proof.
  revert l. induction cs as [|c cs IH]; simpl; intros l H.
  - now subst.
  - rewrite last_loc_cons. apply IH. tauto.
Qed.

Lemma oseg_in s l cs e : oseg s l cs e -> In e (l :: map LMem cs).
Proof. intros H. rewrite (oseg_end _ _ _ _ H). apply last_loc_in. Qed.

Lemma oseg_poke_other s l cs e x w :
  ~ In x (l :: map LMem cs) -> oseg s l cs e -> oseg (poke s x w) l cs e.
Proof.
  revert l. induction cs as [|c cs IH]; simpl; intros l Hn H; auto.
  destruct H as [H1 H2]. split.
  - rewrite peek_poke_other; [solve [auto]|]. intros ->. simpl in Hn. tauto.
  - apply IH; [|assumption]. simpl in *. tauto.
Qed.

Lemma oseg_poke_end s l cs e w :
  NoDup (l :: map LMem cs) -> oseg s l cs e -> oseg (poke s e w) l cs e.
Proof.
  revert l. induction cs as [|c cs IH]; simpl; intros l Hn H; auto.
  destruct H as [H1 H2]. inversion Hn as [|? ? Hni Hn']; subst.
  split.
  - rewrite peek_poke_other; [solve [auto]|].
    intros ->. apply Hni. apply (oseg_in _ _ _ _ H2).
  - apply IH; assumption.
Qed.

Lemma oseg_snoc s l cs e c :
  NoDup (l :: map LMem cs) -> oseg s l cs e ->
  oseg (poke s e c) l (cs ++ [c]) (LMem c).
Proof.
  revert l. induction cs as [|c0 cs IH]; simpl; intros l Hn H.
  - subst. split; auto. apply peek_poke_same.
  - destruct H as [H1 H2]. inversion Hn as [|? ? Hni Hn']; subst.
    split.
    + rewrite peek_poke_other; [solve [auto]|].
      intros ->. apply Hni. apply (oseg_in _ _ _ _ H2).
    + apply IH; assumption.
Qed.

Lemma oseg_prefix s l cs cs' e :
  oseg s l (cs ++ cs') e -> oseg s l cs (last_loc l cs).
Proof.
  revert l. induction cs as [|c cs IH]; simpl; intros l H.
  - reflexivity.
  - rewrite last_loc_cons. destruct H as [H1 H2]. split; [exact H1|].
    eapply IH; exact H2.
Qed.

Lemma oseg_lseg s l cs e b :
  oseg s l cs e -> peek s e = b -> lseg (mem (st s)) (peek s l) cs b.
Proof.
  revert l. induction cs as [|c cs IH]; simpl; intros l H Hb.
  - now subst.
  - destruct H as [H1 H2]. split; auto.
    specialize (IH (LMem c) H2 Hb). simpl in IH. exact IH.
Qed.

Lemma lseg_chain m a l : lseg m a l NULL -> Forall (fun c => c <> NULL) l -> chain m a l.
Proof.
  revert a. induction l as [|c l IH]; simpl; intros a H Hf; auto.
  destruct H as [-> H]. inversion Hf; subst. auto.
Qed.

Lemma NoDup_loc l cs :
  (forall a, l <> LMem a) -> NoDup cs -> NoDup (l :: map LMem cs).
Proof.
  intros Hl Hn. constructor.
  - rewrite in_map_iff. intros [a [Ha _]]. eapply Hl; eauto.
  - induction Hn; simpl; constructor; auto.
    rewrite in_map_iff. intros [a [Ha Hin]]. congruence.
Qed.

(** ** Cells of a page *)

Lemma ptr_size_pos W : 0 < ptr_size W.
Proof. destruct W; simpl; lia. Qed.

(** With cells no larger than a page, the end pointer of the loops of
    [add_page] and [sweep_pool] is the same in the arithmetic of the
    machine for every page inside the address space. *)
Lemma lim_no_wrap W pg osz :
  0 <= pg -> osz <= GC_PAGE_SZ -> pg + GC_PAGE_SZ <= word_mod W -> 0 < osz ->
  wrap W (pg + GC_PAGE_SZ - osz) = pg + GC_PAGE_SZ - osz.
Proof.
  intros Hp Ho Hm Hz. unfold wrap. apply Z.mod_small. lia.
Qed.

Lemma cells_length v osz n : length (cells v osz n) = n.
Proof. revert v. induction n; simpl; intros; auto. Qed.

Lemma In_cells c v osz n :
  In c (cells v osz n) <-> exists i, 0 <= i < Z.of_nat n /\ c = v + i * osz.
Proof.
  revert v. induction n as [|n IH]; intros v; simpl.
  - split; [tauto | intros [i [Hi _]]; lia].
  - rewrite IH. split.
    + intros [<- | [i [Hi ->]]].
      * exists 0. lia.
      * exists (i + 1). lia.
    + intros [i [Hi ->]]. destruct (Z.eq_dec i 0) as [-> | Hne].
      * left. lia.
      * right. exists (i - 1). lia.
Qed.

Lemma cells_lower c v osz n : 0 < osz -> In c (cells v osz n) -> v <= c.
Proof. intros Ho H. apply In_cells in H. destruct H as [i [Hi ->]]. nia. Qed.

Lemma cells_NoDup v osz n : 0 < osz -> NoDup (cells v osz n).
Proof.
  intros Ho. revert v. induction n as [|n IH]; intros v; simpl; constructor; auto.
  intros H. apply cells_lower in H; lia.
Qed.

Lemma ncells_bounds W osz :
  0 < osz ->
  0 <= ncells W osz /\
  ncells W osz * osz <= GC_PAGE_SZ - ptr_size W < (ncells W osz + 1) * osz.
Proof.
  intros Ho. unfold ncells.
  assert (Hp : 0 <= GC_PAGE_SZ - ptr_size W)
    by (unfold GC_PAGE_SZ; destruct W; simpl; lia).
  pose proof (Z.div_pos _ _ Hp Ho).
  pose proof (Z.mul_div_le (GC_PAGE_SZ - ptr_size W) osz Ho).
  pose proof (Z.mul_succ_div_gt (GC_PAGE_SZ - ptr_size W) osz Ho).
  lia.
Qed.

Lemma page_cells_length W osz pg :
  0 < osz -> Z.of_nat (length (page_cells W osz pg)) = ncells W osz.
Proof.
  intros Ho. unfold page_cells. rewrite cells_length.
  pose proof (ncells_bounds W osz Ho). lia.
Qed.

Lemma page_cells_in_page W osz pg c :
  0 < osz -> In c (page_cells W osz pg) ->
  pg + ptr_size W <= c /\ c + osz <= pg + GC_PAGE_SZ.
Proof.
  intros Ho H. unfold page_cells in H. apply In_cells in H.
  destruct H as [i [Hi ->]]. pose proof (ncells_bounds W osz Ho). nia.
Qed.

Lemma page_cells_NoDup W osz pg : 0 < osz -> NoDup (page_cells W osz pg).
Proof. intros. now apply cells_NoDup. Qed.

(** ** [thread] *)

Lemma thread_snd s pfl cs : snd (thread s pfl cs) = last_loc pfl cs.
Proof.
  revert s pfl. induction cs as [|c cs IH]; intros; simpl; auto.
  rewrite IH, last_loc_cons. reflexivity.
Qed.

Lemma thread_blocks s pfl cs : blocks (st (fst (thread s pfl cs))) = blocks (st s).
Proof.
  revert s pfl. induction cs as [|c cs IH]; intros; simpl; auto.
  rewrite IH. apply poke_blocks.
Qed.

Lemma thread_trace s pfl cs : trace (st (fst (thread s pfl cs))) = trace (st s).
Proof.
  revert s pfl. induction cs as [|c cs IH]; intros; simpl; auto.
  rewrite IH. apply poke_trace.
Qed.

Lemma thread_osize s pfl cs : osize (pl (fst (thread s pfl cs))) = osize (pl s).
Proof.
  revert s pfl. induction cs as [|c cs IH]; intros; simpl; auto.
  rewrite IH. apply poke_osize.
Qed.

Lemma thread_peek_other s pfl cs l :
  ~ In l (pfl :: map LMem cs) ->
  peek (fst (thread s pfl cs)) l = peek s l.
Proof.
  revert s pfl. induction cs as [|c cs IH]; intros s pfl Hn; simpl in *; auto.
  rewrite IH by tauto. apply peek_poke_other. intros ->. tauto.
Qed.

Lemma thread_oseg s pfl cs :
  NoDup (pfl :: map LMem cs) ->
  oseg (fst (thread s pfl cs)) pfl cs (last_loc pfl cs).
Proof.
  revert s pfl. induction cs as [|c cs IH]; intros s pfl Hn; simpl.
  - reflexivity.
  - inversion Hn as [|? ? Hni Hn']; subst.
    rewrite last_loc_cons. split.
    + rewrite thread_peek_other by exact Hni. apply peek_poke_same.
    + apply IH. exact Hn'.
Qed.

(** ** The loop of [add_page] *)

Lemma add_page_loop_ok W n :
  forall fuel lim pfl v s,
    0 < osize (pl s) ->
    (forall c, In c (cells v (osize (pl s)) n) -> valid W (st s) c = true) ->
    loc_ok W s pfl ->
    v + Z.of_nat n * osize (pl s) <= lim + osize (pl s) ->
    lim < v + Z.of_nat n * osize (pl s) ->
    (n < fuel)%nat ->
    add_page_loop W fuel lim pfl v s =
    Ok (snd (thread s pfl (cells v (osize (pl s)) n)))
       (fst (thread s pfl (cells v (osize (pl s)) n))).
Proof.
  induction n as [|n IH]; intros fuel lim pfl v s Ho Hv Hp H1 H2 Hf;
    (destruct fuel as [|fuel]; [lia|]); simpl.
  - destruct (Z.leb_spec v lim); [lia|]. reflexivity.
  - destruct (Z.leb_spec v lim); [|nia].
    unfold bind. rewrite wr_ok by exact Hp.
    unfold p_osize. rewrite poke_osize.
    rewrite (IH fuel lim (LMem v) (v + osize (pl s)) (poke s pfl v));
      rewrite ?poke_osize; try lia; auto.
    + intros c Hc. rewrite valid_poke. apply Hv. now right.
    + apply loc_ok_poke. simpl. apply Hv. now left.
Qed.

(** ** [add_page] *)

Lemma cells_as_map v osz n :
  cells v osz n = map (fun i => v + Z.of_nat i * osz) (seq 0 n).
Proof.
  revert v. induction n as [|n IH]; intros v; simpl; auto.
  f_equal; [lia|]. rewrite IH, <- seq_shift, map_map.
  apply map_ext. intros i. lia.
Qed.

Lemma span_enough W osz r :
  0 < osz ->
  (Z.to_nat (ncells W osz) <
   span (r + ptr_size W) (r + GC_PAGE_SZ - osz))%nat.
Proof.
  intros Ho. pose proof (ncells_bounds W osz Ho) as [H0 [H1 H2]].
  unfold span. destruct (Z.eq_dec (ncells W osz) 0) as [-> | Hne]; [simpl; lia|].
  assert (ncells W osz <= r + GC_PAGE_SZ - osz - (r + ptr_size W) + 1) by nia.
  lia.
Qed.

Lemma malloc_valid W n r s a :
  r <> NULL -> r <= a -> a + ptr_size W <= r + n ->
  valid W (malloc n r s) a = true.
Proof.
  intros Hr H1 H2. apply valid_intro with (b := (r, n)); simpl; auto.
  destruct (Z.eqb_spec r NULL); [contradiction|]. now left.
Qed.

Lemma add_page_ok W r s :
  0 < r -> ptr_size W <= osize (pl s) ->
  add_page W r s = Ok tt (add_page_result W r s).
Proof.
  intros Hr Ho. pose proof (ptr_size_pos W) as Hw.
  assert (Hpos : 0 < osize (pl s)) by lia.
  unfold add_page, add_page_result, bind, p_malloc, p_osize. simpl pl.
  rewrite rd_ok by exact I. simpl peek.
  set (s1 := mkPst (malloc GC_PAGE_SZ r (st s)) (pl s)).
  assert (Hval : forall c, In c (page_cells W (osize (pl s)) r) ->
                           valid W (st s1) c = true).
  { intros c Hc. apply page_cells_in_page in Hc; auto.
    apply malloc_valid; unfold NULL; lia. }
  pose proof (ncells_bounds W (osize (pl s)) Hpos) as [Hn0 [Hn1 Hn2]].
  rewrite (add_page_loop_ok W (Z.to_nat (ncells W (osize (pl s))))); simpl pl;
    auto; try exact I; try (rewrite Z2Nat.id by lia; lia);
    try (apply span_enough; lia).
  fold (page_cells W (osize (pl s)) r).
  set (t := thread s1 LFreelist (page_cells W (osize (pl s)) r)).
  assert (Hok : forall l, In l (LFreelist :: LPages :: LMem r ::
                                 map LMem (page_cells W (osize (pl s)) r)) ->
                          loc_ok W (fst t) l).
  { intros l Hl. assert (Hb : blocks (st (fst t)) = blocks (st s1))
      by apply thread_blocks.
    destruct l; simpl; auto. unfold valid. rewrite Hb.
    destruct Hl as [Hl | [Hl | [Hl | Hl]]]; try discriminate.
    - inversion Hl; subst. apply malloc_valid; unfold NULL, GC_PAGE_SZ; try lia.
      destruct (ptr_size_cases W); lia.
    - apply in_map_iff in Hl. destruct Hl as [c [Hc Hin]]. inversion Hc; subst.
      apply Hval. exact Hin. }
  rewrite wr_ok.
  2:{ apply Hok. unfold t. rewrite thread_snd.
      pose proof (last_loc_in LFreelist (page_cells W (osize (pl s)) r)) as Hl.
      simpl in Hl |- *. tauto. }
  rewrite rd_ok by exact I. simpl peek.
  rewrite wr_ok.
  2:{ apply loc_ok_poke. apply Hok. simpl. tauto. }
  rewrite rd_ok.
  2:{ apply loc_ok_poke, loc_ok_poke. apply Hok. simpl. tauto. }
  rewrite wr_ok by exact I.
  reflexivity.
Qed.

Section AddPageResult.
Variable W : arch.
Variable r : Z.
Variable s : pst.
Hypothesis Hr : 0 < r.
Hypothesis Ho : ptr_size W <= osize (pl s).

Let cs := page_cells W (osize (pl s)) r.
Let s1 := mkPst (malloc GC_PAGE_SZ r (st s)) (pl s).
Let t := thread s1 LFreelist cs.
Let s3 := poke (fst t) (snd t) (freelist (pl s)).
Let s4 := poke s3 (LMem r) (pages (pl s3)).

Local Lemma apr_unfold :
  add_page_result W r s = poke s4 LPages (peek s4 (LMem r)).
Proof. reflexivity. Qed.

Local Lemma apr_osz_pos : 0 < osize (pl s).
Proof. pose proof (ptr_size_pos W). lia. Qed.

Local Lemma apr_not_in l :
  (forall a, l = LMem a -> a < r + ptr_size W \/ r + GC_PAGE_SZ <= a) ->
  l <> LFreelist ->
  ~ In l (LFreelist :: map LMem cs).
Proof.
  intros Hl Hf [H | H]; [congruence|].
  apply in_map_iff in H. destruct H as [c [<- Hc]].
  apply page_cells_in_page in Hc; [|apply apr_osz_pos].
  specialize (Hl c eq_refl). pose proof apr_osz_pos. lia.
Qed.

Local Lemma apr_snd_in : In (snd t) (LFreelist :: map LMem cs).
Proof. unfold t. rewrite thread_snd. apply last_loc_in. Qed.

Local Lemma apr_nodup : NoDup (LFreelist :: map LMem cs).
Proof.
  apply NoDup_loc; [discriminate|]. apply page_cells_NoDup, apr_osz_pos.
Qed.

Lemma add_page_result_pages :
  pages (pl (add_page_result W r s)) = pages (pl s).
Proof.
  rewrite apr_unfold. simpl. unfold s4. rewrite upd_same.
  unfold s3. rewrite poke_pages.
  - change (peek (fst t) LPages = peek s1 LPages).
    apply thread_peek_other. apply apr_not_in; congruence.
  - intros E. pose proof apr_snd_in as H. rewrite E in H.
    revert H. apply apr_not_in; congruence.
Qed.

Lemma add_page_result_link :
  mem (st (add_page_result W r s)) r = pages (pl s).
Proof.
  rewrite apr_unfold. simpl. unfold s4. simpl. rewrite upd_same.
  pose proof add_page_result_pages as H. rewrite apr_unfold in H.
  simpl in H. unfold s4 in H. simpl in H. rewrite upd_same in H. exact H.
Qed.

Lemma add_page_result_osize :
  osize (pl (add_page_result W r s)) = osize (pl s).
Proof.
  rewrite apr_unfold. unfold s4, s3. rewrite !poke_osize.
  unfold t. now rewrite thread_osize.
Qed.

Lemma add_page_result_blocks :
  blocks (st (add_page_result W r s)) = (r, GC_PAGE_SZ) :: blocks (st s).
Proof.
  rewrite apr_unfold. unfold s4, s3. rewrite !poke_blocks.
  unfold t. rewrite thread_blocks. simpl.
  destruct (Z.eqb_spec r NULL); [unfold NULL in *; lia | reflexivity].
Qed.

Lemma add_page_result_trace :
  trace (st (add_page_result W r s)) =
  trace (st s) ++ [EvMalloc GC_PAGE_SZ r].
Proof.
  rewrite apr_unfold. unfold s4, s3. rewrite !poke_trace.
  unfold t. now rewrite thread_trace.
Qed.

Lemma add_page_result_frame a :
  a < r \/ r + GC_PAGE_SZ <= a ->
  mem (st (add_page_result W r s)) a = mem (st s) a.
Proof.
  intros Ha. pose proof (ptr_size_pos W) as Hw.
  rewrite apr_unfold. rewrite poke_mem_other by discriminate.
  unfold s4. rewrite poke_mem_other by (intros E; inversion E; unfold GC_PAGE_SZ in *; lia).
  unfold s3. rewrite poke_mem_other.
  - change (peek (fst t) (LMem a) = peek s1 (LMem a)).
    apply thread_peek_other. apply apr_not_in; [|discriminate].
    intros a' E. inversion E; subst. lia.
  - intros E. pose proof apr_snd_in as H. rewrite E in H. revert H.
    apply apr_not_in; [|discriminate].
    intros a' E'. inversion E'; subst. lia.
Qed.

Lemma add_page_result_freelist :
  lseg (mem (st (add_page_result W r s)))
       (freelist (pl (add_page_result W r s))) cs (freelist (pl s)).
Proof.
  pose proof (ptr_size_pos W) as Hw.
  assert (Hseg : oseg s3 LFreelist cs (snd t)).
  { unfold s3. apply oseg_poke_end; [apply apr_nodup|].
    unfold t at 2. rewrite thread_snd. apply thread_oseg, apr_nodup. }
  assert (Hpk : peek s3 (snd t) = freelist (pl s))
    by (unfold s3; apply peek_poke_same).
  assert (Hr' : ~ In (LMem r) (LFreelist :: map LMem cs)).
  { apply apr_not_in; [|discriminate]. intros a E. inversion E; subst. lia. }
  assert (Hp' : ~ In LPages (LFreelist :: map LMem cs)).
  { apply apr_not_in; [|discriminate]. intros a E. discriminate. }
  rewrite apr_unfold.
  change (freelist (pl (poke s4 LPages (peek s4 (LMem r)))))
    with (peek (poke s4 LPages (peek s4 (LMem r))) LFreelist).
  apply oseg_lseg with (e := snd t).
  - apply oseg_poke_other; [exact Hp'|].
    unfold s4. apply oseg_poke_other; [exact Hr'|]. exact Hseg.
  - rewrite peek_poke_other.
    + unfold s4. rewrite peek_poke_other; [exact Hpk|].
      intros E. apply Hr'. rewrite <- E. apply apr_snd_in.
    + intros E. apply Hp'. rewrite <- E. apply apr_snd_in.
Qed.

End AddPageResult.

(** ** [pool_alloc] *)

Lemma allocated_valid W s a n :
  allocated s a n -> ptr_size W <= n -> valid W s a = true.
Proof.
  intros [b [Hin [H1 H2]]] Hn. apply valid_intro with (b := b); auto. lia.
Qed.

Lemma page_cells_first W osz pg :
  0 < osz -> osz <= GC_PAGE_SZ - ptr_size W ->
  exists t, page_cells W osz pg = (pg + ptr_size W) :: t.
Proof.
  intros Ho Hle. unfold page_cells.
  assert (1 <= ncells W osz).
  { unfold ncells. apply Z.div_le_lower_bound; lia. }
  destruct (Z.to_nat (ncells W osz)) eqn:E; [lia|].
  simpl. eauto.
Qed.

(** After the optional [add_page], the head of the free list is a cell
    in a live block. *)
Lemma pool_alloc_from_head W s :
  ptr_size W <= osize (pl s) ->
  0 < freelist (pl s) ->
  allocated (st s) (freelist (pl s)) (osize (pl s)) ->
  let v := freelist (pl s) in
  let s' := poke (poke s LFreelist (mem (st s) v)) (LMem v) 0 in
  (fl <- rd W LFreelist ;;
   (if fl =? NULL then abort else ret tt) ;;
   v <- rd W LFreelist ;;
   nxt <- rd W (LMem v) ;;
   wr W LFreelist nxt ;;
   wr W (LMem v) 0 ;;
   ret (v + ptr_size W)) s = Ok (v + ptr_size W) s'.
Proof.
  intros Ho Hpos Hal v s'. unfold bind.
  rewrite rd_ok by exact I. cbn [peek]. fold v.
  destruct (Z.eqb_spec v NULL) as [E | _]; [unfold NULL in E; lia|].
  unfold ret at 1. rewrite rd_ok by exact I. cbn [peek]. fold v.
  assert (Hv : valid W (st s) v = true) by (eapply allocated_valid; eauto).
  rewrite rd_ok by exact Hv. cbn [peek].
  rewrite wr_ok by exact I.
  rewrite wr_ok by (apply loc_ok_poke; exact Hv).
  reflexivity.
Qed.

Lemma pool_alloc_ok W r s :
  ptr_size W <= osize (pl s) <= GC_PAGE_SZ - ptr_size W ->
  (freelist (pl s) = NULL -> 0 < r) ->
  (freelist (pl s) <> NULL ->
   0 < freelist (pl s) /\ allocated (st s) (freelist (pl s)) (osize (pl s))) ->
  exists p s',
    pool_alloc W r s = Ok p s' /\
    0 < p - ptr_size W /\
    mem (st s') (p - ptr_size W) = 0 /\
    allocated (st s') (p - ptr_size W) (osize (pl s)) /\
    osize (pl s') = osize (pl s) /\
    pages (pl s') = pages (pl s).
Proof.
  intros Ho Hnull Hfl. pose proof (ptr_size_pos W) as Hw.
  unfold pool_alloc. unfold bind at 1. rewrite rd_ok by exact I. cbn [peek].
  destruct (Z.eqb_spec (freelist (pl s)) NULL) as [E | E].
  - (* the free list is empty: a page is added first *)
    specialize (Hnull E).
    unfold bind at 1. rewrite add_page_ok by lia.
    set (s2 := add_page_result W r s).
    assert (Hosz : osize (pl s2) = osize (pl s))
      by (apply add_page_result_osize; lia).
    destruct (page_cells_first W (osize (pl s)) r) as [t Ht]; try lia.
    assert (Hhead : freelist (pl s2) = r + ptr_size W).
    { pose proof (add_page_result_freelist W r s Hnull (proj1 Ho)) as H.
      rewrite Ht in H. simpl in H. tauto. }
    assert (Hal : allocated (st s2) (freelist (pl s2)) (osize (pl s2))).
    { exists (r, GC_PAGE_SZ). unfold s2 at 1.
      rewrite add_page_result_blocks by lia. rewrite Hhead, Hosz. simpl.
      split; [now left | lia]. }
    rewrite (pool_alloc_from_head W s2) by first [exact Hal | rewrite ?Hosz, ?Hhead; lia].
    eexists _, _. split; [reflexivity|].
    replace (freelist (pl s2) + ptr_size W - ptr_size W)
      with (freelist (pl s2)) by lia.
    split; [lia|]. split; [|split; [|split]].
    + simpl. apply upd_same.
    + destruct Hal as [b Hb]. exists b. simpl.
      rewrite Hosz in Hb. exact Hb.
    + simpl. exact Hosz.
    + simpl. apply add_page_result_pages; lia.
  - destruct (Hfl E) as [Hpos Hal].
    unfold bind at 1. unfold ret at 1.
    rewrite (pool_alloc_from_head W s) by (auto; lia).
    eexists _, _. split; [reflexivity|].
    replace (freelist (pl s) + ptr_size W - ptr_size W) with (freelist (pl s)) by lia.
    split; [lia|]. split; [|split; [|split]].
    + simpl. apply upd_same.
    + destruct Hal as [b Hb]. exists b. simpl. exact Hb.
    + reflexivity.
    + reflexivity.
Qed.

(** ** Reasoning about every outcome of a computation *)

Lemma post_ret {S A} (a : A) (s : S) (Q : S -> Prop) : Q s -> post (ret a) s Q.
Proof. intros H. exact H. Qed.

Lemma post_bind {S A B} (m : M S A) (k : A -> M S B) s (Q1 Q2 : S -> Prop) :
  post m s Q1 ->
  (forall s', Q1 s' -> Q2 s') ->
  (forall a s', Q1 s' -> post (k a) s' Q2) ->
  post (bind m k) s Q2.
Proof.
  unfold post, bind. intros H1 H2 H3.
  destruct (m s) as [a s' | s' | s' |]; auto.
  apply (H3 a s' H1).
Qed.

Lemma post_weaken {S A} (m : M S A) s (Q1 Q2 : S -> Prop) :
  post m s Q1 -> (forall s', Q1 s' -> Q2 s') -> post m s Q2.
Proof.
  unfold post. intros H1 H2. destruct (m s); auto.
Qed.

Lemma post_lift {S T A} (prj : T -> S) (inj : S -> T -> T) (m : M S A) t
      (Q : T -> Prop) :
  (forall s, Q (inj s t)) -> post (lift prj inj m) t Q.
Proof.
  unfold post, lift. intros H. destruct (m (prj t)); auto.
Qed.

Lemma keeps_ret {S A X} (f : S -> X) (a : A) : keeps f (ret a).
Proof. intros s. reflexivity. Qed.

Lemma keeps_bind {S A B X} (f : S -> X) (m : M S A) (k : A -> M S B) :
  keeps f m -> (forall a, keeps f (k a)) -> keeps f (bind m k).
Proof.
  intros Hm Hk s. apply post_bind with (Q1 := fun s' => f s' = f s); auto.
  intros a s' E. eapply post_weaken; [apply Hk|].
  simpl. intros s'' E'. congruence.
Qed.

Lemma keeps_out_of_fuel {S A X} (f : S -> X) : keeps f (@out_of_fuel S A).
Proof. intros s. exact I. Qed.

Lemma keeps_abort {S A X} (f : S -> X) : keeps f (@abort S A).
Proof. intros s. reflexivity. Qed.

Lemma keeps_if {S A X} (f : S -> X) (b : bool) (m1 m2 : M S A) :
  keeps f m1 -> keeps f m2 -> keeps f (if b then m1 else m2).
Proof. destruct b; auto. Qed.

Section Counters.
(** Observations that only look at the counters of the collector. *)
Variable X : Type.
Variable f : gc_state -> X.
Hypothesis f_counters :
  forall h b p a c n h' b' p',
    f (mkGc h b p a c n) = f (mkGc h' b' p' a c n).

Lemma f_eta g h b p :
  f (mkGc h b p (allocd_bytes g) (collect_interval g) (collections g)) = f g.
Proof. destruct g. simpl. apply f_counters. Qed.

Lemma keeps_on_heap A (m : M store A) : keeps f (on_heap m).
Proof. intros g. apply post_lift. intros s. apply f_eta. Qed.

Lemma keeps_on_pool A i (m : M pst A) : keeps f (on_pool i m).
Proof. intros g. apply post_lift. intros s. apply f_eta. Qed.

Lemma keeps_set_big_objects v : keeps f (set_big_objects v).
Proof. intros g. unfold post, set_big_objects. apply f_eta. Qed.

Lemma keeps_alloc_big W r sz : keeps f (alloc_big W r sz).
Proof.
  unfold alloc_big.
  repeat (apply keeps_bind; [|intros ?]);
    auto using keeps_on_heap, keeps_set_big_objects, keeps_ret.
  intros g. reflexivity.
Qed.

Lemma keeps_write_bloc W pv w : keeps f (write_bloc W pv w).
Proof.
  destruct pv; simpl; auto using keeps_on_heap, keeps_set_big_objects.
Qed.

Lemma keeps_sweep_big_loop W fuel : forall v pv, keeps f (sweep_big_loop W fuel v pv).
Proof.
  induction fuel as [|n IH]; intros v pv; simpl.
  - apply keeps_out_of_fuel.
  - apply keeps_if; [apply keeps_ret|].
    apply keeps_bind; [apply keeps_on_heap|intros nxt].
    apply keeps_bind; [apply keeps_on_heap|intros fl].
    apply keeps_if.
    + apply keeps_bind; [apply keeps_on_heap|intros _]. apply IH.
    + apply keeps_bind; [apply keeps_write_bloc|intros _].
      apply keeps_bind; [apply keeps_on_heap|intros _]. apply IH.
Qed.

Lemma keeps_sweep_pools W fuel idx : keeps f (sweep_pools W fuel idx).
Proof.
  induction idx as [|i idx IH]; simpl.
  - apply keeps_ret.
  - apply keeps_bind; [apply keeps_on_pool|intros _; apply IH].
Qed.

Lemma keeps_gc_sweep W fuel : keeps f (gc_sweep W fuel).
Proof.
  unfold gc_sweep, sweep_big.
  apply keeps_bind; [|intros _; apply keeps_sweep_pools].
  apply keeps_bind; [intros g; reflexivity|intros v].
  apply keeps_sweep_big_loop.
Qed.

End Counters.

(** ** [gc_collect] and the counters *)

Lemma collections_counters :
  forall h b p a c n h' b' p',
    collections (mkGc h b p a c n) = collections (mkGc h' b' p' a c n).
Proof. reflexivity. Qed.

Lemma counters_counters :
  forall h b p a c n h' b' p',
    counters (mkGc h b p a c n) = counters (mkGc h' b' p' a c n).
Proof. reflexivity. Qed.

Lemma gc_collect_post W R fuel g :
  post (gc_collect W R fuel) g
       (fun g' => collections g' = S (collections g)).
Proof.
  unfold gc_collect.
  apply post_bind with (Q1 := fun g' => collections g' = S (collections g));
    [reflexivity | auto | intros _ g1 E1].
  apply post_bind with (Q1 := fun g' => collections g' = S (collections g));
    [ | auto | intros _ g2 E2].
  { eapply post_weaken; [apply (keeps_on_heap _ collections collections_counters)|].
    simpl. congruence. }
  apply post_bind with (Q1 := fun g' => collections g' = S (collections g));
    [ | auto | intros _ g3 E3].
  { eapply post_weaken; [apply (keeps_gc_sweep _ collections collections_counters)|].
    simpl. congruence. }
  exact E3.
Qed.

Lemma gc_collect_allocd W R fuel g u g' :
  gc_collect W R fuel g = Ok u g' -> allocd_bytes g' = 0.
Proof.
  unfold gc_collect, bind.
  destruct (count_collection g) as [? g1| | |]; try discriminate.
  destruct (on_heap (gc_mark W R fuel) g1) as [? g2| | |]; try discriminate.
  destruct (gc_sweep W fuel g2) as [? g3| | |]; try discriminate.
  unfold set_allocd_bytes. intros E. inversion E. reflexivity.
Qed.

Lemma alloc_tail_keeps W r sz :
  keeps counters
        (if 2048 <? sz then alloc_big W r sz
         else on_pool (Z.to_nat (szclass sz)) (pool_alloc W r)).
Proof.
  apply keeps_if.
  - apply keeps_alloc_big, counters_counters.
  - apply keeps_on_pool, counters_counters.
Qed.

Lemma wrap_small W z : 0 <= z < word_mod W -> wrap W z = z.
Proof. intros H. unfold wrap. now apply Z.mod_small. Qed.

Lemma allocb_after_trigger W R fuel r sz g g1 :
  maybe_collect W R fuel g = Ok tt g1 ->
  allocb W R fuel r sz g =
  (if 2048 <? sz then alloc_big W r sz
   else on_pool (Z.to_nat (szclass sz)) (pool_alloc W r))
    (mkGc (heap g1) (big_objects g1) (pools g1)
          (wrap W (allocd_bytes g1 + sz)) (collect_interval g1)
          (collections g1)).
Proof.
  intros E. unfold allocb. unfold bind at 1. rewrite E.
  reflexivity.
Qed.

(** ** [alloc_big] *)

Lemma alloc_big_ok W r sz g :
  0 < r -> 0 <= sz -> sz + 2 * ptr_size W < word_mod W ->
  alloc_big W r sz g =
  Ok (r + 2 * ptr_size W)
     (mkGc (mkStore (upd (upd (mem (heap g)) r (big_objects g))
                         (r + ptr_size W) 0)
                    ((r, sz + 2 * ptr_size W) :: blocks (heap g))
                    (trace (heap g) ++ [EvMalloc (sz + 2 * ptr_size W) r])
                    (visited (heap g)))
           r (pools g) (allocd_bytes g) (collect_interval g) (collections g)).
Proof.
  intros Hr Hsz Hov. pose proof (ptr_size_pos W) as Hw.
  unfold alloc_big, bind, on_heap, lift, s_malloc, s_store, store_word.
  rewrite wrap_small by lia.
  cbn [heap big_objects pools allocd_bytes collect_interval collections].
  rewrite malloc_valid by (unfold NULL; lia).
  cbn [heap big_objects pools allocd_bytes collect_interval collections
       mem blocks trace visited malloc set_big_objects ret].
  replace (valid W _ (r + ptr_size W)) with true.
  - unfold malloc. cbn [mem blocks trace visited].
    destruct (Z.eqb_spec r NULL) as [E|E]; [unfold NULL in E; lia|].
    reflexivity.
  - symmetry. apply valid_intro with (b := (r, sz + 2 * ptr_size W)).
    + cbn [blocks malloc].
      destruct (Z.eqb_spec r NULL) as [E|E]; [unfold NULL in E; lia|].
      now left.
    + cbn [fst snd]; lia.
    + cbn [fst snd]; lia.
Qed.

Lemma alloc_big_null W sz g :
  valid W (heap g) NULL = false ->
  exists g',
    alloc_big W NULL sz g = Fault g' /\
    big_objects g' = big_objects g /\ pools g' = pools g /\
    blocks (heap g') = blocks (heap g) /\ mem (heap g') = mem (heap g).
Proof.
  intros Hv.
  unfold alloc_big, bind, on_heap, lift, s_malloc, s_store, store_word. simpl.
  unfold valid in *. simpl. rewrite Hv.
  eexists. split; [reflexivity|]. simpl. auto.
Qed.

(** ** [add_page] when [malloc] fails *)

Lemma add_page_null W s :
  1 <= osize (pl s) ->
  valid W (st s) NULL = false ->
  valid W (st s) (ptr_size W) = false ->
  exists s',
    add_page W NULL s = Fault s' /\
    pages (pl s') = pages (pl s) /\
    blocks (st s') = blocks (st s) /\
    freelist (pl s') =
    if ptr_size W + osize (pl s) <=? GC_PAGE_SZ
    then ptr_size W else freelist (pl s).
Proof.
  intros Ho Hv0 Hv1. pose proof (ptr_size_pos W) as Hw.
  unfold add_page, bind at 1, p_malloc.
  set (s1 := mkPst (malloc GC_PAGE_SZ NULL (st s)) (pl s)).
  assert (Hb : blocks (st s1) = blocks (st s)) by reflexivity.
  assert (Hv0' : valid W (st s1) NULL = false) by exact Hv0.
  assert (Hv1' : valid W (st s1) (ptr_size W) = false) by exact Hv1.
  unfold bind at 1, p_osize. simpl pl.
  unfold bind at 1. rewrite rd_ok by exact I. cbn [peek]. simpl pl.
  change (NULL + ptr_size W) with (ptr_size W).
  change (NULL + GC_PAGE_SZ - osize (pl s)) with (GC_PAGE_SZ - osize (pl s)).
  unfold bind at 1.
  destruct (Z.leb_spec (ptr_size W + osize (pl s)) GC_PAGE_SZ) as [Hfit | Hfit].
  - (* at least one cell fits *)
    unfold span.
    destruct (Z.to_nat (GC_PAGE_SZ - osize (pl s) - ptr_size W + 1)) as [|k] eqn:Ek;
      [lia|].
    cbn [add_page_loop].
    destruct (Z.leb_spec (ptr_size W) (GC_PAGE_SZ - osize (pl s))); [|lia].
    unfold bind at 1. rewrite wr_ok by exact I.
    set (s2 := poke s1 LFreelist (ptr_size W)).
    assert (Hf : wr W (LMem (ptr_size W)) = fun w (x : pst) =>
                 wr W (LMem (ptr_size W)) w x) by reflexivity.
    assert (Hfault : forall w, wr W (LMem (ptr_size W)) w s2 = Fault s2).
    { intros w. apply wr_fault. exact Hv1'. }
    unfold bind at 1, p_osize.
    destruct (Z.leb_spec (ptr_size W + osize (pl s2))
                         (GC_PAGE_SZ - osize (pl s))).
    + unfold bind at 1. rewrite Hfault.
      exists s2. repeat split; reflexivity.
    + unfold ret at 1. unfold bind at 1. rewrite Hfault.
      exists s2. repeat split; reflexivity.
  - unfold span.
    cbn [add_page_loop].
    destruct (Z.leb_spec (ptr_size W) (GC_PAGE_SZ - osize (pl s))); [lia|].
    unfold ret at 1. unfold bind at 1. rewrite wr_ok by exact I.
    set (s2 := poke s1 LFreelist (freelist (pl s))).
    unfold bind at 1. rewrite rd_ok by exact I. unfold bind at 1.
    rewrite wr_fault by exact Hv0'.
    exists s2. repeat split; reflexivity.
Qed.

Lemma maybe_collect_unfold W R fuel g :
  maybe_collect W R fuel g =
  if collect_interval g <? allocd_bytes g then gc_collect W R fuel g
  else Ok tt g.
Proof.
  unfold maybe_collect, bind, get.
  destruct (collect_interval g <? allocd_bytes g); reflexivity.
Qed.

Lemma maybe_collect_post W R fuel g :
  post (maybe_collect W R fuel) g
       (fun g' => collections g' =
                  if collect_interval g <? allocd_bytes g
                  then S (collections g) else collections g).
Proof.
  unfold post. rewrite maybe_collect_unfold.
  destruct (collect_interval g <? allocd_bytes g).
  - pose proof (gc_collect_post W R fuel g) as H. unfold post in H.
    destruct (gc_collect W R fuel g); auto.
  - reflexivity.
Qed.

Lemma allocb_rest_keeps_collections W r sz :
  keeps collections
        (g <- get ;;
         set_allocd_bytes (wrap W (allocd_bytes g + sz)) ;;
         if 2048 <? sz then alloc_big W r sz
         else on_pool (Z.to_nat (szclass sz)) (pool_alloc W r)).
Proof.
  apply keeps_bind; [intros g; reflexivity|intros g].
  apply keeps_bind; [intros g'; reflexivity|intros _].
  apply keeps_if.
  - apply keeps_alloc_big, collections_counters.
  - apply keeps_on_pool, collections_counters.
Qed.

(** C3: [allocb] starts at most one collection, and exactly when
    [allocd_bytes] exceeds [collect_interval] on entry; the request is
    accounted after the test, so a returning call leaves [sz] in
    [allocd_bytes] when a collection ran and the old value plus [sz]
    (in [size_t] arithmetic) otherwise. *)
Theorem allocb_trigger_policy :
  forall W R fuel r sz g,
    0 <= sz < word_mod W ->
    let triggered := collect_interval g <? allocd_bytes g in
    post (allocb W R fuel r sz) g
         (fun g' => collections g' =
                    if triggered then S (collections g) else collections g) /\
    (forall p g',
        allocb W R fuel r sz g = Ok p g' ->
        allocd_bytes g' =
        (if triggered then sz else wrap W (allocd_bytes g + sz)) /\
        (0 <= allocd_bytes g -> allocd_bytes g + sz < word_mod W ->
         allocd_bytes g' = if triggered then sz else allocd_bytes g + sz)).
Proof.
  intros W R fuel r sz g Hsz triggered. split.
  - unfold allocb.
    eapply post_bind; [apply maybe_collect_post | auto | ].
    intros _ g1 E1.
    eapply post_weaken; [apply allocb_rest_keeps_collections|].
    simpl. intros g2 E2. subst triggered. congruence.
  - intros p g' E.
    assert (Hmain : allocd_bytes g' =
                    if triggered then sz else wrap W (allocd_bytes g + sz)).
    { destruct (maybe_collect W R fuel g) as [[] g1 | | |] eqn:Em;
        try (unfold allocb, bind in E; rewrite Em in E; discriminate).
      rewrite (allocb_after_trigger _ _ _ _ _ _ _ Em) in E.
      pose proof (alloc_tail_keeps W r sz
                    (mkGc (heap g1) (big_objects g1) (pools g1)
                          (wrap W (allocd_bytes g1 + sz)) (collect_interval g1)
                          (collections g1))) as Hk.
      unfold post in Hk. rewrite E in Hk. unfold counters in Hk. simpl in Hk.
      inversion Hk as [[Ha Hc]]. rewrite Ha.
      rewrite maybe_collect_unfold in Em. subst triggered.
      destruct (collect_interval g <? allocd_bytes g).
      - apply gc_collect_allocd in Em. rewrite Em. simpl.
        now apply wrap_small.
      - inversion Em. reflexivity. }
    split; [exact Hmain|].
    intros H0 H1. rewrite Hmain. destruct triggered; auto.
    apply wrap_small. lia.
Qed.

Lemma szclass_size_bounds k : 0 <= k <= 15 -> 8 <= szclass_size k <= 2048.
Proof.
  intros Hk.
  assert (Hc : k = 0 \/ k = 1 \/ k = 2 \/ k = 3 \/ k = 4 \/ k = 5 \/ k = 6 \/
               k = 7 \/ k = 8 \/ k = 9 \/ k = 10 \/ k = 11 \/ k = 12 \/
               k = 13 \/ k = 14 \/ k = 15) by lia.
  repeat (destruct Hc as [-> | Hc]); try subst k; vm_compute; split; discriminate.
Qed.

(** C8, as the code has it: when the collection the trigger may start
    has returned and the pool table is well formed, a request of [sz]
    bytes whose block size [sz + 2 * sizeof(void * )] does not wrap
    around returns a non-null payload pointer whose header word is
    zero and whose payload lies in a live block: a cell of the size
    class of [sz] on the pool path, a block of exactly the requested
    size on the big-object path. *)
Theorem allocb_returns_zeroed_payload :
  forall W R fuel r sz g g1,
    maybe_collect W R fuel g = Ok tt g1 ->
    pools_ok W g1 ->
    0 < r ->
    1 <= sz ->
    sz + 2 * ptr_size W < word_mod W ->
    exists p g',
      allocb W R fuel r sz g = Ok p g' /\
      p <> NULL /\
      mem (heap g') (p - ptr_size W) = 0 /\
      sz <= payload_size sz /\
      if 2048 <? sz
      then In (p - 2 * ptr_size W, sz + 2 * ptr_size W) (blocks (heap g'))
      else allocated (heap g') (p - ptr_size W) (ptr_size W + payload_size sz).
Proof.
  intros W R fuel r sz g g1 Hmc Hpools Hr Hsz Hov.
  pose proof (ptr_size_pos W) as Hw.
  rewrite (allocb_after_trigger _ _ _ _ _ _ _ Hmc).
  unfold payload_size.
  destruct (Z.ltb_spec 2048 sz) as [Hbig | Hsmall].
  - rewrite alloc_big_ok by (cbn [heap]; lia).
    eexists _, _. split; [reflexivity|].
    cbn [heap mem blocks big_objects].
    split; [unfold NULL; lia|]. split; [|split; [lia|]].
    + replace (r + 2 * ptr_size W - ptr_size W) with (r + ptr_size W) by lia.
      apply upd_same.
    + left. f_equal. lia.
  - pose proof (szclass_range sz) as Hk.
    destruct (Hpools (szclass sz)) as [Hosz Hfl]; [unfold N_POOLS; lia|].
    pose proof (szclass_size_bounds _ Hk) as Hb.
    set (p0 := nth (Z.to_nat (szclass sz)) (pools g1) null_pool) in *.
    destruct (pool_alloc_ok W r (mkPst (heap g1) p0))
      as [p [s' [Hpa [Hp0 [Hz [Hal [Ho' _]]]]]]].
    + cbn [pl st]. rewrite Hosz. unfold GC_PAGE_SZ.
      destruct (ptr_size_cases W) as [E|E]; rewrite E; lia.
    + intros _. exact Hr.
    + cbn [pl st]. intros Hne. destruct Hfl as [E | Hfl]; [contradiction|].
      exact Hfl.
    + unfold on_pool, lift.
      cbn [heap pools big_objects allocd_bytes collect_interval collections].
      fold p0. rewrite Hpa.
      eexists _, _. split; [reflexivity|]. cbn [heap].
      split; [unfold NULL; lia|]. split; [exact Hz|].
      split; [apply szclass_fits; lia|].
      cbn [pl st] in Hal. rewrite Hosz in Hal.
      replace (ptr_size W + szclass_size (szclass sz))
        with (szclass_size (szclass sz) + ptr_size W) by lia.
      exact Hal.
Qed.

(** C6, as the code has it: neither [add_page] nor [alloc_big] tests
    what [malloc] returned.  With a null answer they store through the
    null pointer, which is a fault and not an [abort]; [alloc_big]
    faults before it changes [big_objects] or a pool, [add_page] has
    by then overwritten [p->freelist] with the address
    [sizeof(void * )] whenever a page holds at least one cell, and has
    left [p->pages] alone.  The cells are no larger than a page, so
    that the end pointer [pg + GC_PAGE_SZ - osize] of the code, with
    [pg] null, does not wrap around. *)
Theorem malloc_failure_faults :
  forall W s g sz,
    1 <= osize (pl s) <= GC_PAGE_SZ ->
    valid W (st s) NULL = false ->
    valid W (st s) (ptr_size W) = false ->
    valid W (heap g) NULL = false ->
    (exists s',
        add_page W NULL s = Fault s' /\
        pages (pl s') = pages (pl s) /\
        blocks (st s') = blocks (st s) /\
        freelist (pl s') =
        if ptr_size W + osize (pl s) <=? GC_PAGE_SZ
        then ptr_size W else freelist (pl s)) /\
    (exists g',
        alloc_big W NULL sz g = Fault g' /\
        big_objects g' = big_objects g /\ pools g' = pools g /\
        blocks (heap g') = blocks (heap g)).
Proof.
  intros W s g sz [Ho Hmax] H0 H1 Hg. split.
  - apply add_page_null; assumption.
  - destruct (alloc_big_null W sz g Hg) as [g' [E [Hb [Hp [Hbl _]]]]].
    exists g'. auto.
Qed.

(** ** Lists without repetition *)

Lemma NoDup_app_iff (X Y : list Z) :
  NoDup (X ++ Y) <-> NoDup X /\ NoDup Y /\ disj X Y.
Proof.
  unfold disj. induction X as [|x X IH]; simpl.
  - split; [intros H; repeat split; auto; constructor | tauto].
  - split.
    + intros H. inversion H as [|? ? Hn Hd]; subst.
      apply IH in Hd. destruct Hd as [H1 [H2 H3]].
      rewrite in_app_iff in Hn.
      repeat split; auto.
      * constructor; tauto.
      * intros y [-> | Hy] Hy'; [tauto | eauto].
    + intros [H1 [H2 H3]]. inversion H1 as [|? ? Hn Hd]; subst.
      constructor.
      * rewrite in_app_iff. intros [H | H]; [tauto | eapply H3; eauto].
      * apply IH. repeat split; auto. intros y Hy Hy'. eapply H3; eauto.
Qed.

Lemma NoDup4 (A B C D : list Z) :
  NoDup (A ++ B ++ C ++ D) <->
  NoDup A /\ NoDup B /\ NoDup C /\ NoDup D /\
  disj A B /\ disj A C /\ disj A D /\ disj B C /\ disj B D /\ disj C D.
Proof.
  rewrite !NoDup_app_iff. unfold disj.
  split.
  - intros [HA [[HB [[HC [HD HCD]] HBCD]] HABCD]].
    repeat split; auto; intros x H1 H2;
      first [ apply (HCD x H1 H2)
            | apply (HBCD x H1); rewrite !in_app_iff; tauto
            | apply (HABCD x H1); rewrite !in_app_iff; tauto ].
  - intros [HA [HB [HC [HD [AB [AC [AD [BC [BD CD]]]]]]]]].
    repeat split; auto; intros x H1 H2; rewrite ?in_app_iff in H2;
      repeat match goal with H : _ \/ _ |- _ => destruct H end; eauto.
Qed.

Lemma NoDup_snoc (X : list Z) v : NoDup X -> ~ In v X -> NoDup (X ++ [v]).
Proof.
  intros H1 H2. apply NoDup_app_iff. repeat split; auto.
  - constructor; [simpl; tauto | constructor].
  - intros x Hx [<- | []]. tauto.
Qed.

Lemma in_locs_inv x l X :
  In x (l :: map LMem X) -> x = l \/ exists a, x = LMem a /\ In a X.
Proof.
  intros [H | H]; [now left|]. right.
  apply in_map_iff in H. destruct H as [a [Ha Hin]]. eauto.
Qed.

Lemma not_in_locs x l X :
  x <> l -> (forall a, x = LMem a -> ~ In a X) -> ~ In x (l :: map LMem X).
Proof.
  intros H1 H2 H. apply in_locs_inv in H. destruct H as [H | [a [Ha Hin]]].
  - congruence.
  - eapply H2; eauto.
Qed.

(** Two cursors that belong to different segments differ. *)
Lemma locs_apart x l X l' Y :
  In x (l :: map LMem X) -> (forall a, l <> LMem a) ->
  (forall a, l' <> LMem a) -> l <> l' ->
  disj X Y -> ~ In x (l' :: map LMem Y).
Proof.
  intros Hx Hl Hl' Hne Hd. apply in_locs_inv in Hx.
  destruct Hx as [-> | [a [-> Ha]]].
  - apply not_in_locs; auto. intros a E. exfalso. eapply Hl; eauto.
  - apply not_in_locs.
    + intros E. eapply Hl'. symmetry. exact E.
    + intros b E Hb. inversion E; subst. eapply Hd; eauto.
Qed.

Lemma cursor_ok W s l X x :
  In x (l :: map LMem X) -> (forall a, l <> LMem a) ->
  (forall a, In a X -> valid W (st s) a = true) -> loc_ok W s x.
Proof.
  intros Hx Hl Hv. apply in_locs_inv in Hx.
  destruct Hx as [-> | [a [-> Ha]]].
  - destruct l; simpl; auto. exfalso. eapply Hl; eauto.
  - simpl. auto.
Qed.

(** ** One cell of [sweep_pool] *)

Ltac in_lists :=
  unfold disj in *; intros; rewrite ?in_app_iff in *; simpl in *;
  intuition (subst; eauto 6 using in_or_app).

Section SweepStep.
Variable W : arch.
Variable osz : Z.
Variable m0 : Z -> Z.

Lemma freelist_not_mem : forall a, LFreelist <> LMem a.
Proof. discriminate. Qed.

Lemma pages_not_mem : forall a, LPages <> LMem a.
Proof. discriminate. Qed.

Lemma sinv_pfl_ok s FL L Surv Todo pfl ppg cur :
  sinv W osz m0 s FL L Surv Todo pfl ppg cur -> loc_ok W s pfl.
Proof.
  intros H. eapply cursor_ok.
  - eapply oseg_in, (si_fl _ _ _ _ _ _ _ _ _ _ _ H).
  - apply freelist_not_mem.
  - intros a Ha. apply (si_valid _ _ _ _ _ _ _ _ _ _ _ H).
    rewrite in_app_iff. now left.
Qed.

Lemma sinv_ppg_ok s FL L Surv Todo pfl ppg cur :
  sinv W osz m0 s FL L Surv Todo pfl ppg cur -> loc_ok W s ppg.
Proof.
  intros H. eapply cursor_ok.
  - eapply oseg_in, (si_pg _ _ _ _ _ _ _ _ _ _ _ H).
  - apply pages_not_mem.
  - intros a Ha. apply (si_valid _ _ _ _ _ _ _ _ _ _ _ H).
    rewrite !in_app_iff. tauto.
Qed.

(** The cell [v] goes to the free list. *)
Lemma sinv_kept s FL L Surv v T pfl ppg cur :
  sinv W osz m0 s FL L Surv (v :: T) pfl ppg cur ->
  sinv W osz m0 (poke s pfl v) (FL ++ [v]) L Surv T (LMem v) ppg cur.
Proof.
  intros [Ho Hn Hfl Hpg Hcur Htodo Hlive Hval].
  pose proof (oseg_in _ _ _ _ Hfl) as Hpfl.
  pose proof (oseg_in _ _ _ _ Hpg) as Hppg.
  apply NoDup4 in Hn.
  destruct Hn as [nFL [nL [nS [nT [dFL_L [dFL_S [dFL_T [dL_S [dL_T dS_T]]]]]]]]].
  apply NoDup_cons_iff in nT. destruct nT as [HvT nT'].
  assert (Hpfl_S : ~ In pfl (LPages :: map LMem Surv)).
  { eapply locs_apart; eauto using freelist_not_mem, pages_not_mem.
    discriminate. }
  assert (Hpfl_mem : forall a, In a L \/ In a T -> pfl <> LMem a).
  { intros a Ha E. subst pfl. apply in_locs_inv in Hpfl.
    destruct Hpfl as [Hp | [b [Hb Hin]]]; [discriminate|].
    inversion Hb; subst. destruct Ha; [eapply dFL_L | eapply dFL_T]; eauto.
    now right. }
  constructor.
  - now rewrite poke_osize.
  - apply NoDup4. repeat split; auto.
    + apply NoDup_snoc; auto. intros Hin. eapply dFL_T; eauto. now left.
    + in_lists.
    + in_lists.
    + in_lists.
    + in_lists.
    + in_lists.
  - apply oseg_snoc; auto. apply NoDup_loc; auto using freelist_not_mem.
  - apply oseg_poke_other; auto.
  - rewrite peek_poke_other; auto. intros ->. contradiction.
  - intros a Ha. rewrite poke_mem_other; [apply Htodo; now right|].
    apply Hpfl_mem. now right.
  - intros c Hc. rewrite poke_mem_other; [now apply Hlive|].
    apply Hpfl_mem. now left.
  - intros a Ha. rewrite valid_poke. apply Hval.
    revert Ha. rewrite !in_app_iff. simpl. tauto.
Qed.

(** The cell [v] is live and marked: its mark is cleared. *)
Lemma sinv_live s FL L Surv v T pfl ppg cur :
  sinv W osz m0 s FL L Surv (v :: T) pfl ppg cur ->
  sinv W osz m0 (poke s (LMem v) (clear_marked (m0 v)))
       FL (L ++ [v]) Surv T pfl ppg cur.
Proof.
  intros [Ho Hn Hfl Hpg Hcur Htodo Hlive Hval].
  pose proof (oseg_in _ _ _ _ Hpg) as Hppg.
  apply NoDup4 in Hn.
  destruct Hn as [nFL [nL [nS [nT [dFL_L [dFL_S [dFL_T [dL_S [dL_T dS_T]]]]]]]]].
  apply NoDup_cons_iff in nT. destruct nT as [HvT nT'].
  assert (HvFL : ~ In (LMem v) (LFreelist :: map LMem FL)).
  { apply not_in_locs; [discriminate|]. intros a E Ha. inversion E; subst.
    eapply dFL_T; eauto. now left. }
  assert (HvS : ~ In (LMem v) (LPages :: map LMem Surv)).
  { apply not_in_locs; [discriminate|]. intros a E Ha. inversion E; subst.
    eapply dS_T; eauto. now left. }
  constructor.
  - now rewrite poke_osize.
  - apply NoDup4. repeat split; auto.
    + apply NoDup_snoc; auto. intros Hin. eapply dL_T; eauto. now left.
    + in_lists.
    + in_lists.
    + in_lists.
    + in_lists.
    + in_lists.
  - apply oseg_poke_other; auto.
  - apply oseg_poke_other; auto.
  - rewrite peek_poke_other; auto. intros ->. contradiction.
  - intros a Ha. rewrite poke_mem_other; [apply Htodo; now right|].
    intros E. inversion E; subst. contradiction.
  - intros c Hc. apply in_app_iff in Hc. destruct Hc as [Hc | [<- | []]].
    + rewrite poke_mem_other; [now apply Hlive|].
      intros E. inversion E; subst. eapply dL_T; eauto. now left.
    + simpl. apply upd_same.
  - intros a Ha. rewrite valid_poke. apply Hval.
    revert Ha. rewrite !in_app_iff. simpl. tauto.
Qed.

End SweepStep.

(** ** The cells of one page *)

Section SweepCells.
Variable W : arch.
Variable osz : Z.
Variable m0 : Z -> Z.
Hypothesis Hosz : 0 < osz.

Lemma sweep_cells_ok n :
  forall fuel lim v s FL L Surv T pfl ppg cur empty,
    sinv W osz m0 s FL L Surv (cells v osz n ++ T) pfl ppg cur ->
    v + Z.of_nat n * osz <= lim + osz ->
    lim < v + Z.of_nat n * osz ->
    (n < fuel)%nat ->
    exists s' pfl',
      sweep_cells W fuel lim pfl empty v s =
      Ok (pfl', empty && forallb (fun c => gcv_isfree (m0 c)) (cells v osz n)) s' /\
      sinv W osz m0 s'
           (FL ++ filter (fun c => cell_kept (m0 c)) (cells v osz n))
           (L ++ filter (fun c => negb (cell_kept (m0 c))) (cells v osz n))
           Surv T pfl' ppg cur /\
      blocks (st s') = blocks (st s) /\
      trace (st s') = trace (st s).
Proof.
  induction n as [|n IH];
    intros fuel lim v s FL L Surv T pfl ppg cur empty Hinv H1 H2 Hf;
    (destruct fuel as [|fuel]; [lia|]); cbn [sweep_cells cells].
  - destruct (Z.leb_spec v lim); [lia|].
    exists s, pfl. cbn [filter forallb]. rewrite !app_nil_r, andb_true_r.
    split; [reflexivity|]. split; [exact Hinv|]. split; reflexivity.
  - destruct (Z.leb_spec v lim); [|nia].
    cbn [cells app] in Hinv.
    assert (Hv : valid W (st s) v = true).
    { apply (si_valid _ _ _ _ _ _ _ _ _ _ _ Hinv).
      rewrite !in_app_iff. simpl. tauto. }
    assert (Hm : mem (st s) v = m0 v).
    { apply (si_todo _ _ _ _ _ _ _ _ _ _ _ Hinv). now left. }
    assert (Ho : osize (pl s) = osz)
      by apply (si_osize _ _ _ _ _ _ _ _ _ _ _ Hinv).
    unfold bind at 1. rewrite rd_ok by exact Hv. cbn [peek]. rewrite Hm.
    cbn [filter forallb]. fold (cell_kept (m0 v)).
    destruct (cell_kept (m0 v)) eqn:Ek; cbn [negb].
    + (* appended to the free list *)
      unfold bind at 1.
      rewrite wr_ok by (eapply sinv_pfl_ok; eauto).
      unfold bind at 1, p_osize. rewrite poke_osize, Ho.
      destruct (IH fuel lim (v + osz) (poke s pfl v) (FL ++ [v]) L Surv T
                   (LMem v) ppg cur
                   (if negb (gcv_isfree (m0 v)) then false else empty))
        as [s' [pfl' [E [Hinv' [Hb Ht]]]]]; try lia.
      { now apply sinv_kept. }
      exists s', pfl'. rewrite E. split; [|split; [|split]].
      * f_equal. f_equal. destruct (gcv_isfree (m0 v)), empty; reflexivity.
      * rewrite <- app_assoc in Hinv'. exact Hinv'.
      * rewrite Hb. apply poke_blocks.
      * rewrite Ht. apply poke_trace.
    + (* live and marked *)
      unfold bind at 1.
      rewrite wr_ok by exact Hv.
      unfold bind at 1, p_osize. rewrite poke_osize, Ho.
      destruct (IH fuel lim (v + osz)
                   (poke s (LMem v) (clear_marked (m0 v))) FL (L ++ [v]) Surv T
                   pfl ppg cur
                   (if negb (gcv_isfree (m0 v)) then false else empty))
        as [s' [pfl' [E [Hinv' [Hb Ht]]]]]; try lia.
      { now apply sinv_live. }
      exists s', pfl'. rewrite E. split; [|split; [|split]].
      * f_equal. f_equal. destruct (gcv_isfree (m0 v)), empty; reflexivity.
      * rewrite <- app_assoc in Hinv'. exact Hinv'.
      * rewrite Hb. apply poke_blocks.
      * rewrite Ht. apply poke_trace.
Qed.

End SweepCells.

(** ** The pages of a pool *)

Lemma oseg_extend s l cs e c :
  oseg s l cs e -> peek s e = c -> oseg s l (cs ++ [c]) (LMem c).
Proof.
  revert l. induction cs as [|c0 cs IH]; simpl; intros l H Hc.
  - subst. auto.
  - destruct H as [H1 H2]. split; auto.
Qed.

Lemma oseg_ext s s' l cs e :
  (forall x, peek s' x = peek s x) -> oseg s l cs e -> oseg s' l cs e.
Proof.
  intros Hp. revert l. induction cs as [|c cs IH]; simpl; intros l H; auto.
  destruct H as [H1 H2]. split; auto. now rewrite Hp.
Qed.

Lemma p_free_ok W pg s :
  In (pg, GC_PAGE_SZ) (blocks (st s)) ->
  p_free W pg s =
  Ok tt (mkPst (mkStore (mem (st s)) (without [pg] (blocks (st s)))
                        (trace (st s) ++ [EvFree pg]) (visited (st s)))
               (pl s)).
Proof.
  intros Hin. unfold p_free, free.
  replace (existsb (fun b => fst b =? pg) (blocks (st s))) with true.
  - unfold without. do 3 f_equal. apply filter_ext. intros b. simpl.
    now rewrite orb_false_r.
  - symmetry. apply existsb_exists. exists (pg, GC_PAGE_SZ). split; auto.
    simpl. apply Z.eqb_refl.
Qed.

Lemma without_without a gone bl :
  without gone (without [a] bl) = without (a :: gone) bl.
Proof.
  unfold without. induction bl as [|b bl IH]; [reflexivity|].
  cbn [filter existsb]. rewrite orb_false_r.
  destruct (fst b =? a) eqn:E; cbn [negb orb filter]; [exact IH|].
  destruct (negb (existsb (Z.eqb (fst b)) gone)); [f_equal|]; exact IH.
Qed.

Lemma without_keeps gone bl p n :
  In (p, n) bl -> ~ In p gone -> In (p, n) (without gone bl).
Proof.
  intros Hin Hn. unfold without. apply filter_In. split; auto.
  simpl. apply negb_true_iff.
  destruct (existsb (Z.eqb p) gone) eqn:E; auto.
  apply existsb_exists in E. destruct E as [x [Hx Hpx]].
  apply Z.eqb_eq in Hpx. subst. contradiction.
Qed.

Lemma without_nil bl : without [] bl = bl.
Proof.
  unfold without. induction bl as [|b bl IH]; simpl in *; auto.
  now rewrite IH.
Qed.

Section Words.
Variable W : arch.
Variable osz : Z.
Hypothesis Hosz : ptr_size W <= osz.

Lemma osz_pos : 0 < osz.
Proof. pose proof (ptr_size_pos W). lia. Qed.

Lemma words_cons pg rest :
  words W osz (pg :: rest) = page_cells W osz pg ++ pg :: words W osz rest.
Proof.
  unfold words, page_words. simpl. now rewrite <- app_assoc.
Qed.

Lemma base_in_words p rest : In p rest -> In p (words W osz rest).
Proof.
  intros H. unfold words. apply in_flat_map. exists p. split; auto.
  unfold page_words. rewrite in_app_iff. right. now left.
Qed.

Lemma page_size_word : ptr_size W <= GC_PAGE_SZ.
Proof. unfold GC_PAGE_SZ. destruct W; simpl; lia. Qed.

Lemma cell_owned pg c :
  In c (page_cells W osz pg) -> pg <= c /\ c + ptr_size W <= pg + GC_PAGE_SZ.
Proof.
  intros H. apply page_cells_in_page in H; [|apply osz_pos].
  pose proof (ptr_size_pos W). lia.
Qed.

Lemma words_owned rest : owned W (words W osz rest) rest.
Proof.
  intros a Ha. unfold words in Ha. apply in_flat_map in Ha.
  destruct Ha as [p [Hp Ha]]. exists p. split; auto.
  unfold page_words in Ha. apply in_app_iff in Ha.
  destruct Ha as [Ha | [<- | []]].
  - now apply cell_owned.
  - pose proof page_size_word. lia.
Qed.

End Words.

Section SweepPage.
Variable W : arch.
Variable osz : Z.
Variable m0 : Z -> Z.

(** The page [pg] had a live cell: it stays in the list. *)
Lemma sinv_survive s FL L Surv pg T pfl ppg :
  sinv W osz m0 s FL L Surv (pg :: T) pfl ppg pg ->
  sinv W osz m0 s FL L (Surv ++ [pg]) T pfl (LMem pg) (m0 pg).
Proof.
  intros [Ho Hn Hfl Hpg Hcur Htodo Hlive Hval].
  apply NoDup4 in Hn.
  destruct Hn as [nFL [nL [nS [nT [dFL_L [dFL_S [dFL_T [dL_S [dL_T dS_T]]]]]]]]].
  apply NoDup_cons_iff in nT. destruct nT as [HvT nT'].
  constructor.
  - exact Ho.
  - apply NoDup4. repeat split; auto.
    + apply NoDup_snoc; auto. intros Hin. eapply dS_T; eauto. now left.
    + in_lists.
    + in_lists.
    + in_lists.
    + in_lists.
    + in_lists.
  - exact Hfl.
  - apply oseg_extend with (e := ppg); assumption.
  - simpl. apply Htodo. now left.
  - intros a Ha. apply Htodo. now right.
  - exact Hlive.
  - intros a Ha. apply Hval. revert Ha. rewrite !in_app_iff. simpl. tauto.
Qed.

(** The page [pg] was empty: the cells [K] it contributed are dropped
    again, the page cursor is made to skip it, and the page is freed. *)
Lemma sinv_release s1 s3 FL K L Surv pg T pfl1 ppg nxt :
  sinv W osz m0 s1 (FL ++ K) L Surv (pg :: T) pfl1 ppg pg ->
  (forall x, peek s3 x = peek (poke s1 ppg nxt) x) ->
  osize (pl s3) = osize (pl s1) ->
  (forall a, In a (FL ++ L ++ Surv ++ T) -> valid W (st s3) a = true) ->
  sinv W osz m0 s3 FL L Surv T (last_loc LFreelist FL) ppg nxt.
Proof.
  intros [Ho Hn Hfl Hpg Hcur Htodo Hlive Hval] Hpeek Hosz' Hval'.
  pose proof (oseg_in _ _ _ _ Hpg) as Hppg.
  apply NoDup4 in Hn.
  destruct Hn as [nFL [nL [nS [nT [dFL_L [dFL_S [dFL_T [dL_S [dL_T dS_T]]]]]]]]].
  apply NoDup_cons_iff in nT. destruct nT as [HvT nT'].
  apply NoDup_app_iff in nFL. destruct nFL as [nFL [nK dFL_K]].
  assert (Hppg_FL : ~ In ppg (LFreelist :: map LMem FL)).
  { eapply locs_apart; eauto using freelist_not_mem, pages_not_mem.
    - discriminate.
    - intros x Hx Hx'. eapply dFL_S; eauto. rewrite in_app_iff. now left. }
  assert (Hppg_mem : forall a, In a L \/ In a T -> ppg <> LMem a).
  { intros a Ha E. subst ppg. apply in_locs_inv in Hppg.
    destruct Hppg as [Hp | [b [Hb Hin]]]; [discriminate|].
    inversion Hb; subst. destruct Ha; [eapply dL_S | eapply dS_T]; eauto.
    now right. }
  constructor.
  - congruence.
  - apply NoDup4. repeat split; auto; in_lists.
  - apply oseg_ext with (s := poke s1 ppg nxt); auto.
    apply oseg_poke_other; auto. eapply oseg_prefix; eauto.
  - apply oseg_ext with (s := poke s1 ppg nxt); auto.
    apply oseg_poke_end; auto. apply NoDup_loc; auto using pages_not_mem.
  - rewrite Hpeek. apply peek_poke_same.
  - intros a Ha. change (peek s3 (LMem a) = m0 a). rewrite Hpeek.
    rewrite peek_poke_other.
    + simpl. apply Htodo. now right.
    + intros E. symmetry in E. revert E. apply Hppg_mem. now right.
  - intros c Hc. change (peek s3 (LMem c) = clear_marked (m0 c)). rewrite Hpeek.
    rewrite peek_poke_other.
    + simpl. now apply Hlive.
    + intros E. symmetry in E. revert E. apply Hppg_mem. now left.
  - exact Hval'.
Qed.

End SweepPage.

Section SweepPages.
Variable W : arch.
Variable osz : Z.
Variable m0 : Z -> Z.
Hypothesis Hosz : ptr_size W <= osz.

Lemma empty_page_no_live pg :
  page_empty W osz m0 pg = true -> live_cells W osz m0 pg = [].
Proof.
  unfold page_empty, live_cells. generalize (page_cells W osz pg).
  induction l as [|c l IH]; simpl; auto.
  intros H. apply andb_true_iff in H. destruct H as [H1 H2].
  unfold cell_kept. rewrite H1. simpl. auto.
Qed.

Lemma survivors_cons pg rest :
  survivors W osz m0 (pg :: rest) =
  if page_empty W osz m0 pg then survivors W osz m0 rest
  else pg :: survivors W osz m0 rest.
Proof. unfold survivors. simpl. now destruct (page_empty W osz m0 pg). Qed.

Lemma released_cons pg rest :
  released W osz m0 (pg :: rest) =
  if page_empty W osz m0 pg then pg :: released W osz m0 rest
  else released W osz m0 rest.
Proof. unfold released. simpl. now destruct (page_empty W osz m0 pg). Qed.

(** The page [p] at the head of the remaining pages differs from every
    page kept so far and from every page behind it. *)
Lemma head_page_fresh s FL L Surv p rest pfl ppg cur q :
  sinv W osz m0 s FL L Surv (words W osz (p :: rest)) pfl ppg cur ->
  In q (Surv ++ rest) -> q <> p.
Proof.
  intros Hinv Hq E. subst q.
  pose proof (si_nodup _ _ _ _ _ _ _ _ _ _ _ Hinv) as Hn.
  apply NoDup4 in Hn.
  destruct Hn as [_ [_ [_ [nT [_ [_ [_ [_ [_ dS_T]]]]]]]]].
  apply in_app_iff in Hq. destruct Hq as [Hq | Hq].
  - apply (dS_T p Hq). apply base_in_words. now left.
  - rewrite words_cons in nT. apply NoDup_remove_2 in nT.
    apply nT. rewrite in_app_iff. right. now apply base_in_words.
Qed.

Lemma sweep_pages_ok rest :
  forall fuel pg s FL L Surv pfl ppg,
    sinv W osz m0 s FL L Surv (words W osz rest) pfl ppg pg ->
    chain m0 pg rest ->
    owned W (FL ++ L ++ Surv) Surv ->
    page_blocks s (Surv ++ rest) ->
    (length rest < fuel)%nat ->
    exists s' pfl' ppg',
      sweep_pages W fuel pg ppg pfl s = Ok pfl' s' /\
      sinv W osz m0 s'
           (FL ++ flat_map (kept_cells W osz m0) (survivors W osz m0 rest))
           (L ++ flat_map (live_cells W osz m0) (survivors W osz m0 rest))
           (Surv ++ survivors W osz m0 rest) [] pfl' ppg' NULL /\
      blocks (st s') = without (released W osz m0 rest) (blocks (st s)) /\
      trace (st s') = trace (st s) ++ map EvFree (released W osz m0 rest).
Proof.
  pose proof (osz_pos W osz Hosz) as Hpos.
  pose proof (ptr_size_pos W) as Hw.
  induction rest as [|p rest IH];
    intros fuel pg s FL L Surv pfl ppg Hinv Hch Hown Hblk Hf;
    (destruct fuel as [|fuel]; [simpl in Hf; lia|]); cbn [sweep_pages].
  - simpl in Hch. subst pg. rewrite Z.eqb_refl.
    exists s, pfl, ppg. unfold survivors, released. cbn [filter flat_map map].
    rewrite !app_nil_r, without_nil.
    split; [reflexivity|]. split; [exact Hinv|]. split; reflexivity.
  - destruct Hch as [-> [Hp0 Hch]].
    destruct (Z.eqb_spec p NULL) as [E|_]; [contradiction|].
    pose proof (si_osize _ _ _ _ _ _ _ _ _ _ _ Hinv) as Ho.
    unfold bind at 1, p_osize. rewrite Ho.
    pose proof Hinv as Hinv0. rewrite words_cons in Hinv.
    pose proof (ncells_bounds W osz Hpos) as [Hn0 [Hn1 Hn2]].
    destruct (sweep_cells_ok W osz m0 Hpos (Z.to_nat (ncells W osz))
                (span (p + ptr_size W) (p + GC_PAGE_SZ - osz))
                (p + GC_PAGE_SZ - osz) (p + ptr_size W)
                s FL L Surv (p :: words W osz rest) pfl ppg p true)
      as [s1 [pfl1 [E1 [Hinv1 [Hb1 Ht1]]]]].
    { exact Hinv. }
    { rewrite Z2Nat.id by lia. lia. }
    { rewrite Z2Nat.id by lia. lia. }
    { apply span_enough. exact Hpos. }
    unfold bind at 1. rewrite E1. cbn [andb].
    fold (page_cells W osz p) in *.
    fold (page_empty W osz m0 p). fold (kept_cells W osz m0 p) in Hinv1.
    fold (live_cells W osz m0 p) in Hinv1.
    assert (Hvp : valid W (st s1) p = true).
    { apply (si_valid _ _ _ _ _ _ _ _ _ _ _ Hinv1).
      rewrite !in_app_iff. simpl. tauto. }
    assert (Hmp : mem (st s1) p = m0 p).
    { apply (si_todo _ _ _ _ _ _ _ _ _ _ _ Hinv1). now left. }
    unfold bind at 1. rewrite rd_ok by exact Hvp. cbn [peek]. rewrite Hmp.
    rewrite survivors_cons, released_cons.
    destruct (page_empty W osz m0 p) eqn:Eempty.
    + (* the page is released *)
      unfold bind at 1. rewrite wr_ok by (eapply sinv_ppg_ok; eauto).
      assert (Hpb : In (p, GC_PAGE_SZ) (blocks (st (poke s1 ppg (m0 p))))).
      { rewrite poke_blocks, Hb1. apply Hblk. rewrite in_app_iff. right. now left. }
      unfold bind at 1. rewrite (p_free_ok W p _ Hpb).
      set (s3 := mkPst _ _).
      assert (Hblk3 : page_blocks s3 (Surv ++ rest)).
      { intros q Hq. unfold s3. cbn [st blocks].
        apply without_keeps.
        - rewrite poke_blocks, Hb1. apply Hblk.
          revert Hq. rewrite !in_app_iff. simpl. tauto.
        - intros [Hx | []]. symmetry in Hx. revert Hx.
          eapply head_page_fresh; eauto. }
      rewrite (empty_page_no_live _ Eempty), app_nil_r in Hinv1.
      destruct (IH fuel (m0 p) s3 FL L Surv (last_loc LFreelist FL) ppg)
        as [s' [pfl' [ppg' [E [Hinv' [Hb' Ht']]]]]]; auto.
      { apply (sinv_release W osz m0 s1 s3 FL (kept_cells W osz m0 p) L Surv p
                              (words W osz rest) pfl1 ppg (m0 p) Hinv1).
        - intros x. destruct x; reflexivity.
        - unfold s3. cbn [pl]. apply poke_osize.
        - intros a Ha. rewrite app_assoc, app_assoc, in_app_iff in Ha.
          rewrite <- !app_assoc in Ha.
          assert (Hq : exists q, In q (Surv ++ rest) /\ q <= a /\
                                 a + ptr_size W <= q + GC_PAGE_SZ).
          { destruct Ha as [Ha | Ha].
            - destruct (Hown a Ha) as [q [Hq1 Hq2]]. exists q.
              rewrite in_app_iff. tauto.
            - destruct (words_owned W osz Hosz rest a Ha) as [q [Hq1 Hq2]].
              exists q. rewrite in_app_iff. tauto. }
          destruct Hq as [q [Hq1 [Hq2 Hq3]]].
          apply valid_intro with (b := (q, GC_PAGE_SZ)); auto. }
      { simpl in Hf. lia. }
      rewrite (oseg_end _ _ _ _ (si_fl _ _ _ _ _ _ _ _ _ _ _ Hinv0)).
      exists s', pfl', ppg'. split; [exact E|]. split; [exact Hinv'|].
      split.
      * rewrite Hb'. unfold s3. cbn [st blocks].
        rewrite poke_blocks, Hb1. apply without_without.
      * rewrite Ht'. unfold s3. cbn [st trace].
        rewrite poke_trace, Ht1. simpl. now rewrite <- app_assoc.
    + (* the page survives *)
      destruct (IH fuel (m0 p) s1 (FL ++ kept_cells W osz m0 p)
                   (L ++ live_cells W osz m0 p) (Surv ++ [p]) pfl1 (LMem p))
        as [s' [pfl' [ppg' [E [Hinv' [Hb' Ht']]]]]]; auto.
      { apply sinv_survive with (ppg := ppg). exact Hinv1. }
      { intros a Ha.
        assert (Hc : In a (FL ++ L ++ Surv) \/ In a (page_cells W osz p) \/ p = a).
        { revert Ha. unfold kept_cells, live_cells.
          rewrite !in_app_iff, !filter_In. simpl. tauto. }
        destruct Hc as [Hc | [Hc | <-]].
        - destruct (Hown a Hc) as [q [Hq1 Hq2]]. exists q.
          rewrite in_app_iff. tauto.
        - exists p. rewrite in_app_iff. simpl.
          pose proof (cell_owned W osz Hosz p a Hc). tauto.
        - exists p. rewrite in_app_iff. simpl.
          pose proof (page_size_word W). split; [tauto | lia]. }
      { intros q Hq. rewrite Hb1. apply Hblk.
        revert Hq. rewrite !in_app_iff. simpl. tauto. }
      { simpl in Hf. lia. }
      exists s', pfl', ppg'. split; [exact E|]. cbn [flat_map].
      rewrite <- !app_assoc in Hinv'.
      split; [|split].
      * exact Hinv'.
      * rewrite Hb', Hb1. reflexivity.
      * rewrite Ht', Ht1. reflexivity.
Qed.

End SweepPages.

(** ** Pages that do not overlap *)


Section WordsNoDup.
Variable W : arch.
Variable osz : Z.
Hypothesis Hosz : ptr_size W <= osz.

Lemma words_NoDup pgs : separated pgs -> NoDup (words W osz pgs).
Proof.
  pose proof (ptr_size_pos W) as Hw. pose proof (page_size_word W) as Hps.
  induction pgs as [|pg rest IH]; intros Hs.
  - constructor.
  - destruct Hs as [Hx Hs]. rewrite Forall_forall in Hx.
    rewrite words_cons. apply NoDup_app_iff. split; [|split].
    + apply page_cells_NoDup. eapply osz_pos; eauto.
    + constructor; [|now apply IH].
      intros Hin. destruct (words_owned W osz Hosz rest pg Hin) as [q [Hq Hr]].
      specialize (Hx q Hq). lia.
    + intros c Hc [<- | Hin].
      * apply page_cells_in_page in Hc; [lia | eapply osz_pos; eauto].
      * destruct (words_owned W osz Hosz rest c Hin) as [q [Hq Hr]].
        specialize (Hx q Hq). apply (cell_owned W osz Hosz) in Hc. lia.
Qed.


End WordsNoDup.

(** ** [sweep_pool] on a well-formed pool *)

Lemma chain_ptrs m a l : chain m a l -> Forall (fun c => c <> NULL) l.
Proof.
  revert a. induction l as [|c l IH]; simpl; intros a H; constructor.
  - tauto.
  - eapply IH. apply H.
Qed.

Lemma survivors_incl W osz m0 pgs p : In p (survivors W osz m0 pgs) -> In p pgs.
Proof. unfold survivors. rewrite filter_In. tauto. Qed.

Lemma in_kept W osz m0 pgs c :
  In c (flat_map (kept_cells W osz m0) pgs) <->
  exists p, In p pgs /\ In c (page_cells W osz p) /\ cell_kept (m0 c) = true.
Proof.
  rewrite in_flat_map. unfold kept_cells.
  split; intros [p [Hp Hc]]; exists p; rewrite filter_In in *; tauto.
Qed.

Lemma in_live W osz m0 pgs c :
  In c (flat_map (live_cells W osz m0) pgs) <->
  exists p, In p pgs /\ In c (page_cells W osz p) /\ cell_kept (m0 c) = false.
Proof.
  rewrite in_flat_map. unfold live_cells.
  split; intros [p [Hp Hc]]; exists p; rewrite filter_In, negb_true_iff in *; tauto.
Qed.

Lemma sweep_pool_ok W s pgs fuel :
  wf_pool W s pgs -> (length pgs < fuel)%nat ->
  let osz := osize (pl s) in
  let m0 := mem (st s) in
  let surv := survivors W osz m0 pgs in
  exists s',
    sweep_pool W fuel s = Ok tt s' /\
    chain (mem (st s')) (pages (pl s')) surv /\
    chain (mem (st s')) (freelist (pl s'))
          (flat_map (kept_cells W osz m0) surv) /\
    NoDup (flat_map (kept_cells W osz m0) surv) /\
    (forall c, In c (flat_map (live_cells W osz m0) surv) ->
               mem (st s') c = clear_marked (m0 c)) /\
    blocks (st s') = without (released W osz m0 pgs) (blocks (st s)) /\
    trace (st s') = trace (st s) ++ map EvFree (released W osz m0 pgs) /\
    osize (pl s') = osz.
Proof.
  intros [Hosz [Hch [Hpg Hsep]]] Hf osz m0 surv.
  pose proof (ptr_size_pos W) as Hw.
  rewrite Forall_forall in Hpg.
  assert (Hinv0 : sinv W osz m0 s [] [] [] (words W osz pgs)
                       LFreelist LPages (pages (pl s))).
  { constructor; try reflexivity; auto.
    - simpl. now apply words_NoDup.
    - simpl; tauto.
    - simpl. intros a Ha.
      destruct (words_owned W osz Hosz pgs a Ha) as [q [Hq [H1 H2]]].
      apply valid_intro with (b := (q, GC_PAGE_SZ)); auto.
      now apply Hpg. }
  destruct (sweep_pages_ok W osz m0 Hosz pgs fuel (pages (pl s)) s [] [] []
                           LFreelist LPages Hinv0 Hch)
    as [s1 [pfl [ppg [E [Hinv [Hb Ht]]]]]]; auto.
  { intros a []. }
  { intros p Hp. now apply Hpg. }
  cbn [app] in Hinv. fold surv in Hinv.
  destruct Hinv as [Ho Hn Hfl Hpgs Hcur _ Hlive Hval].
  apply NoDup4 in Hn.
  destruct Hn as [nFL [nL [nS [_ [dFL_L [dFL_S [_ [dL_S _]]]]]]]].
  pose proof (oseg_in _ _ _ _ Hfl) as Hpfl.
  pose proof (oseg_in _ _ _ _ Hpgs) as Hppg.
  assert (Hpfl_S : ~ In pfl (LPages :: map LMem surv)).
  { eapply locs_apart; eauto using freelist_not_mem, pages_not_mem.
    discriminate. }
  unfold sweep_pool, bind. rewrite rd_ok by exact I. cbn [peek]. rewrite E.
  rewrite wr_ok.
  2:{ eapply cursor_ok; eauto using freelist_not_mem.
      intros a Ha. apply Hval. rewrite in_app_iff. now left. }
  exists (poke s1 pfl NULL). split; [reflexivity|].
  assert (Hsurv_ptr : forall p, In p surv -> 0 < p).
  { intros p Hp. apply survivors_incl in Hp. now apply Hpg. }
  split; [|split; [|split; [|split; [|split; [|split]]]]].
  - apply lseg_chain.
    + change (pages (pl (poke s1 pfl NULL))) with (peek (poke s1 pfl NULL) LPages).
      apply oseg_lseg with (e := ppg).
      * now apply oseg_poke_other.
      * rewrite peek_poke_other; auto. intros ->. contradiction.
    + apply Forall_forall. intros p Hp. apply Hsurv_ptr in Hp. unfold NULL. lia.
  - apply lseg_chain.
    + change (freelist (pl (poke s1 pfl NULL)))
        with (peek (poke s1 pfl NULL) LFreelist).
      apply oseg_lseg with (e := pfl).
      * apply oseg_poke_end; auto. apply NoDup_loc; auto using freelist_not_mem.
      * apply peek_poke_same.
    + apply Forall_forall. intros c Hc. apply in_kept in Hc.
      destruct Hc as [p [Hp [Hc _]]]. apply Hsurv_ptr in Hp.
      apply (cell_owned W osz Hosz) in Hc. unfold NULL. lia.
  - exact nFL.
  - intros c Hc. rewrite poke_mem_other; [now apply Hlive|].
    intros ->. apply in_locs_inv in Hpfl.
    destruct Hpfl as [Hp | [b [Hbe Hin]]]; [discriminate|].
    inversion Hbe; subst. eapply dFL_L; eauto.
  - rewrite poke_blocks. exact Hb.
  - rewrite poke_trace. exact Ht.
  - rewrite poke_osize. exact Ho.
Qed.

(** A page with a cell that does not carry the free encoding is not
    released. *)
Lemma page_not_empty W osz m0 pg c :
  In c (page_cells W osz pg) -> gcv_isfree (m0 c) = false ->
  page_empty W osz m0 pg = false.
Proof.
  intros Hc Hf. unfold page_empty.
  destruct (forallb _ _) eqn:E; auto.
  rewrite forallb_forall in E. specialize (E c Hc). congruence.
Qed.

Lemma not_released W osz m0 pgs pg c :
  In c (page_cells W osz pg) -> gcv_isfree (m0 c) = false ->
  ~ In pg (released W osz m0 pgs).
Proof.
  intros Hc Hf Hin. unfold released in Hin. apply filter_In in Hin.
  rewrite (page_not_empty W osz m0 pg c Hc Hf) in Hin. destruct Hin. discriminate.
Qed.

(** ** Header bits *)

Lemma marked_clear w : marked (clear_marked w) = false.
Proof.
  unfold marked, clear_marked. rewrite Z.ldiff_spec. simpl.
  now rewrite andb_false_r.
Qed.

Lemma otherbits_clear w : otherbits (clear_marked w) = otherbits w.
Proof.
  unfold otherbits, clear_marked. apply Z.bits_inj'. intros n Hn.
  rewrite !Z.shiftr_spec, Z.ldiff_spec by lia.
  replace (Z.testbit 1 (n + 2)) with false; [now rewrite andb_true_r|].
  symmetry. apply Z.bits_above_log2; simpl; lia.
Qed.

Lemma gcv_isfree_clear w : gcv_isfree (clear_marked w) = gcv_isfree w.
Proof. unfold gcv_isfree. now rewrite otherbits_clear. Qed.

Lemma gcv_isfree_pointer a : 4 <= a -> gcv_isfree a = true.
Proof.
  intros H. unfold gcv_isfree, otherbits. rewrite Z.shiftr_div_pow2 by lia.
  change (2 ^ 2) with 4.
  assert (1 <= a / 4) by (apply Z.div_le_lower_bound; lia).
  destruct (Z.eqb_spec (a / 4) 0); [lia | reflexivity].
Qed.

Lemma chain_next m a l c : chain m a l -> In c l -> m c = NULL \/ In (m c) l.
Proof.
  revert a. induction l as [|x l IH]; simpl; intros a H Hc; [tauto|].
  destruct H as [-> [Hx H]]. destruct Hc as [-> | Hc].
  - destruct l as [|y l]; simpl in H; [now left|].
    destruct H as [H _]. rewrite H. right. right. now left.
  - destruct (IH _ H Hc); auto.
Qed.

(** C4: after [sweep_pool] on a well-formed pool whose cells are no
    larger than a page, so that the end pointer
    [pg + GC_PAGE_SZ - osize] of the code does not wrap around, the free
    list is a
    null-terminated list without repetition of cells of the pages that
    remain; in those pages every cell that is not free (by its header,
    or by not being on the free list) has its mark cleared, and every
    cell that was free or unmarked when the sweep began is on the free
    list exactly once. *)
Theorem sweep_pool_invariants :
  forall W s pgs fuel,
    wf_pool W s pgs -> osize (pl s) <= GC_PAGE_SZ ->
    (length pgs < fuel)%nat ->
    exists s' pgs' fl,
      sweep_pool W fuel s = Ok tt s' /\
      chain (mem (st s')) (pages (pl s')) pgs' /\
      chain (mem (st s')) (freelist (pl s')) fl /\
      NoDup fl /\
      (forall c, In c fl ->
         exists pg, In pg pgs' /\ In c (page_cells W (osize (pl s')) pg)) /\
      (forall pg c,
         In pg pgs' -> In c (page_cells W (osize (pl s')) pg) ->
         (gcv_isfree (mem (st s') c) = false ->
          marked (mem (st s') c) = false) /\
         (~ In c fl -> marked (mem (st s') c) = false) /\
         (cell_kept (mem (st s) c) = true ->
          count_occ Z.eq_dec fl c = 1%nat)).
Proof.
  intros W s pgs fuel Hwf Hmax Hf.
  destruct (sweep_pool_ok W s pgs fuel Hwf Hf)
    as [s' [E [Hpg [Hfl [Hnd [Hlive [Hb [Ht Ho]]]]]]]].
  destruct Hwf as [Hosz [Hch [Hpgs Hsep]]]. rewrite Forall_forall in Hpgs.
  pose proof (ptr_size_pos W) as Hw.
  set (osz := osize (pl s)) in *. set (m0 := mem (st s)) in *.
  set (surv := survivors W osz m0 pgs) in *.
  set (fl := flat_map (kept_cells W osz m0) surv) in *.
  exists s', surv, fl. rewrite Ho.
  split; [exact E|]. split; [exact Hpg|]. split; [exact Hfl|].
  split; [exact Hnd|]. split.
  - intros c Hc. apply in_kept in Hc. destruct Hc as [p [Hp [Hc _]]]. eauto.
  - intros pg c Hp Hc.
    assert (Hcases : In c fl \/ mem (st s') c = clear_marked (m0 c)).
    { destruct (cell_kept (m0 c)) eqn:Ek.
      - left. apply in_kept. eauto.
      - right. apply Hlive. apply in_live. eauto. }
    split; [|split].
    + intros Hnf. destruct Hcases as [Hin | Hcl].
      * destruct (chain_next _ _ _ _ Hfl Hin) as [Hz | Hnext].
        -- rewrite Hz. reflexivity.
        -- apply in_kept in Hnext. destruct Hnext as [q [Hq [Hcq _]]].
           apply page_cells_in_page in Hcq; [|lia].
           apply survivors_incl in Hq. apply Hpgs in Hq.
           rewrite gcv_isfree_pointer in Hnf; [discriminate|].
           destruct (ptr_size_cases W); lia.
      * rewrite Hcl. apply marked_clear.
    + intros Hnin. destruct Hcases as [Hin | Hcl]; [contradiction|].
      rewrite Hcl. apply marked_clear.
    + intros Hk. apply NoDup_count_occ'; auto. apply in_kept. eauto.
Qed.


(** ** Counting unmarked words *)

Lemma in_block_addrs W b a :
  fst b <= a -> a + ptr_size W <= fst b + snd b -> In a (block_addrs W b).
Proof.
  intros H1 H2. unfold block_addrs. apply in_map_iff.
  exists (Z.to_nat (a - fst b)). split; [lia|].
  apply in_seq. lia.
Qed.

Lemma valid_in_addrs W s a : valid W s a = true -> In a (valid_addrs W s).
Proof.
  intros H. apply valid_elim in H. destruct H as [b [Hb [H1 H2]]].
  unfold valid_addrs. apply in_flat_map. exists b. split; auto.
  now apply in_block_addrs.
Qed.

Lemma filter_length_le (f g : Z -> bool) l :
  (forall x, g x = true -> f x = true) ->
  (length (filter g l) <= length (filter f l))%nat.
Proof.
  intros H. induction l as [|x l IH]; simpl; auto.
  destruct (g x) eqn:Eg.
  - rewrite (H x Eg). simpl. lia.
  - destruct (f x); simpl; lia.
Qed.

Lemma filter_length_lt (f g : Z -> bool) l a :
  (forall x, g x = true -> f x = true) ->
  In a l -> f a = true -> g a = false ->
  (length (filter g l) < length (filter f l))%nat.
Proof.
  intros H Ha Hf Hg. induction l as [|x l IH]; simpl; [contradiction|].
  destruct Ha as [-> | Ha].
  - rewrite Hf, Hg. simpl.
    pose proof (filter_length_le f g l H). lia.
  - specialize (IH Ha). destruct (g x) eqn:Eg.
    + rewrite (H x Eg). simpl. lia.
    + destruct (f x); simpl; lia.
Qed.

Lemma marks_grow_refl s : marks_grow s s.
Proof. split; auto. Qed.

Lemma marks_grow_trans s1 s2 s3 :
  marks_grow s1 s2 -> marks_grow s2 s3 -> marks_grow s1 s3.
Proof.
  intros [B1 M1] [B2 M2]. split; [congruence | auto].
Qed.

Lemma marks_grow_count W s s' :
  marks_grow s s' -> (unmarked_count W s' <= unmarked_count W s)%nat.
Proof.
  intros [Hb Hm]. unfold unmarked_count, valid_addrs. rewrite Hb.
  apply filter_length_le. intros x Hx.
  apply negb_true_iff in Hx. apply negb_true_iff.
  destruct (marked (mem s x)) eqn:E; auto. apply Hm in E. congruence.
Qed.

Lemma marked_set w : marked (set_marked w) = true.
Proof.
  unfold marked, set_marked. rewrite Z.lor_spec. simpl.
  now rewrite orb_true_r.
Qed.

Lemma with_mark_grow s a : marks_grow s (with_mark s a).
Proof.
  split; [reflexivity|]. intros x Hx. simpl. unfold upd.
  destruct (Z.eqb_spec x a); [apply marked_set | exact Hx].
Qed.

Lemma with_mark_count W s a :
  valid W s a = true -> marked (mem s a) = false ->
  (unmarked_count W (with_mark s a) < unmarked_count W s)%nat.
Proof.
  intros Hv Hm. unfold unmarked_count.
  change (valid_addrs W (with_mark s a)) with (valid_addrs W s).
  apply filter_length_lt with (a := a).
  - intros x Hx. apply negb_true_iff in Hx. apply negb_true_iff.
    destruct (marked (mem s x)) eqn:E; auto.
    apply (proj2 (with_mark_grow s a)) in E. congruence.
  - now apply valid_in_addrs.
  - now rewrite Hm.
  - simpl. rewrite upd_same, marked_set. reflexivity.
Qed.

Lemma gc_setmark_eq W o s :
  gc_setmark W o s =
  if valid W s (gc_val W o) then Ok tt (with_mark s (gc_val W o)) else Fault s.
Proof.
  unfold gc_setmark, bind, s_load, s_store, load, store_word.
  destruct (valid W s (gc_val W o)) eqn:E; cbn beta iota; rewrite ?E; reflexivity.
Qed.

Lemma gc_marked_eq W o s :
  gc_marked W o s =
  if valid W s (gc_val W o) then Ok (marked (mem s (gc_val W o))) s
  else Fault s.
Proof.
  unfold gc_marked, bind, s_load, load.
  destruct (valid W s (gc_val W o)); reflexivity.
Qed.

Lemma vis_ok_grow W s s' :
  marks_grow s s' -> visited s' = visited s -> vis_ok W s -> vis_ok W s'.
Proof.
  intros [Hb Hm] Hv [Hn Hvis]. split; rewrite Hv; auto.
Qed.

(** ** Marking steps that halt *)

Section Good.
Variable W : arch.
Variable k : nat.

Lemma mark_post_refl s : vis_ok W s -> mark_post W s s.
Proof. intros H. split; [apply marks_grow_refl | exact H]. Qed.

Lemma mark_post_trans s1 s2 s3 :
  mark_post W s1 s2 -> mark_post W s2 s3 -> mark_post W s1 s3.
Proof.
  intros [G1 _] [G2 V]. split; [eapply marks_grow_trans; eauto | exact V].
Qed.

Lemma mark_pre_post s s' : mark_pre W k s -> mark_post W s s' -> mark_pre W k s'.
Proof.
  intros [Hc _] [G V]. split; [|exact V].
  pose proof (marks_grow_count W _ _ G). lia.
Qed.

Lemma good_ret : good W k (fun _ => ret tt).
Proof.
  intros s [_ Hv]. exists O, (Ok tt s). split; [reflexivity|].
  now apply mark_post_refl.
Qed.

Lemma good_abort : good W k (fun _ => abort).
Proof.
  intros s [_ Hv]. exists O, (Abort s). split; [reflexivity|].
  now apply mark_post_refl.
Qed.

Lemma good_assert b : good W k (fun _ => assert b).
Proof. destruct b; [apply good_ret | apply good_abort]. Qed.

Lemma good_if (b : bool) f g :
  good W k f -> good W k g -> good W k (fun n => if b then f n else g n).
Proof. destruct b; auto. Qed.

Lemma good_bind f g :
  good W k f -> good W k g -> good W k (fun n => f n ;; g n).
Proof.
  intros Hf Hg s Hpre.
  destruct (Hf s Hpre) as [N1 [out1 [E1 Q1]]].
  destruct out1 as [[] s1 | s1 | s1 |]; try contradiction.
  - destruct (Hg s1 (mark_pre_post _ _ Hpre Q1)) as [N2 [out2 [E2 Q2]]].
    exists (Nat.max N1 N2), out2. split.
    + intros n Hn. unfold bind. rewrite E1 by lia. apply E2. lia.
    + destruct out2; try contradiction; eapply mark_post_trans; eauto.
  - exists N1, (Fault s1). split; [|exact Q1].
    intros n Hn. unfold bind. now rewrite E1.
  - exists N1, (Abort s1). split; [|exact Q1].
    intros n Hn. unfold bind. now rewrite E1.
Qed.

Lemma good_setmark o : good W k (fun _ => gc_setmark W o).
Proof.
  intros s [_ Hv].
  destruct (valid W s (gc_val W o)) eqn:Ev.
  - exists O, (Ok tt (with_mark s (gc_val W o))). split.
    + intros n _. now rewrite gc_setmark_eq, Ev.
    + split; [apply with_mark_grow|].
      eapply vis_ok_grow; eauto using with_mark_grow.
  - exists O, (Fault s). split.
    + intros n _. now rewrite gc_setmark_eq, Ev.
    + now apply mark_post_refl.
Qed.

Lemma good_mark_nonnull (mv : nat -> Z -> M store unit) x :
  (forall y, good W k (fun n => mv n y)) ->
  good W k (fun n => mark_nonnull (mv n) x).
Proof.
  intros H. unfold mark_nonnull. destruct (x =? NULL); [apply good_ret | apply H].
Qed.

Lemma good_mark_each (f : nat -> Z -> M store unit) l :
  (forall y, good W k (fun n => f n y)) ->
  good W k (fun n => mark_each (f n) l).
Proof.
  intros H. induction l as [|x l IH]; simpl.
  - apply good_ret.
  - apply good_bind; [apply H | exact IH].
Qed.

(** The loop of [gc_mark_methlist] on a null-terminated list. *)
Lemma good_methlist_loop R (mv : nat -> Z -> M store unit) nodes :
  (forall y, good W k (fun n => mv n y)) ->
  forall ml s,
    ml_chain R ml nodes -> mark_pre W k s ->
    exists N out,
      (forall n1 n2, (N <= n1)%nat -> (length nodes < n2)%nat ->
                     gc_mark_methlist W R (mv n1) n2 ml s = out) /\
      match out with
      | Ok _ s' | Fault s' | Abort s' => mark_post W s s'
      | OutOfFuel => False
      end.
Proof.
  intros Hmv. induction nodes as [|nd nodes IH]; intros ml s Hch Hpre.
  - simpl in Hch. subst ml. exists O, (Ok tt s). split.
    + intros n1 n2 _ Hn2. destruct n2; [simpl in Hn2; lia|]. reflexivity.
    + apply mark_post_refl. apply Hpre.
  - destruct Hch as [-> [Hnz Hch]].
    assert (Hbody : good W k (fun n =>
              gc_setmark W nd ;;
              mv n (ml_sig (methlist_at R nd)) ;;
              mv n (ml_tvars (methlist_at R nd)) ;;
              mv n (ml_func (methlist_at R nd)))).
    { apply good_bind; [apply good_setmark|].
      apply good_bind; [apply Hmv|]. apply good_bind; apply Hmv. }
    destruct (Hbody s Hpre) as [N1 [out1 [E1 Q1]]].
    assert (Hstep : forall n1 n2 s0,
               gc_mark_methlist W R (mv n1) (S n2) nd s0 =
               match (gc_setmark W nd ;;
                      mv n1 (ml_sig (methlist_at R nd)) ;;
                      mv n1 (ml_tvars (methlist_at R nd)) ;;
                      mv n1 (ml_func (methlist_at R nd))) s0 with
               | Ok _ s1 =>
                   gc_mark_methlist W R (mv n1) n2
                                    (ml_next (methlist_at R nd)) s1
               | Fault s1 => Fault s1
               | Abort s1 => Abort s1
               | OutOfFuel => OutOfFuel
               end).
    { intros n1 n2 s0. cbn [gc_mark_methlist].
      destruct (Z.eqb_spec nd NULL) as [E|_]; [contradiction|].
      unfold bind.
      destruct (gc_setmark W nd s0) as [? t1| | |]; try reflexivity.
      destruct (mv n1 (ml_sig (methlist_at R nd)) t1) as [? t2| | |];
        try reflexivity.
      destruct (mv n1 (ml_tvars (methlist_at R nd)) t2) as [? t3| | |];
        reflexivity. }
    destruct out1 as [[] s1 | s1 | s1 |]; try contradiction.
    + destruct (IH _ s1 Hch (mark_pre_post _ _ Hpre Q1)) as [N2 [out2 [E2 Q2]]].
      exists (Nat.max N1 N2), out2. split.
      * intros n1 n2 Hn1 Hn2. destruct n2; [simpl in Hn2; lia|].
        rewrite Hstep, E1 by lia. apply E2; simpl in Hn2; lia.
      * destruct out2; try contradiction; eapply mark_post_trans; eauto.
    + exists N1, (Fault s1). split; [|exact Q1].
      intros n1 n2 Hn1 Hn2. destruct n2; [simpl in Hn2; lia|].
      now rewrite Hstep, E1.
    + exists N1, (Abort s1). split; [|exact Q1].
      intros n1 n2 Hn1 Hn2. destruct n2; [simpl in Hn2; lia|].
      now rewrite Hstep, E1.
Qed.

Lemma good_methlist R (mv : nat -> Z -> M store unit) ml :
  (forall y, good W k (fun n => mv n y)) ->
  (exists nodes, ml_chain R ml nodes) ->
  good W k (fun n => gc_mark_methlist W R (mv n) n ml).
Proof.
  intros Hmv [nodes Hch] s Hpre.
  destruct (good_methlist_loop R mv nodes Hmv ml s Hch Hpre)
    as [N [out [E Q]]].
  exists (Nat.max N (S (length nodes))), out. split; [|exact Q].
  intros n Hn. apply E; lia.
Qed.

End Good.

(** ** The tracer halts *)

Section Tracer.
Variable W : arch.
Variable R : runtime.
Hypothesis Hml : methlists_finite R.

Ltac good_steps Hmv :=
  repeat first
    [ apply good_ret | apply good_abort | apply good_assert
    | apply good_setmark | apply Hmv
    | apply good_mark_nonnull; [exact Hmv]
    | apply good_mark_each; intros ?
    | apply good_bind | apply good_if ].

Lemma good_trace_obj k (mv : nat -> Z -> M store unit) v :
  (forall y, good W k (fun n => mv n y)) ->
  good W k (fun n => trace_obj W R (mv n) n (obj_at R v)).
Proof.
  intros Hmv. destruct (obj_at R v) eqn:Eo; cbn [trace_obj];
    try solve [good_steps Hmv].
  destruct (Hml _ _ _ _ Eo) as [Hd Hc].
  apply good_bind; [now apply good_methlist|].
  apply good_bind; [now apply good_methlist|].
  good_steps Hmv.
Qed.

Lemma gc_markval_step n v s :
  gc_markval W R (S n) v s =
  if v =? NULL then Abort s
  else if valid W s (gc_val W v) then
         if marked (mem s (gc_val W v)) then Ok tt s
         else trace_obj W R (gc_markval W R n) n (obj_at R v) (entered W s v)
       else Fault s.
Proof.
  cbn [gc_markval]. unfold bind at 1.
  destruct (v =? NULL); [reflexivity|]. cbn [negb assert ret].
  unfold bind at 1. rewrite gc_marked_eq.
  destruct (valid W s (gc_val W v)) eqn:Ev; [|reflexivity].
  destruct (marked (mem s (gc_val W v))); [reflexivity|].
  unfold bind at 1. rewrite gc_setmark_eq, Ev.
  reflexivity.
Qed.

Lemma entered_post s v :
  vis_ok W s -> marked (mem s (gc_val W v)) = false ->
  mark_post W s (entered W s v).
Proof.
  intros [Hn Hv] Hm. split.
  - split; [reflexivity|]. apply (proj2 (with_mark_grow s (gc_val W v))).
  - split; cbn [entered visited mem].
    + apply NoDup_app_iff. repeat split; auto.
      * constructor; [simpl; tauto | constructor].
      * intros x Hx [<- | []]. apply Hv in Hx. congruence.
    + intros o Ho. apply in_app_iff in Ho. destruct Ho as [Ho | [<- | []]].
      * apply (proj2 (with_mark_grow s (gc_val W v))). now apply Hv.
      * simpl. rewrite upd_same. apply marked_set.
Qed.

Lemma entered_count s v :
  valid W s (gc_val W v) = true -> marked (mem s (gc_val W v)) = false ->
  (unmarked_count W (entered W s v) < unmarked_count W s)%nat.
Proof. intros Hv Hm. apply (with_mark_count W s _ Hv Hm). Qed.

Lemma gc_markval_good k : forall v, good W k (fun n => gc_markval W R n v).
Proof.
  induction k as [|k IH]; intros v s Hpre.
  - (* no unmarked word is left *)
    exists 1%nat.
    destruct (v =? NULL) eqn:Ez;
      [|destruct (valid W s (gc_val W v)) eqn:Ev;
        [destruct (marked (mem s (gc_val W v))) eqn:Em|]].
    + exists (Abort s). split; [|apply mark_post_refl, Hpre].
      intros n Hn. destruct n; [lia|]. now rewrite gc_markval_step, Ez.
    + exists (Ok tt s). split; [|apply mark_post_refl, Hpre].
      intros n Hn. destruct n; [lia|]. now rewrite gc_markval_step, Ez, Ev, Em.
    + pose proof (entered_count s v Ev Em). destruct Hpre. lia.
    + exists (Fault s). split; [|apply mark_post_refl, Hpre].
      intros n Hn. destruct n; [lia|]. now rewrite gc_markval_step, Ez, Ev.
  - destruct (v =? NULL) eqn:Ez;
      [|destruct (valid W s (gc_val W v)) eqn:Ev;
        [destruct (marked (mem s (gc_val W v))) eqn:Em|]].
    + exists 1%nat, (Abort s). split; [|apply mark_post_refl, Hpre].
      intros n Hn. destruct n; [lia|]. now rewrite gc_markval_step, Ez.
    + exists 1%nat, (Ok tt s). split; [|apply mark_post_refl, Hpre].
      intros n Hn. destruct n; [lia|]. now rewrite gc_markval_step, Ez, Ev, Em.
    + pose proof (entered_post s v (proj2 Hpre) Em) as Hpost.
      assert (Hpre' : mark_pre W k (entered W s v)).
      { split; [|apply Hpost]. pose proof (entered_count s v Ev Em).
        destruct Hpre. lia. }
      destruct (good_trace_obj k (gc_markval W R) v IH _ Hpre')
        as [N [out [E Q]]].
      exists (S N), out. split.
      * intros n Hn. destruct n; [lia|].
        rewrite gc_markval_step, Ez, Ev, Em. apply E. lia.
      * destruct out; try contradiction; eapply mark_post_trans; eauto.
    + exists 1%nat, (Fault s). split; [|apply mark_post_refl, Hpre].
      intros n Hn. destruct n; [lia|]. now rewrite gc_markval_step, Ez, Ev.
Qed.

End Tracer.

(** ** The tracer on a closed heap *)

Section Safe.
Variable W : arch.
Variable R : runtime.
Variable bl : list (Z * Z).
Variable dom : list Z.
Hypothesis Hclosed : closed W R bl dom.

Lemma safe_ret : safe bl (ret tt).
Proof. intros s Hs. exact Hs. Qed.

Lemma safe_bind m k : safe bl m -> safe bl k -> safe bl (m ;; k).
Proof.
  intros Hm Hk s Hs. unfold bind. specialize (Hm s Hs).
  destruct (m s) as [[] s1 | | |]; auto. apply Hk. exact Hm.
Qed.

Lemma safe_if (b : bool) m1 m2 :
  (b = true -> safe bl m1) -> (b = false -> safe bl m2) ->
  safe bl (if b then m1 else m2).
Proof. destruct b; auto. Qed.

Lemma safe_assert b : b = true -> safe bl (assert b).
Proof. intros ->. apply safe_ret. Qed.

Lemma safe_setmark a : hdr_valid W bl a -> safe bl (gc_setmark W a).
Proof.
  intros Ha s Hs. rewrite gc_setmark_eq. unfold valid. rewrite Hs, Ha.
  exact Hs.
Qed.

Lemma safe_nonnull (mv : Z -> M store unit) x :
  (forall y, In y dom -> safe bl (mv y)) ->
  x = NULL \/ In x dom -> safe bl (mark_nonnull mv x).
Proof.
  intros Hmv Hx. unfold mark_nonnull.
  destruct (Z.eqb_spec x NULL) as [E | E]; [apply safe_ret|].
  apply Hmv. tauto.
Qed.

Lemma safe_each (f : Z -> M store unit) (Q : Z -> Prop) l :
  (forall y, Q y -> safe bl (f y)) -> Forall Q l -> safe bl (mark_each f l).
Proof.
  intros Hf Hl. induction Hl as [|x l Hx Hl IH]; simpl.
  - apply safe_ret.
  - apply safe_bind; auto.
Qed.

Lemma safe_methlist (mv : Z -> M store unit) fuel :
  (forall y, In y dom -> safe bl (mv y)) ->
  forall ml nodes,
    ml_ok R (fun x => In x dom) (hdr_valid W bl) ml nodes ->
    safe bl (gc_mark_methlist W R mv fuel ml).
Proof.
  intros Hmv. induction fuel as [|fuel IH]; intros ml nodes Hok.
  - intros s Hs. exact I.
  - cbn [gc_mark_methlist]. destruct nodes as [|nd nodes]; simpl in Hok.
    + subst ml. rewrite Z.eqb_refl. apply safe_ret.
    + destruct Hok as [-> [Hnz [Hh [H1 [H2 [H3 Hnext]]]]]].
      destruct (Z.eqb_spec nd NULL) as [E|_]; [contradiction|].
      apply safe_bind; [now apply safe_setmark|].
      apply safe_bind; [now apply Hmv|].
      apply safe_bind; [now apply Hmv|].
      apply safe_bind; [now apply Hmv|].
      eapply IH; eauto.
Qed.

Lemma safe_trace_obj (mv : Z -> M store unit) fuel o :
  (forall y, In y dom -> safe bl (mv y)) ->
  obj_ok R (fun x => In x dom) (hdr_valid W bl) o ->
  safe bl (trace_obj W R mv fuel o).
Proof.
  intros Hmv Ho.
  assert (Hnn : forall x, x = NULL \/ In x dom -> safe bl (mark_nonnull mv x))
    by (intros x Hx; now apply safe_nonnull).
  destruct o; cbn [trace_obj obj_ok] in *.
  - apply safe_ret.
  - destruct Ho as [H1 [H2 H3]].
    apply safe_bind; [now apply Hmv|]. apply safe_bind.
    + apply safe_if; intros E; [apply safe_ret|].
      apply safe_setmark, H2. intros ->. rewrite Z.eqb_refl in E. discriminate.
    + apply safe_if; intros E; [apply safe_ret|].
      eapply safe_each; [exact Hnn | auto].
  - eapply safe_each; [exact Hnn | exact Ho].
  - destruct Ho as [H1 [H2 [H3 [H4 [H5 H6]]]]].
    repeat (apply safe_bind; [now apply Hmv|]). now apply Hnn.
  - destruct Ho as [H1 H2]. apply safe_bind; now apply Hnn.
  - now apply Hnn.
  - destruct Ho as [H1 [H2 [H3 [H4 H5]]]]. subst.
    apply safe_bind; [now apply safe_assert|].
    apply safe_bind; [now apply safe_assert|].
    repeat (apply safe_bind; [now apply Hmv|]). now apply Hmv.
  - destruct Ho as [H1 [H2 [H3 [H4 [H5 [H6 [H7 [H8 H9]]]]]]]].
    apply safe_bind; [now apply Hnn|]. apply safe_bind; [now apply Hnn|].
    repeat (apply safe_bind; [now apply Hmv|]).
    apply safe_bind; now apply Hnn.
  - destruct Ho as [H1 [H2 [H3 [H4 [H5 H6]]]]]. subst.
    apply safe_bind; [now apply safe_assert|].
    apply safe_bind; [now apply safe_assert|].
    repeat (apply safe_bind; [now apply Hmv|]). now apply Hmv.
  - destruct Ho as [[n1 H1] [[n2 H2] H3]].
    apply safe_bind; [eapply safe_methlist; eauto|].
    apply safe_bind; [eapply safe_methlist; eauto|].
    eapply safe_each; [exact Hnn | exact H3].
  - destruct Ho as [H1 [H2 [H3 H4]]].
    repeat (apply safe_bind; [now apply Hmv|]). now apply Hmv.
  - eapply safe_each; [exact Hmv | exact Ho].
  - contradiction.
Qed.

Lemma safe_gc_markval fuel : forall v, In v dom -> safe bl (gc_markval W R fuel v).
Proof.
  induction fuel as [|fuel IH]; intros v Hv s Hs.
  - exact I.
  - destruct (Hclosed v Hv) as [Hnz [Hh Hobj]].
    rewrite gc_markval_step.
    destruct (Z.eqb_spec v NULL) as [E|_]; [contradiction|].
    unfold valid. rewrite Hs, Hh.
    destruct (marked (mem s (gc_val W v))); [exact Hs|].
    apply (safe_trace_obj (gc_markval W R fuel) fuel (obj_at R v) IH Hobj).
    exact Hs.
Qed.

End Safe.

(** C7: on every store, whose live blocks are finitely many words,
    [gc_markval] halts: beyond some fuel it always ends in the same
    way and never by exhausting the fuel, whatever cycles the
    references form, as long as the method lists are null-terminated.
    It returns at once on a marked object, traces the body of an
    unmarked one only after setting its mark, only sets mark bits, and
    traces no object twice.  On a closed heap it returns normally. *)
Theorem gc_markval_terminates :
  forall W R s v,
    methlists_finite R -> vis_ok W s ->
    (exists fuel out,
        (forall n, (fuel <= n)%nat -> gc_markval W R n v s = out) /\
        match out with
        | Ok _ s' | Fault s' | Abort s' =>
            marks_grow s s' /\ NoDup (visited s') /\
            (forall o, In o (visited s') ->
                       marked (mem s' (gc_val W o)) = true)
        | OutOfFuel => False
        end /\
        (forall dom, closed W R (blocks s) dom -> In v dom ->
                     exists s', out = Ok tt s')) /\
    (forall n,
        v <> NULL -> valid W s (gc_val W v) = true ->
        (marked (mem s (gc_val W v)) = true ->
         gc_markval W R (S n) v s = Ok tt s) /\
        (marked (mem s (gc_val W v)) = false ->
         gc_markval W R (S n) v s =
         trace_obj W R (gc_markval W R n) n (obj_at R v) (entered W s v) /\
         marked (mem (entered W s v) (gc_val W v)) = true)).
Proof.
  intros W R s v Hml Hvis. split.
  - assert (Hpre : mark_pre W (unmarked_count W s) s) by (split; auto).
    destruct (gc_markval_good W R Hml _ v s Hpre) as [N [out [E Q]]].
    exists N, out. split; [exact E|]. split.
    + destruct out as [? s' | s' | s' |]; try contradiction;
        destruct Q as [G [Hn Hv]]; auto.
    + intros dom Hc Hv.
      pose proof (safe_gc_markval W R (blocks s) dom Hc N v Hv s eq_refl) as Hs.
      rewrite (E N (Nat.le_refl N)) in Hs.
      destruct out as [[] s' | s' | s' |]; try contradiction. eauto.
  - intros n Hnz Hval.
    assert (Ez : (v =? NULL) = false) by now apply Z.eqb_neq.
    split; intros Hm; rewrite gc_markval_step, Ez, Hval, Hm.
    + reflexivity.
    + split; [reflexivity|]. simpl. rewrite upd_same. apply marked_set.
Qed.

(** C1: [add_page] stores the old [p->pages] in the link of the new
    page and then assigns that link back to [p->pages]: the page list
    of the pool is what it was before the call and the new page is not
    on it. *)
Theorem add_page_drops_new_page :
  forall W r s,
    0 < r -> ptr_size W <= osize (pl s) ->
    exists s',
      add_page W r s = Ok tt s' /\
      mem (st s') r = pages (pl s) /\
      pages (pl s') = pages (pl s).
Proof.
  intros W r s Hr Ho. exists (add_page_result W r s).
  split; [now apply add_page_ok|].
  split; [now apply add_page_result_link | now apply add_page_result_pages].
Qed.

Lemma add_page_drops_new_page_witness :
  0 < 65536 /\ ptr_size BITS64 <= osize (pl ex_pst) /\
  exists s',
    add_page BITS64 65536 ex_pst = Ok tt s' /\
    mem (st s') 65536 = pages (pl ex_pst) /\
    pages (pl s') = pages (pl ex_pst).
Proof.
  split; [lia|]. split; [simpl; lia|].
  apply (add_page_drops_new_page BITS64 65536 ex_pst); simpl; lia.
Defined.

(** C9: [add_page] threads the
    [floor((GC_PAGE_SZ - sizeof(void * )) / osize)] cells of the new
    page onto the free list in ascending address order, the link of the
    last of them holds the old head of the free list, and no word
    outside the new page is written.  The cells are at least a word
    wide and no larger than a page, so that the end pointer
    [pg + GC_PAGE_SZ - osize] of the code does not wrap around. *)
Theorem add_page_threads_cells :
  forall W r s,
    0 < r -> ptr_size W <= osize (pl s) <= GC_PAGE_SZ ->
    exists s',
      add_page W r s = Ok tt s' /\
      lseg (mem (st s')) (freelist (pl s'))
           (map (fun i => r + ptr_size W + Z.of_nat i * osize (pl s))
                (seq 0 (Z.to_nat ((GC_PAGE_SZ - ptr_size W) / osize (pl s)))))
           (freelist (pl s)) /\
      (forall a, a < r \/ r + GC_PAGE_SZ <= a ->
                 mem (st s') a = mem (st s) a).
Proof.
  intros W r s Hr [Ho Hmax]. exists (add_page_result W r s).
  split; [now apply add_page_ok|]. split.
  - rewrite <- cells_as_map. now apply add_page_result_freelist.
  - intros a Ha. now apply add_page_result_frame.
Qed.

Lemma add_page_threads_cells_witness :
  0 < 65536 /\ ptr_size BITS64 <= osize (pl ex_pst) <= GC_PAGE_SZ /\
  exists s',
    add_page BITS64 65536 ex_pst = Ok tt s' /\
    lseg (mem (st s')) (freelist (pl s'))
         (map (fun i => 65536 + ptr_size BITS64 + Z.of_nat i * osize (pl ex_pst))
              (seq 0 (Z.to_nat ((GC_PAGE_SZ - ptr_size BITS64) / osize (pl ex_pst)))))
         (freelist (pl ex_pst)) /\
    (forall a, a < 65536 \/ 65536 + GC_PAGE_SZ <= a ->
               mem (st s') a = mem (st ex_pst) a).
Proof.
  assert (H2 : ptr_size BITS64 <= osize (pl ex_pst) <= GC_PAGE_SZ)
    by (unfold GC_PAGE_SZ; simpl; lia).
  split; [lia|]. split; [exact H2|].
  apply (add_page_threads_cells BITS64 65536 ex_pst); [lia | exact H2].
Defined.

Example add_page_example :
  exists s',
    add_page BITS64 65536 ex_pst = Ok tt s' /\
    pages (pl s') = NULL /\ freelist (pl s') = 65544 /\
    map (mem (st s')) [65544; 67600; 69656; 71712; 73768; 75824; 77880] =
    [67600; 69656; 71712; 73768; 75824; 77880; 0].
Proof. eexists. split; [vm_compute; reflexivity|]. repeat split. Qed.

(** ** The theorems on concrete states *)

Lemma allocb_trigger_policy_witness :
  0 <= 24 < word_mod BITS64 /\
  let triggered := collect_interval ex_gc <? allocd_bytes ex_gc in
  post (allocb BITS64 ex_runtime 1 65536 24) ex_gc
       (fun g' => collections g' =
                  if triggered then S (collections ex_gc)
                  else collections ex_gc) /\
  (forall p g',
      allocb BITS64 ex_runtime 1 65536 24 ex_gc = Ok p g' ->
      allocd_bytes g' =
      (if triggered then 24 else wrap BITS64 (allocd_bytes ex_gc + 24)) /\
      (0 <= allocd_bytes ex_gc ->
       allocd_bytes ex_gc + 24 < word_mod BITS64 ->
       allocd_bytes g' = if triggered then 24 else allocd_bytes ex_gc + 24)).
Proof.
  assert (H : 0 <= 24 < word_mod BITS64) by (unfold word_mod; simpl; lia).
  split; [exact H|].
  apply (allocb_trigger_policy BITS64 ex_runtime 1 65536 24 ex_gc H).
Defined.

(** A call that does collect: the counter is past the interval. *)
Example allocb_collects_example :
  exists p g',
    allocb BITS64 ex_rooted_runtime 3 65536 24 ex_full_gc = Ok p g' /\
    collections g' = 1%nat /\ allocd_bytes g' = 24.
Proof. eexists _, _. split; [vm_compute; reflexivity|]. split; reflexivity. Qed.

Lemma ex_gc_pools_ok : pools_ok BITS64 ex_gc.
Proof.
  intros k Hk. unfold N_POOLS in Hk.
  assert (Hc : k = 0 \/ k = 1 \/ k = 2 \/ k = 3 \/ k = 4 \/ k = 5 \/ k = 6 \/
               k = 7 \/ k = 8 \/ k = 9 \/ k = 10 \/ k = 11 \/ k = 12 \/
               k = 13 \/ k = 14 \/ k = 15) by lia.
  repeat (destruct Hc as [-> | Hc]); try subst k;
    (split; [reflexivity | left; reflexivity]).
Qed.

Lemma allocb_returns_zeroed_payload_witness :
  maybe_collect BITS64 ex_runtime 1 ex_gc = Ok tt ex_gc /\
  pools_ok BITS64 ex_gc /\
  0 < 65536 /\ 1 <= 24 /\ 24 + 2 * ptr_size BITS64 < word_mod BITS64 /\
  exists p g',
    allocb BITS64 ex_runtime 1 65536 24 ex_gc = Ok p g' /\
    p <> NULL /\
    mem (heap g') (p - ptr_size BITS64) = 0 /\
    24 <= payload_size 24 /\
    if 2048 <? 24
    then In (p - 2 * ptr_size BITS64, 24 + 2 * ptr_size BITS64)
            (blocks (heap g'))
    else allocated (heap g') (p - ptr_size BITS64)
                   (ptr_size BITS64 + payload_size 24).
Proof.
  assert (H1 : maybe_collect BITS64 ex_runtime 1 ex_gc = Ok tt ex_gc)
    by reflexivity.
  assert (H5 : 24 + 2 * ptr_size BITS64 < word_mod BITS64)
    by (unfold word_mod; simpl; lia).
  split; [exact H1|]. split; [exact ex_gc_pools_ok|].
  split; [lia|]. split; [lia|]. split; [exact H5|].
  apply (allocb_returns_zeroed_payload BITS64 ex_runtime 1 65536 24 ex_gc ex_gc
           H1 ex_gc_pools_ok); [lia | lia | exact H5].
Defined.

(** C8 fails for requests so large that the size handed to [malloc]
    wraps around: for [sz = 2^64 - 1] the block asked for is 15 bytes,
    and the store of the flags word already leaves it. *)
Lemma allocb_size_wraps_counterexample :
  exists g',
    allocb BITS64 ex_runtime 1 65536 (2 ^ 64 - 1) ex_gc = Fault g' /\
    blocks (heap g') = [(65536, 15)].
Proof. eexists. split; [vm_compute; reflexivity | reflexivity]. Qed.

Lemma malloc_failure_faults_witness :
  1 <= osize (pl ex_pst) <= GC_PAGE_SZ /\
  valid BITS64 (st ex_pst) NULL = false /\
  valid BITS64 (st ex_pst) (ptr_size BITS64) = false /\
  valid BITS64 (heap ex_gc) NULL = false /\
  (exists s',
      add_page BITS64 NULL ex_pst = Fault s' /\
      pages (pl s') = pages (pl ex_pst) /\
      blocks (st s') = blocks (st ex_pst) /\
      freelist (pl s') =
      if ptr_size BITS64 + osize (pl ex_pst) <=? GC_PAGE_SZ
      then ptr_size BITS64 else freelist (pl ex_pst)) /\
  (exists g',
      alloc_big BITS64 NULL 4096 ex_gc = Fault g' /\
      big_objects g' = big_objects ex_gc /\ pools g' = pools ex_gc /\
      blocks (heap g') = blocks (heap ex_gc)).
Proof.
  assert (H1 : 1 <= osize (pl ex_pst) <= GC_PAGE_SZ)
    by (unfold GC_PAGE_SZ; simpl; lia).
  split; [exact H1|]. split; [reflexivity|]. split; [reflexivity|].
  split; [reflexivity|].
  apply (malloc_failure_faults BITS64 ex_pst ex_gc 4096 H1);
    reflexivity.
Defined.

(** C6 fails: with a null answer of [malloc], [add_page] does not
    abort, and at the fault the free list of the pool already points
    to the address 8, which belongs to no page. *)
Lemma malloc_failure_counterexample :
  (forall s', add_page BITS64 NULL ex_pst <> Abort s') /\
  exists s',
    add_page BITS64 NULL ex_pst = Fault s' /\
    freelist (pl ex_pst) = NULL /\ freelist (pl s') = 8.
Proof.
  split.
  - intros s' H. vm_compute in H. discriminate.
  - eexists. split; [vm_compute; reflexivity|]. split; reflexivity.
Qed.

Lemma ex_garbage_wf : wf_pool BITS64 ex_garbage_pst ex_pages.
Proof.
  split; [simpl; lia|]. split; [|split].
  - simpl. unfold NULL. repeat split; lia.
  - constructor; [|constructor]. split; [lia | now left].
  - simpl. auto.
Qed.



Lemma sweep_pool_invariants_witness :
  wf_pool BITS64 ex_garbage_pst ex_pages /\
  osize (pl ex_garbage_pst) <= GC_PAGE_SZ /\
  (length ex_pages < 2)%nat /\
  exists s' pgs' fl,
    sweep_pool BITS64 2 ex_garbage_pst = Ok tt s' /\
    chain (mem (st s')) (pages (pl s')) pgs' /\
    chain (mem (st s')) (freelist (pl s')) fl /\
    NoDup fl /\
    (forall c, In c fl ->
       exists pg, In pg pgs' /\ In c (page_cells BITS64 (osize (pl s')) pg)) /\
    (forall pg c,
       In pg pgs' -> In c (page_cells BITS64 (osize (pl s')) pg) ->
       (gcv_isfree (mem (st s') c) = false ->
        marked (mem (st s') c) = false) /\
       (~ In c fl -> marked (mem (st s') c) = false) /\
       (cell_kept (mem (st ex_garbage_pst) c) = true ->
        count_occ Z.eq_dec fl c = 1%nat)).
Proof.
  assert (H1 : osize (pl ex_garbage_pst) <= GC_PAGE_SZ)
    by (unfold GC_PAGE_SZ; simpl; lia).
  assert (H2 : (length ex_pages < 2)%nat) by (simpl; lia).
  split; [exact ex_garbage_wf|]. split; [exact H1|]. split; [exact H2|].
  apply (sweep_pool_invariants BITS64 ex_garbage_pst ex_pages 2
           ex_garbage_wf H1 H2).
Defined.



Lemma ex_runtime_methlists : methlists_finite ex_runtime.
Proof.
  intros v defs cache c1 H. simpl in H.
  destruct (v =? 4104); [discriminate|].
  destruct (v =? 4120); discriminate.
Qed.

Lemma ex_cycle_vis : vis_ok BITS64 ex_cycle_store.
Proof. split; [constructor | intros o []]. Qed.

Lemma gc_markval_terminates_witness :
  methlists_finite ex_runtime /\ vis_ok BITS64 ex_cycle_store /\
  (exists fuel out,
      (forall n, (fuel <= n)%nat ->
                 gc_markval BITS64 ex_runtime n 4104 ex_cycle_store = out) /\
      match out with
      | Ok _ s' | Fault s' | Abort s' =>
          marks_grow ex_cycle_store s' /\ NoDup (visited s') /\
          (forall o, In o (visited s') ->
                     marked (mem s' (gc_val BITS64 o)) = true)
      | OutOfFuel => False
      end /\
      (forall dom, closed BITS64 ex_runtime (blocks ex_cycle_store) dom ->
                   In 4104 dom -> exists s', out = Ok tt s')) /\
  (forall n,
      4104 <> NULL -> valid BITS64 ex_cycle_store (gc_val BITS64 4104) = true ->
      (marked (mem ex_cycle_store (gc_val BITS64 4104)) = true ->
       gc_markval BITS64 ex_runtime (S n) 4104 ex_cycle_store =
       Ok tt ex_cycle_store) /\
      (marked (mem ex_cycle_store (gc_val BITS64 4104)) = false ->
       gc_markval BITS64 ex_runtime (S n) 4104 ex_cycle_store =
       trace_obj BITS64 ex_runtime (gc_markval BITS64 ex_runtime n) n
                 (obj_at ex_runtime 4104) (entered BITS64 ex_cycle_store 4104) /\
       marked (mem (entered BITS64 ex_cycle_store 4104) (gc_val BITS64 4104))
       = true)).
Proof.
  split; [exact ex_runtime_methlists|]. split; [exact ex_cycle_vis|].
  apply (gc_markval_terminates BITS64 ex_runtime ex_cycle_store 4104
           ex_runtime_methlists ex_cycle_vis).
Defined.

Lemma ex_cycle_closed :
  closed BITS64 ex_runtime (blocks ex_cycle_store) [4104; 4120].
Proof.
  intros v [<- | [<- | []]]; (split; [discriminate|]);
    (split; [reflexivity|]); simpl; tauto.
Qed.

(** Two closures that refer to each other: the tracer visits each once
    and returns. *)
Example gc_markval_cycle_example :
  exists s',
    gc_markval BITS64 ex_runtime 3 4104 ex_cycle_store = Ok tt s' /\
    visited s' = [4104; 4120] /\
    marked (mem s' (gc_val BITS64 4104)) = true /\
    marked (mem s' (gc_val BITS64 4120)) = true.
Proof. eexists. split; [vm_compute; reflexivity|]. repeat split. Qed.

(** ** A method list that is a cycle *)

Lemma ex_loop_no_chain nodes : ~ ml_chain ex_loop_runtime 4120 nodes.
Proof.
  induction nodes as [|n t IH]; cbn [ml_chain].
  - unfold NULL. lia.
  - intros [<- [_ H]]. apply IH. exact H.
Qed.

Lemma ex_loop_valid s a :
  blocks s = [(4096, 64)] -> 4096 <= a <= 4152 ->
  valid BITS64 s a = true.
Proof.
  intros Hb Ha. apply valid_intro with (b := (4096, 64)).
  - rewrite Hb. now left.
  - simpl. lia.
  - simpl. lia.
Qed.

(** Tracing the value at 4136 returns or runs out of fuel; it leaves
    the blocks alone. *)
Lemma ex_loop_leaf m s :
  blocks s = [(4096, 64)] ->
  gc_markval BITS64 ex_loop_runtime m 4136 s = OutOfFuel \/
  exists s', gc_markval BITS64 ex_loop_runtime m 4136 s = Ok tt s' /\
             blocks s' = [(4096, 64)].
Proof.
  intros Hb. destruct m as [|m]; [now left|]. right.
  rewrite gc_markval_step.
  change (4136 =? NULL) with false. cbv iota.
  rewrite (ex_loop_valid s (gc_val BITS64 4136) Hb)
    by (unfold gc_val; simpl; lia).
  destruct (marked (mem s (gc_val BITS64 4136))).
  - exists s. auto.
  - change (obj_at ex_loop_runtime 4136) with JBits. cbn [trace_obj].
    eexists. split; [reflexivity | exact Hb].
Qed.

(** The loop over the cyclic list runs out of every fuel. *)
Lemma ex_loop_methlist k :
  forall m s,
    blocks s = [(4096, 64)] ->
    gc_mark_methlist BITS64 ex_loop_runtime
                     (gc_markval BITS64 ex_loop_runtime m) k 4120 s = OutOfFuel.
Proof.
  induction k as [|k IH]; intros m s Hb; [reflexivity|].
  cbn [gc_mark_methlist]. change (4120 =? NULL) with false. cbv iota.
  change (methlist_at ex_loop_runtime 4120)
    with (mkMethlist 4136 4136 4136 4120).
  cbn [ml_sig ml_tvars ml_func ml_next].
  unfold bind at 1. rewrite gc_setmark_eq.
  rewrite (ex_loop_valid s (gc_val BITS64 4120) Hb)
    by (unfold gc_val; simpl; lia).
  assert (Hb1 : blocks (with_mark s (gc_val BITS64 4120)) = [(4096, 64)])
    by exact Hb.
  unfold bind at 1.
  destruct (ex_loop_leaf m _ Hb1) as [E1 | [s1 [E1 Hs1]]]; rewrite E1;
    [reflexivity|].
  unfold bind at 1.
  destruct (ex_loop_leaf m _ Hs1) as [E2 | [s2 [E2 Hs2]]]; rewrite E2;
    [reflexivity|].
  unfold bind at 1.
  destruct (ex_loop_leaf m _ Hs2) as [E3 | [s3 [E3 Hs3]]]; rewrite E3;
    [reflexivity|].
  apply IH. exact Hs3.
Qed.

(** C7 fails without the condition on the method lists: on a heap of
    one block of 64 bytes, the method table at 4104 has a list of
    definitions whose only entry links to itself; [gc_mark_methlist]
    follows [next] without looking at the mark, and [gc_markval] runs
    out of every fuel. *)
Lemma gc_markval_cyclic_methlist_counterexample :
  obj_at ex_loop_runtime 4104 = JMTable 4120 NULL [] /\
  ml_next (methlist_at ex_loop_runtime 4120) = 4120 /\
  ~ methlists_finite ex_loop_runtime /\
  blocks ex_cycle_store = [(4096, 64)] /\
  vis_ok BITS64 ex_cycle_store /\
  (forall n, gc_markval BITS64 ex_loop_runtime n 4104 ex_cycle_store
             = OutOfFuel).
Proof.
  split; [reflexivity|]. split; [reflexivity|]. split; [|split; [|split]].
  - intros H. destruct (H 4104 4120 NULL [] eq_refl) as [[nodes Hn] _].
    exact (ex_loop_no_chain nodes Hn).
  - reflexivity.
  - split; [constructor | intros o []].
  - intros n. destruct n as [|n]; [reflexivity|].
    rewrite gc_markval_step.
    change (4104 =? NULL) with false. cbv iota.
    rewrite (ex_loop_valid ex_cycle_store (gc_val BITS64 4104) eq_refl)
      by (unfold gc_val; simpl; lia).
    change (marked (mem ex_cycle_store (gc_val BITS64 4104))) with false.
    cbv iota.
    change (obj_at ex_loop_runtime 4104) with (JMTable 4120 NULL []).
    cbn [trace_obj]. unfold bind at 1.
    rewrite ex_loop_methlist by reflexivity. reflexivity.
Qed.

(** * Further properties *)

(** ** Size classes *)

(** X1: a larger request never gets a smaller class. *)
Theorem szclass_monotone :
  forall a b, a <= b -> szclass a <= szclass b.
Proof.
  intros a b H. unfold szclass.
  repeat match goal with
         | |- context [?x <=? ?y] => destruct (Z.leb_spec x y)
         end; lia.
Qed.

Lemma szclass_monotone_witness : 9 <= 130 /\ szclass 9 <= szclass 130.
Proof. split; [lia | apply (szclass_monotone 9 130); lia]. Defined.

(** X2: the cell of a request is never more than twice the request,
    and less than one and a half times it above 16 bytes. *)
Theorem szclass_waste_bound :
  forall sz, 4 <= sz <= 2048 ->
    szclass_size (szclass sz) <= 2 * sz /\
    (16 < sz -> 2 * szclass_size (szclass sz) < 3 * sz).
Proof.
  intros sz H. unfold szclass.
  repeat match goal with
         | |- context [?x <=? ?y] => destruct (Z.leb_spec x y)
         end; vm_compute szclass_size; lia.
Qed.

Lemma szclass_waste_bound_witness :
  4 <= 129 <= 2048 /\
  szclass_size (szclass 129) <= 2 * 129 /\
  (16 < 129 -> 2 * szclass_size (szclass 129) < 3 * 129).
Proof. split; [lia | apply (szclass_waste_bound 129); lia]. Defined.

(** ** [jl_gc_init] *)

(** X3: [jl_gc_init] sets up sixteen pools without pages or free
    cells, pool [k] with cells of class [k] plus a header word, so that
    the pool [szclass] selects holds the request; it leaves the heap,
    the big-object list and both counters as they are. *)
Theorem jl_gc_init_pools :
  forall W g,
    exists g',
      jl_gc_init W g = Ok tt g' /\
      length (pools g') = Z.to_nat N_POOLS /\
      pools_ok W g' /\ no_pages g' /\
      Forall (fun p => freelist p = NULL) (pools g') /\
      (forall sz, 1 <= sz <= 2048 ->
         sz + ptr_size W <=
         osize (nth (Z.to_nat (szclass sz)) (pools g') null_pool)) /\
      heap g' = heap g /\ big_objects g' = big_objects g /\
      allocd_bytes g' = allocd_bytes g /\
      collect_interval g' = collect_interval g.
Proof.
  intros W g. eexists. split; [reflexivity|]. cbn [pools heap big_objects
    allocd_bytes collect_interval].
  assert (Hnth : forall k, 0 <= k < N_POOLS ->
            nth (Z.to_nat k)
                (map (fun c => mkPool (c + ptr_size W) NULL NULL) szc) null_pool
            = mkPool (szclass_size k + ptr_size W) NULL NULL).
  { intros k Hk. unfold N_POOLS in Hk.
    assert (Hc : k = 0 \/ k = 1 \/ k = 2 \/ k = 3 \/ k = 4 \/ k = 5 \/ k = 6 \/
                 k = 7 \/ k = 8 \/ k = 9 \/ k = 10 \/ k = 11 \/ k = 12 \/
                 k = 13 \/ k = 14 \/ k = 15) by lia.
    repeat (destruct Hc as [-> | Hc]); try subst k; reflexivity. }
  split; [reflexivity|]. split; [|split; [|split; [|split]]].
  - intros k Hk. cbn zeta. cbn [pools]. rewrite (Hnth k Hk). cbn [osize freelist].
    split; [reflexivity | now left].
  - unfold no_pages. cbn [pools]. apply Forall_forall. intros p Hp.
    apply in_map_iff in Hp. destruct Hp as [c [<- _]]. reflexivity.
  - apply Forall_forall. intros p Hp.
    apply in_map_iff in Hp. destruct Hp as [c [<- _]]. reflexivity.
  - intros sz Hsz. pose proof (szclass_range sz) as Hr.
    rewrite Hnth by (unfold N_POOLS; lia). cbn [osize].
    pose proof (szclass_fits sz (proj2 Hsz)). lia.
  - auto.
Qed.

Lemma jl_gc_init_pools_witness :
  exists g',
    jl_gc_init BITS64 static_state = Ok tt g' /\
    length (pools g') = Z.to_nat N_POOLS /\
    pools_ok BITS64 g' /\ no_pages g' /\
    Forall (fun p => freelist p = NULL) (pools g') /\
    (forall sz, 1 <= sz <= 2048 ->
       sz + ptr_size BITS64 <=
       osize (nth (Z.to_nat (szclass sz)) (pools g') null_pool)) /\
    heap g' = heap static_state /\
    big_objects g' = big_objects static_state /\
    allocd_bytes g' = allocd_bytes static_state /\
    collect_interval g' = collect_interval static_state.
Proof. apply (jl_gc_init_pools BITS64 static_state). Defined.

(** ** The page list of a pool *)

Lemma preserves_ret {S A} (P : S -> Prop) (a : A) : preserves P (ret a).
Proof. intros s H. exact H. Qed.

Lemma preserves_bind {S A B} (P : S -> Prop) (m : M S A) (k : A -> M S B) :
  preserves P m -> (forall a, preserves P (k a)) -> preserves P (bind m k).
Proof.
  intros Hm Hk s H.
  apply post_bind with (Q1 := P);
    [apply Hm; exact H | auto | intros a s' H'; now apply Hk].
Qed.

Lemma preserves_if {S A} (P : S -> Prop) (b : bool) (m1 m2 : M S A) :
  preserves P m1 -> preserves P m2 -> preserves P (if b then m1 else m2).
Proof. destruct b; auto. Qed.

Lemma preserves_keeps {S A X} (f : S -> X) (P : S -> Prop) (m : M S A) :
  (forall s s', f s' = f s -> P s -> P s') -> keeps f m -> preserves P m.
Proof.
  intros HP Hk s H. eapply post_weaken; [apply Hk|].
  simpl. intros s' E. eapply HP; eauto.
Qed.

Lemma wr_same_pool W l w s :
  l <> LPages -> post (wr W l w) s (same_pool s).
Proof.
  intros Hl. unfold post, wr.
  destruct l; simpl; try congruence; try (split; reflexivity).
  unfold store_word. destruct (valid W (st s) a); split; reflexivity.
Qed.

Lemma rd_state W l s :
  match rd W l s with
  | Ok _ s' | Fault s' | Abort s' => s' = s
  | OutOfFuel => True
  end.
Proof. unfold rd. destruct (read_loc W s l); reflexivity. Qed.

Lemma same_pool_refl s : same_pool s s.
Proof. split; reflexivity. Qed.

Lemma same_pool_trans s1 s2 s3 :
  same_pool s1 s2 -> same_pool s2 s3 -> same_pool s1 s3.
Proof. intros [A1 B1] [A2 B2]. split; congruence. Qed.

Lemma add_page_loop_same_pool W fuel :
  forall lim pfl v s,
    pfl <> LPages ->
    match add_page_loop W fuel lim pfl v s with
    | Ok pfl' s' => pfl' <> LPages /\ same_pool s s'
    | Fault s' | Abort s' => same_pool s s'
    | OutOfFuel => True
    end.
Proof.
  induction fuel as [|fuel IH]; intros lim pfl v s Hp; cbn [add_page_loop].
  - exact I.
  - destruct (v <=? lim).
    + unfold bind at 1. pose proof (wr_same_pool W pfl v s Hp) as Hw.
      unfold post in Hw. destruct (wr W pfl v s) as [[] s1 | s1 | s1 |]; auto.
      unfold bind at 1, p_osize.
      specialize (IH lim (LMem v) (v + osize (pl s1)) s1).
      destruct (add_page_loop W fuel lim (LMem v) (v + osize (pl s1)) s1)
        as [pfl' s2 | s2 | s2 |]; auto.
      * destruct IH as [H1 H2]; [discriminate|].
        split; [exact H1 | eapply same_pool_trans; eauto].
      * eapply same_pool_trans; eauto. apply IH. discriminate.
      * eapply same_pool_trans; eauto. apply IH. discriminate.
    + split; [exact Hp | apply same_pool_refl].
Qed.

(** Sequencing when the value of the first computation matters. *)
Lemma post_bind_val {S A B} (m : M S A) (k : A -> M S B) s
      (Q1 : A -> S -> Prop) (Q2 : S -> Prop) :
  match m s with
  | Ok a s' => Q1 a s'
  | Fault s' | Abort s' => Q2 s'
  | OutOfFuel => True
  end ->
  (forall a s', Q1 a s' -> post (k a) s' Q2) ->
  post (bind m k) s Q2.
Proof.
  unfold post, bind. intros H1 H2.
  destruct (m s) as [a s' | s' | s' |]; auto. apply (H2 a s' H1).
Qed.

Lemma rd_val W l s :
  match rd W l s with
  | Ok a s' => s' = s /\ a = peek s l
  | Fault s' | Abort s' => s' = s
  | OutOfFuel => True
  end.
Proof.
  unfold rd. destruct l; simpl; auto.
  unfold load. destruct (valid W (st s) a); auto.
Qed.

Lemma wr_mem_val W a w s :
  match wr W (LMem a) w s with
  | Ok _ s' => same_pool s s' /\ mem (st s') a = w
  | Fault s' | Abort s' => same_pool s s'
  | OutOfFuel => True
  end.
Proof.
  unfold wr. simpl. unfold store_word.
  destruct (valid W (st s) a); simpl.
  - split; [split; reflexivity | apply upd_same].
  - split; reflexivity.
Qed.

(** Whatever [malloc] answers and however the call ends, [add_page]
    leaves [p->pages] with the value it had: the statement
    [p->pages = pg->next] reads back the link it has just stored. *)
Lemma add_page_never_links :
  forall W r s, post (add_page W r) s (same_pool s).
Proof.
  intros W r s. unfold add_page.
  apply post_bind_val with (Q1 := fun a s' => a = r /\ same_pool s s').
  { split; [reflexivity | split; reflexivity]. }
  intros pg s1 [-> H1].
  apply post_bind_val with (Q1 := fun _ s' => same_pool s s').
  { exact H1. }
  intros osz s1' H1'.
  apply post_bind_val with (Q1 := fun _ s' => same_pool s s').
  { pose proof (rd_val W LFreelist s1') as H.
    destruct (rd W LFreelist s1'); auto; try destruct H; subst; auto. }
  intros oldfl s2 H2.
  apply post_bind_val
    with (Q1 := fun pfl s' => pfl <> LPages /\ same_pool s s').
  { match goal with
    | |- context [add_page_loop W ?f ?l LFreelist ?v s2] =>
        pose proof (add_page_loop_same_pool W f l LFreelist v s2) as H;
        destruct (add_page_loop W f l LFreelist v s2) as [? s3 | s3 | s3 |]
    end; auto.
    - destruct H as [Ha Hb]; [discriminate|].
      split; [exact Ha | eapply same_pool_trans; eauto].
    - eapply same_pool_trans; eauto. apply H. discriminate.
    - eapply same_pool_trans; eauto. apply H. discriminate. }
  intros pfl s3 [Hpfl H3].
  apply post_bind_val with (Q1 := fun _ s' => same_pool s s').
  { pose proof (wr_same_pool W pfl oldfl s3 Hpfl) as H. unfold post in H.
    destruct (wr W pfl oldfl s3); auto; eapply same_pool_trans; eauto. }
  intros _ s4 H4.
  apply post_bind_val
    with (Q1 := fun a s' => same_pool s s' /\ a = pages (pl s')).
  { pose proof (rd_val W LPages s4) as H.
    destruct (rd W LPages s4); auto; try destruct H; subst; auto. }
  intros pgs s5 [H5 ->].
  apply post_bind_val
    with (Q1 := fun _ s' => same_pool s s' /\ mem (st s') r = pages (pl s')).
  { pose proof (wr_mem_val W r (pages (pl s5)) s5) as H.
    destruct (wr W (LMem r) (pages (pl s5)) s5) as [? s6 | s6 | s6 |]; auto;
      try (eapply same_pool_trans; eauto).
    destruct H as [Ha Hb]. split; [eapply same_pool_trans; eauto|].
    rewrite Hb. symmetry. apply Ha. }
  intros _ s6 [H6 Hm].
  apply post_bind_val
    with (Q1 := fun a s' => same_pool s s' /\ a = pages (pl s')).
  { pose proof (rd_val W (LMem r) s6) as H.
    destruct (rd W (LMem r) s6); auto; try destruct H; subst; auto. }
  intros nxt s7 [H7 ->].
  unfold post, wr. cbn [write_loc pl pages osize]. exact H7.
Qed.

Lemma same_pool_shape s s' : same_pool s s' <-> pool_shape s' = pool_shape s.
Proof.
  unfold same_pool, pool_shape. split.
  - intros [-> ->]. reflexivity.
  - intros H. inversion H. auto.
Qed.

Lemma keeps_shape_add_page W r : keeps pool_shape (add_page W r).
Proof.
  intros s. eapply post_weaken; [apply add_page_never_links|].
  intros s' H. now apply same_pool_shape.
Qed.

Lemma keeps_shape_rd W l : keeps pool_shape (rd W l).
Proof.
  intros s. unfold post. pose proof (rd_state W l s) as H.
  destruct (rd W l s); subst; auto.
Qed.

Lemma keeps_shape_wr W l w : l <> LPages -> keeps pool_shape (wr W l w).
Proof.
  intros Hl s. eapply post_weaken; [apply wr_same_pool; exact Hl|].
  intros s' H. now apply same_pool_shape.
Qed.

Lemma keeps_shape_pool_alloc W r : keeps pool_shape (pool_alloc W r).
Proof.
  unfold pool_alloc.
  apply keeps_bind; [apply keeps_shape_rd|intros fl].
  apply keeps_bind.
  { apply keeps_if; [apply keeps_shape_add_page | apply keeps_ret]. }
  intros _. apply keeps_bind; [apply keeps_shape_rd|intros fl'].
  apply keeps_bind.
  { apply keeps_if; [apply keeps_abort | apply keeps_ret]. }
  intros _. apply keeps_bind; [apply keeps_shape_rd|intros v].
  apply keeps_bind; [apply keeps_shape_rd|intros nxt].
  apply keeps_bind; [apply keeps_shape_wr; discriminate|intros _].
  apply keeps_bind; [apply keeps_shape_wr; discriminate|intros _].
  apply keeps_ret.
Qed.

(** A pool without pages: the sweep only clears the free list. *)
Lemma sweep_pool_no_pages W n s :
  pages (pl s) = NULL ->
  sweep_pool W (S n) s = Ok tt (poke s LFreelist NULL).
Proof.
  intros H. unfold sweep_pool, bind. rewrite rd_ok by exact I. cbn [peek].
  rewrite H. cbn [sweep_pages]. rewrite Z.eqb_refl. unfold ret.
  rewrite wr_ok by exact I. reflexivity.
Qed.

Lemma sweep_pool_no_pages_post W fuel s :
  pages (pl s) = NULL ->
  post (sweep_pool W fuel) s
       (fun s' => pages (pl s') = NULL /\ st s' = st s).
Proof.
  intros H. unfold post. destruct fuel as [|n].
  - unfold sweep_pool, bind. rewrite rd_ok by exact I. reflexivity.
  - rewrite sweep_pool_no_pages by exact H. simpl. auto.
Qed.

(** ** The pool table across an allocation *)

Lemma Forall_upd_nth {A} (P : A -> Prop) i x (l : list A) :
  Forall P l -> P x -> Forall P (upd_nth i x l).
Proof.
  intros Hl Hx. revert i.
  induction Hl as [|y l Hy Hl IH]; intros i; destruct i; simpl;
    constructor; auto.
Qed.

Lemma no_pages_nth g i : no_pages g -> pages (nth i (pools g) null_pool) = NULL.
Proof.
  unfold no_pages. intros H. revert i.
  induction H as [|p l Hp Hl IH]; intros i; destruct i; simpl; auto.
Qed.

Lemma preserves_on_heap A (m : M store A) : preserves no_pages (on_heap m).
Proof. intros g H. apply post_lift. intros s. exact H. Qed.

Lemma preserves_on_pool A i (m : M pst A) :
  (forall s, pages (pl s) = NULL ->
             post m s (fun s' => pages (pl s') = NULL)) ->
  preserves no_pages (on_pool i m).
Proof.
  intros Hm g H. unfold on_pool, post, lift.
  specialize (Hm (mkPst (heap g) (nth i (pools g) null_pool))
                 (no_pages_nth g i H)).
  unfold post in Hm.
  destruct (m (mkPst (heap g) (nth i (pools g) null_pool)));
    try exact I; unfold no_pages; cbn [pools]; now apply Forall_upd_nth.
Qed.

Lemma preserves_set_big v : preserves no_pages (set_big_objects v).
Proof. intros g H. exact H. Qed.

Lemma preserves_set_allocd n : preserves no_pages (set_allocd_bytes n).
Proof. intros g H. exact H. Qed.

Lemma preserves_alloc_big W r sz : preserves no_pages (alloc_big W r sz).
Proof.
  unfold alloc_big.
  repeat (apply preserves_bind; [|intros ?]);
    auto using preserves_on_heap, preserves_set_big, preserves_ret.
  intros g H. exact H.
Qed.

Lemma preserves_sweep_big_loop W fuel :
  forall v pv, preserves no_pages (sweep_big_loop W fuel v pv).
Proof.
  induction fuel as [|n IH]; intros v pv; simpl.
  - intros g H. exact I.
  - apply preserves_if; [apply preserves_ret|].
    apply preserves_bind; [apply preserves_on_heap|intros nxt].
    apply preserves_bind; [apply preserves_on_heap|intros fl].
    apply preserves_if.
    + apply preserves_bind; [apply preserves_on_heap|intros _]. apply IH.
    + apply preserves_bind.
      { destruct pv; simpl; auto using preserves_on_heap, preserves_set_big. }
      intros _. apply preserves_bind; [apply preserves_on_heap|intros _].
      apply IH.
Qed.

Lemma preserves_sweep_pools W fuel idx :
  preserves no_pages (sweep_pools W fuel idx).
Proof.
  induction idx as [|i idx IH]; simpl.
  - apply preserves_ret.
  - apply preserves_bind; [|intros _; exact IH].
    apply preserves_on_pool. intros s Hs.
    eapply post_weaken; [apply sweep_pool_no_pages_post; exact Hs|].
    simpl. tauto.
Qed.

Lemma preserves_gc_collect W R fuel : preserves no_pages (gc_collect W R fuel).
Proof.
  unfold gc_collect.
  apply preserves_bind; [intros g H; exact H|intros _].
  apply preserves_bind; [apply preserves_on_heap|intros _].
  apply preserves_bind; [|intros _; apply preserves_set_allocd].
  unfold gc_sweep, sweep_big.
  apply preserves_bind; [|intros _; apply preserves_sweep_pools].
  apply preserves_bind; [intros g H; exact H|intros v].
  apply preserves_sweep_big_loop.
Qed.

(** X4: no call of [allocb], whether it collects or not and however it
    ends, puts a page on the page list of a pool: if every [p->pages]
    is null before the call, as after [jl_gc_init], it is null
    afterwards. *)
Theorem allocb_keeps_no_pages :
  forall W R fuel r sz g,
    no_pages g -> post (allocb W R fuel r sz) g no_pages.
Proof.
  intros W R fuel r sz. change (preserves no_pages (allocb W R fuel r sz)).
  unfold allocb, maybe_collect.
  apply preserves_bind.
  { apply preserves_bind; [intros g H; exact H|intros g].
    apply preserves_if; [apply preserves_gc_collect | apply preserves_ret]. }
  intros _. apply preserves_bind; [intros g H; exact H|intros g].
  apply preserves_bind; [apply preserves_set_allocd|intros _].
  apply preserves_if; [apply preserves_alloc_big|].
  apply preserves_on_pool. intros s Hs.
  eapply post_weaken; [apply keeps_shape_pool_alloc|].
  simpl. intros s' E. inversion E. congruence.
Qed.

Lemma ex_full_gc_no_pages : no_pages ex_full_gc.
Proof. unfold no_pages. vm_compute pools. repeat constructor. Qed.

Lemma allocb_keeps_no_pages_witness :
  no_pages ex_full_gc /\
  post (allocb BITS64 ex_rooted_runtime 3 65536 24) ex_full_gc no_pages.
Proof.
  split; [exact ex_full_gc_no_pages|].
  apply (allocb_keeps_no_pages BITS64 ex_rooted_runtime 3 65536 24 ex_full_gc
           ex_full_gc_no_pages).
Defined.


Lemma nth_upd_nth_same {A} i (x d : A) l :
  (i < length l)%nat -> nth i (upd_nth i x l) d = x.
Proof.
  revert i. induction l as [|y l IH]; intros i H; simpl in H; [lia|].
  destruct i; simpl; auto. apply IH. lia.
Qed.

Lemma nth_upd_nth_other {A} i j (x d : A) l :
  i <> j -> nth j (upd_nth i x l) d = nth j l d.
Proof.
  revert i j. induction l as [|y l IH]; intros i j H.
  - destruct i; reflexivity.
  - destruct i, j; simpl; auto; try congruence.
Qed.

Lemma upd_nth_beyond {A} i (x : A) l : (length l <= i)%nat -> upd_nth i x l = l.
Proof.
  revert i. induction l as [|y l IH]; intros i H.
  - destruct i; reflexivity.
  - destruct i; simpl in *; [lia|]. f_equal. apply IH. lia.
Qed.

Lemma sweep_pools_drains W fuel idx :
  forall g g',
    no_pages g ->
    sweep_pools W fuel idx g = Ok tt g' ->
    no_pages g' /\
    (forall i, In i idx \/ freelist (nth i (pools g) null_pool) = NULL ->
               freelist (nth i (pools g') null_pool) = NULL).
Proof.
  induction idx as [|i idx IH]; intros g g' Hn E; cbn [sweep_pools] in E.
  - inversion E; subst. split; auto. intros i [[] | H]; exact H.
  - unfold bind in E.
    destruct (on_pool i (sweep_pool W fuel) g) as [[] g1 | | |] eqn:E1;
      try discriminate.
    assert (Hg1 : no_pages g1 /\
                  freelist (nth i (pools g1) null_pool) = NULL /\
                  forall j, freelist (nth j (pools g) null_pool) = NULL ->
                            freelist (nth j (pools g1) null_pool) = NULL).
    { unfold on_pool, lift in E1.
      destruct fuel as [|n].
      - unfold sweep_pool, bind in E1. rewrite rd_ok in E1 by exact I.
        discriminate.
      - rewrite sweep_pool_no_pages in E1 by apply (no_pages_nth g i Hn).
        remember (pl (poke (mkPst (heap g) (nth i (pools g) null_pool))
                           LFreelist NULL)) as p' eqn:Ep'.
        assert (Hp' : pages p' = NULL /\ freelist p' = NULL).
        { subst p'. cbn [poke pl pages freelist].
          split; [apply (no_pages_nth g i Hn) | reflexivity]. }
        clear Ep'. injection E1 as <-. cbn [pools].
        split; [|split].
        + unfold no_pages. cbn [pools]. apply Forall_upd_nth; tauto.
        + destruct (Nat.lt_ge_cases i (length (pools g))) as [Hl | Hl].
          * rewrite nth_upd_nth_same by exact Hl. tauto.
          * rewrite upd_nth_beyond by exact Hl.
            rewrite nth_overflow by exact Hl. reflexivity.
        + intros j Hj. destruct (Nat.eq_dec i j) as [<- | Hne].
          * destruct (Nat.lt_ge_cases i (length (pools g))) as [Hl | Hl].
            -- rewrite nth_upd_nth_same by exact Hl. tauto.
            -- rewrite upd_nth_beyond by exact Hl. exact Hj.
          * rewrite nth_upd_nth_other by exact Hne. exact Hj. }
    destruct Hg1 as [Hn1 [Hi Hkeep]].
    destruct (IH g1 g' Hn1 E) as [Hn' Hfl]. split; [exact Hn'|].
    intros j [[<- | Hj] | Hj]; apply Hfl; auto.
Qed.

(** X5: when no pool has a page on its list, which [allocb] keeps
    that way, a collection that returns leaves every pool with an empty
    free list: [sweep_pool] finds no page to walk and ends with
    [*pfl = NULL], so every free cell of the pool is dropped. *)
Theorem gc_collect_drains_pools :
  forall W R fuel g u g',
    no_pages g ->
    gc_collect W R fuel g = Ok u g' ->
    pools_drained g' /\ allocd_bytes g' = 0.
Proof.
  intros W R fuel g u g' Hn E. split; [|eapply gc_collect_allocd; eauto].
  unfold gc_collect, bind in E.
  destruct (count_collection g) as [[] g1 | | |] eqn:E1; try discriminate.
  assert (Hn1 : no_pages g1) by (inversion E1; subst; exact Hn).
  destruct (on_heap (gc_mark W R fuel) g1) as [[] g2 | | |] eqn:E2;
    try discriminate.
  assert (Hn2 : no_pages g2).
  { pose proof (preserves_on_heap _ (gc_mark W R fuel) g1 Hn1) as H.
    unfold post in H. now rewrite E2 in H. }
  destruct (gc_sweep W fuel g2) as [[] g3 | | |] eqn:E3; try discriminate.
  unfold set_allocd_bytes in E. inversion E; subst. clear E.
  unfold gc_sweep, bind in E3.
  destruct (sweep_big W fuel g2) as [[] g4 | | |] eqn:E4; try discriminate.
  assert (Hn4 : no_pages g4).
  { assert (H : preserves no_pages (sweep_big W fuel)).
    { unfold sweep_big. apply preserves_bind; [intros x Hx; exact Hx|intros v].
      apply preserves_sweep_big_loop. }
    specialize (H g2 Hn2). unfold post in H. now rewrite E4 in H. }
  destruct (sweep_pools_drains W fuel _ g4 g3 Hn4 E3) as [Hn3 Hfl].
  intros k Hk. cbn [pools]. split.
  - apply no_pages_nth. exact Hn3.
  - apply Hfl. left. apply in_seq. unfold N_POOLS in *. lia.
Qed.

Lemma gc_collect_drains_pools_witness :
  exists g',
    gc_collect BITS64 ex_rooted_runtime 3 ex_full_gc = Ok tt g' /\
    pools_drained g' /\ allocd_bytes g' = 0.
Proof.
  destruct (gc_collect BITS64 ex_rooted_runtime 3 ex_full_gc)
    as [[] g' | g' | g' |] eqn:E;
    try (vm_compute in E; discriminate).
  exists g'. split; [reflexivity|].
  apply (gc_collect_drains_pools BITS64 ex_rooted_runtime 3 ex_full_gc tt g'
           ex_full_gc_no_pages E).
Defined.

(** ** What the sweep of a pool leaves alone *)

Lemma finalize_clear w : finalize (clear_marked w) = finalize w.
Proof.
  unfold finalize, clear_marked. rewrite Z.ldiff_spec. simpl.
  now rewrite andb_true_r.
Qed.

(** X6: [sweep_pool] gives a page back only if every cell of it is
    free-encoded.  A page of a well-formed pool that holds a cell whose
    [otherbits] are zero, marked or not, stays on the page list and
    stays allocated, and no [free] of it is issued. *)
Theorem sweep_pool_keeps_used_page :
  forall W s pgs fuel pg c,
    wf_pool W s pgs -> (length pgs < fuel)%nat ->
    In pg pgs -> In c (page_cells W (osize (pl s)) pg) ->
    gcv_isfree (mem (st s) c) = false ->
    exists s' pgs',
      sweep_pool W fuel s = Ok tt s' /\
      chain (mem (st s')) (pages (pl s')) pgs' /\
      In pg pgs' /\
      In (pg, GC_PAGE_SZ) (blocks (st s')) /\
      ~ In (EvFree pg) (skipn (length (trace (st s))) (trace (st s'))).
Proof.
  intros W s pgs fuel pg c Hwf Hf Hpg Hc Hfree.
  destruct (sweep_pool_ok W s pgs fuel Hwf Hf)
    as [s' [E [Hch [_ [_ [_ [Hb [Ht _]]]]]]]].
  destruct Hwf as [_ [_ [Hpgs _]]]. rewrite Forall_forall in Hpgs.
  pose proof (not_released W _ (mem (st s)) pgs pg c Hc Hfree) as Hnr.
  exists s', (survivors W (osize (pl s)) (mem (st s)) pgs).
  split; [exact E|]. split; [exact Hch|]. split; [|split].
  - unfold survivors. apply filter_In. split; [exact Hpg|].
    now rewrite (page_not_empty W _ _ pg c Hc Hfree).
  - rewrite Hb. apply without_keeps; [apply Hpgs, Hpg | exact Hnr].
  - rewrite Ht, skipn_app, skipn_all, Nat.sub_diag. cbn [app skipn].
    intros Hin. apply in_map_iff in Hin. destruct Hin as [q [Hq Hin]].
    inversion Hq; subst. contradiction.
Qed.

Lemma ex_marked_wf : wf_pool BITS64 ex_marked_pst ex_pages.
Proof.
  split; [simpl; lia|]. split; [|split].
  - simpl. unfold NULL. repeat split; lia.
  - constructor; [|constructor]. split; [lia | now left].
  - simpl. auto.
Qed.

Lemma ex_marked_cell :
  In 65544 (page_cells BITS64 (osize (pl ex_marked_pst)) 65536).
Proof. vm_compute. auto. Qed.

Lemma sweep_pool_keeps_used_page_witness :
  wf_pool BITS64 ex_marked_pst ex_pages /\
  (length ex_pages < 2)%nat /\
  In 65536 ex_pages /\
  In 65544 (page_cells BITS64 (osize (pl ex_marked_pst)) 65536) /\
  gcv_isfree (mem (st ex_marked_pst) 65544) = false /\
  exists s' pgs',
    sweep_pool BITS64 2 ex_marked_pst = Ok tt s' /\
    chain (mem (st s')) (pages (pl s')) pgs' /\
    In 65536 pgs' /\
    In (65536, GC_PAGE_SZ) (blocks (st s')) /\
    ~ In (EvFree 65536)
         (skipn (length (trace (st ex_marked_pst))) (trace (st s'))).
Proof.
  assert (H2 : (length ex_pages < 2)%nat) by (simpl; lia).
  assert (H3 : In 65536 ex_pages) by (left; reflexivity).
  assert (H5 : gcv_isfree (mem (st ex_marked_pst) 65544) = false)
    by reflexivity.
  split; [exact ex_marked_wf|]. split; [exact H2|]. split; [exact H3|].
  split; [exact ex_marked_cell|]. split; [exact H5|].
  apply (sweep_pool_keeps_used_page BITS64 ex_marked_pst ex_pages 2 65536 65544
           ex_marked_wf H2 H3 ex_marked_cell H5).
Defined.

(** X7: [sweep_pool] never puts a marked live cell on the free list.
    For a cell of a page of a well-formed pool that is marked and not
    free-encoded when the sweep begins, the sweep returns with the cell
    absent from the new free list, its mark cleared, and its [finalize]
    bit and [otherbits] as they were. *)
Theorem sweep_pool_spares_marked :
  forall W s pgs fuel pg c,
    wf_pool W s pgs -> (length pgs < fuel)%nat ->
    In pg pgs -> In c (page_cells W (osize (pl s)) pg) ->
    gcv_isfree (mem (st s) c) = false -> marked (mem (st s) c) = true ->
    exists s' fl,
      sweep_pool W fuel s = Ok tt s' /\
      chain (mem (st s')) (freelist (pl s')) fl /\
      ~ In c fl /\
      mem (st s') c = clear_marked (mem (st s) c) /\
      marked (mem (st s') c) = false /\
      finalize (mem (st s') c) = finalize (mem (st s) c) /\
      otherbits (mem (st s') c) = otherbits (mem (st s) c).
Proof.
  intros W s pgs fuel pg c Hwf Hf Hpg Hc Hfree Hm.
  destruct (sweep_pool_ok W s pgs fuel Hwf Hf)
    as [s' [E [_ [Hfl [_ [Hlive _]]]]]].
  assert (Hk : cell_kept (mem (st s) c) = false)
    by (unfold cell_kept; now rewrite Hfree, Hm).
  assert (Hs : In pg (survivors W (osize (pl s)) (mem (st s)) pgs)).
  { unfold survivors. apply filter_In. split; [exact Hpg|].
    now rewrite (page_not_empty W _ _ pg c Hc Hfree). }
  assert (Hcl : mem (st s') c = clear_marked (mem (st s) c)).
  { apply Hlive. apply in_live. eauto. }
  exists s', (flat_map (kept_cells W (osize (pl s)) (mem (st s)))
                       (survivors W (osize (pl s)) (mem (st s)) pgs)).
  split; [exact E|]. split; [exact Hfl|]. split.
  - intros Hin. apply in_kept in Hin. destruct Hin as [q [_ [_ Hq]]]. congruence.
  - split; [exact Hcl|]. rewrite Hcl.
    split; [apply marked_clear|]. split; [apply finalize_clear|].
    apply otherbits_clear.
Qed.

Lemma sweep_pool_spares_marked_witness :
  wf_pool BITS64 ex_marked_pst ex_pages /\
  (length ex_pages < 2)%nat /\
  In 65536 ex_pages /\
  In 65544 (page_cells BITS64 (osize (pl ex_marked_pst)) 65536) /\
  gcv_isfree (mem (st ex_marked_pst) 65544) = false /\
  marked (mem (st ex_marked_pst) 65544) = true /\
  exists s' fl,
    sweep_pool BITS64 2 ex_marked_pst = Ok tt s' /\
    chain (mem (st s')) (freelist (pl s')) fl /\
    ~ In 65544 fl /\
    mem (st s') 65544 = clear_marked (mem (st ex_marked_pst) 65544) /\
    marked (mem (st s') 65544) = false /\
    finalize (mem (st s') 65544) = finalize (mem (st ex_marked_pst) 65544) /\
    otherbits (mem (st s') 65544) = otherbits (mem (st ex_marked_pst) 65544).
Proof.
  assert (H2 : (length ex_pages < 2)%nat) by (simpl; lia).
  assert (H3 : In 65536 ex_pages) by (left; reflexivity).
  assert (H5 : gcv_isfree (mem (st ex_marked_pst) 65544) = false)
    by reflexivity.
  assert (H6 : marked (mem (st ex_marked_pst) 65544) = true) by reflexivity.
  split; [exact ex_marked_wf|]. split; [exact H2|]. split; [exact H3|].
  split; [exact ex_marked_cell|]. split; [exact H5|]. split; [exact H6|].
  apply (sweep_pool_spares_marked BITS64 ex_marked_pst ex_pages 2 65536 65544
           ex_marked_wf H2 H3 ex_marked_cell H5 H6).
Defined.

(** ** The sweep of the big-object list *)

Lemma chain_frame m m' a l :
  chain m a l -> (forall c, In c l -> m' c = m c) -> chain m' a l.
Proof.
  revert a. induction l as [|c l IH]; intros a H Hm; simpl in *; auto.
  destruct H as [-> [Hc H]]. split; [reflexivity|]. split; [exact Hc|].
  rewrite Hm by auto. apply IH; auto.
Qed.

Lemma big_block_valid W s v :
  big_block W s v ->
  valid W s v = true /\ valid W s (v + ptr_size W) = true.
Proof.
  intros [n [Hin Hn]]. pose proof (ptr_size_pos W).
  split; apply valid_intro with (b := (v, n)); simpl; auto; lia.
Qed.

Lemma s_free_ok v n s :
  In (v, n) (blocks s) ->
  s_free v s = Ok tt (mkStore (mem s) (without [v] (blocks s))
                              (trace s ++ [EvFree v]) (visited s)).
Proof.
  intros Hin. unfold s_free, free.
  replace (existsb (fun b => fst b =? v) (blocks s)) with true.
  - unfold without. do 2 f_equal. apply filter_ext. intros b. simpl.
    now rewrite orb_false_r.
  - symmetry. apply existsb_exists. exists (v, n). split; auto.
    simpl. apply Z.eqb_refl.
Qed.

Lemma hdr_apart_neq W a b : hdr_apart W a b -> a <> b.
Proof. pose proof (ptr_size_pos W). unfold hdr_apart. lia. Qed.

Lemma big_block_without W s s' v gone :
  big_block W s v -> ~ In v gone ->
  blocks s' = without gone (blocks s) -> big_block W s' v.
Proof.
  intros [n [Hin Hn]] Hg Hb. exists n. split; auto.
  rewrite Hb. now apply without_keeps.
Qed.

Lemma in_hdr_words W vs a :
  In a (hdr_words W vs) <-> exists v, In v vs /\ (a = v \/ a = v + ptr_size W).
Proof.
  unfold hdr_words. rewrite in_flat_map. split.
  - intros [v [Hv [H | [H | []]]]]; exists v; auto.
  - intros [v [Hv [H | H]]]; exists v; simpl; auto.
Qed.

Lemma apart_not_hdr W u rest a :
  Forall (hdr_apart W u) rest -> a = u \/ a = u + ptr_size W ->
  ~ In a (hdr_words W rest).
Proof.
  intros Hf Ha Hin. apply in_hdr_words in Hin. destruct Hin as [v [Hv Hav]].
  rewrite Forall_forall in Hf. specialize (Hf v Hv).
  pose proof (ptr_size_pos W). unfold hdr_apart in Hf. lia.
Qed.

Lemma big_kept_ext W m m' vs :
  (forall v, In v vs -> m' (v + ptr_size W) = m (v + ptr_size W)) ->
  big_kept W m' vs = big_kept W m vs /\ big_gone W m' vs = big_gone W m vs.
Proof.
  intros H. unfold big_kept, big_gone, big_marked.
  split; apply filter_ext_in; intros v Hv; now rewrite H.
Qed.

Lemma same_globals_refl g : same_globals g g.
Proof. repeat split. Qed.

Lemma same_globals_trans g1 g2 g3 :
  same_globals g1 g2 -> same_globals g2 g3 -> same_globals g1 g3.
Proof.
  unfold same_globals. intros [A1 [A2 [A3 [A4 A5]]]] [B1 [B2 [B3 [B4 B5]]]].
  repeat split; congruence.
Qed.

Section SweepBig.

Variable W : arch.

Let w := ptr_size W.

(** The loop of [sweep_big] from an object [v] of the list, with the
    cursor [pv] holding [v]. *)
Lemma sweep_big_loop_ok rest :
  forall fuel v pv g,
    chain (mem (heap g)) v rest ->
    Forall (big_block W (heap g)) rest ->
    big_apart W rest ->
    bloc_ok W g pv rest ->
    peekb g pv = v ->
    (length rest < fuel)%nat ->
    exists g',
      sweep_big_loop W fuel v pv g = Ok tt g' /\
      chain (mem (heap g')) (peekb g' pv) (big_kept W (mem (heap g)) rest) /\
      (forall c, In c (big_kept W (mem (heap g)) rest) ->
         mem (heap g') (c + w) = clear_marked (mem (heap g) (c + w))) /\
      (forall a, ~ In a (hdr_words W rest) -> pv <> BNext a ->
         mem (heap g') a = mem (heap g) a) /\
      (pv <> BHead -> big_objects g' = big_objects g) /\
      blocks (heap g') =
        without (big_gone W (mem (heap g)) rest) (blocks (heap g)) /\
      trace (heap g') =
        trace (heap g) ++ map EvFree (big_gone W (mem (heap g)) rest) /\
      same_globals g g'.
Proof.
  pose proof (ptr_size_pos W) as Hw. fold w in Hw.
  induction rest as [|v0 rest IH]; intros fuel v pv g Hch Hbl Hap Hpv Hpk Hf;
    (destruct fuel as [|fuel]; [simpl in Hf; lia|]); cbn [sweep_big_loop].
  - simpl in Hch. rewrite Hch in *. rewrite Z.eqb_refl.
    exists g. cbn [big_kept big_gone filter map]. rewrite without_nil, app_nil_r.
    split; [reflexivity|]. split; [exact Hpk|].
    split; [intros c []|]. split; [reflexivity|]. split; [reflexivity|].
    split; [reflexivity|]. split; [reflexivity|]. apply same_globals_refl.
  - destruct Hch as [-> [Hv0 Hch]].
    destruct (Z.eqb_spec v0 NULL) as [E|_]; [contradiction|].
    apply Forall_cons_iff in Hbl. destruct Hbl as [Hb0 Hbl].
    destruct Hap as [Hap0 Hap].
    destruct (big_block_valid W _ _ Hb0) as [Hval0 Hval1]. fold w in Hval1.
    destruct g as [s big pls ab ci cl]. cbn [heap big_objects] in *.
    set (m0 := mem s) in *.
    unfold bind at 1, on_heap at 1, lift, s_load, load. cbn [heap].
    rewrite Hval0.
    unfold bind at 1, on_heap at 1, lift, s_load, load. cbn [heap].
    fold w. rewrite Hval1. fold m0.
    cbn [heap big_objects pools allocd_bytes collect_interval collections].
    assert (Hrest_ne : forall c, In c rest -> c <> v0 /\ c + w <> v0 + w /\
                                         c <> v0 + w /\ c + w <> v0).
    { intros c Hc. rewrite Forall_forall in Hap0. specialize (Hap0 c Hc).
      unfold hdr_apart in Hap0. fold w in Hap0. lia. }
    destruct (marked (m0 (v0 + w))) eqn:Em.
    + (* the object is marked: keep it, clear the mark *)
      unfold bind at 1, on_heap at 1, lift, s_store, store_word. cbn [heap].
      rewrite Hval1.
      set (s1 := mkStore (upd m0 (v0 + w) (clear_marked (m0 (v0 + w))))
                         (blocks s) (trace s) (visited s)).
      set (g1 := mkGc s1 big pls ab ci cl).
      assert (Hm1 : forall c, In c rest -> mem s1 (c + w) = m0 (c + w)).
      { intros c Hc. unfold s1. cbn [mem]. apply upd_other.
        pose proof (Hrest_ne c Hc); tauto. }
      destruct (big_kept_ext W m0 (mem s1) rest Hm1) as [Ek Eg].
      destruct (IH fuel (m0 v0) (BNext v0) g1) as
          [g' [E [Hc' [Hcl [Hfr [Hbo [Hb [Ht Hsg]]]]]]]].
      * unfold g1, s1. cbn [heap mem]. eapply chain_frame; [exact Hch|].
        intros c Hc. apply upd_other. pose proof (Hrest_ne c Hc); tauto.
      * unfold g1. cbn [heap]. eapply Forall_impl; [|exact Hbl].
        intros c Hc. exact Hc.
      * exact Hap.
      * split; [exact Hb0 | exact Hap0].
      * unfold g1, s1. cbn [peekb heap mem]. apply upd_other. lia.
      * simpl in Hf. lia.
      * unfold g1 in *. cbn [heap big_objects] in *. rewrite Ek in Hc', Hcl. rewrite Eg in Hb, Ht.
        exists g'. split; [exact E|].
        assert (Hv0w : mem (heap g') (v0 + w) = clear_marked (m0 (v0 + w))).
        { rewrite Hfr.
          - unfold s1. cbn [mem]. apply upd_same.
          - apply (apart_not_hdr W v0); auto.
          - intros H. inversion H. lia. }
        assert (Hpv' : peekb g' pv = v0).
        { destruct pv as [|u].
          - cbn [peekb] in *. rewrite Hbo by discriminate. exact Hpk.
          - cbn [peekb heap] in *. destruct Hpv as [_ Hu].
            apply Forall_cons_iff in Hu. destruct Hu as [Hu0 Hu].
            rewrite Hfr.
            + unfold s1. cbn [mem]. rewrite upd_other; [exact Hpk|].
              unfold hdr_apart in Hu0. fold w in Hu0. lia.
            + apply (apart_not_hdr W u); auto.
            + intros H. inversion H. apply hdr_apart_neq in Hu0. congruence. }
        unfold big_kept, big_gone, big_marked. cbn [filter]. fold w.
        rewrite Em. cbn [negb].
        fold (big_marked W m0). fold (big_kept W m0 rest).
        change (filter (fun v => negb (big_marked W m0 v)) rest)
          with (big_gone W m0 rest).
        split; [|split; [|split; [|split; [|split; [|split]]]]].
        -- cbn [chain]. split; [exact Hpv'|]. split; [exact Hv0|].
           cbn [peekb] in Hc'. exact Hc'.
        -- intros c [<- | Hc]; [exact Hv0w|].
           rewrite Hcl by exact Hc. f_equal. apply Hm1.
           unfold big_kept in Hc. apply filter_In in Hc. tauto.
        -- intros a Ha Hne.
           assert (Ha1 : a <> v0 /\ a <> v0 + w /\ ~ In a (hdr_words W rest)).
           { unfold hdr_words in *. cbn [flat_map] in Ha. fold w in Ha.
             rewrite in_app_iff in Ha. simpl in Ha. intuition congruence. }
           destruct Ha1 as [A1 [A2 A3]].
           rewrite Hfr; [|exact A3|intros H; inversion H; congruence].
           unfold s1. cbn [mem]. apply upd_other. exact A2.
        -- intros Hne. rewrite Hbo by discriminate. reflexivity.
        -- exact Hb.
        -- exact Ht.
        -- exact Hsg.
    + (* the object is not marked: unlink and free it *)
      destruct Hb0 as [n0 [Hin0 Hn0]].
      assert (Hwb : exists g1,
                 write_bloc W pv (m0 v0) (mkGc s big pls ab ci cl) = Ok tt g1 /\
                 peekb g1 pv = m0 v0 /\
                 blocks (heap g1) = blocks s /\ trace (heap g1) = trace s /\
                 same_globals (mkGc s big pls ab ci cl) g1 /\
                 (pv <> BHead -> big_objects g1 = big) /\
                 (forall a, pv <> BNext a -> mem (heap g1) a = m0 a)).
      { destruct pv as [|u].
        - eexists. split; [reflexivity|]. cbn [peekb big_objects heap].
          repeat split; auto. congruence.
        - destruct Hpv as [Hbu _].
          destruct (big_block_valid W _ _ Hbu) as [Hvu _]. cbn [heap] in Hvu.
          unfold write_bloc, on_heap, lift, s_store, store_word. cbn [heap].
          rewrite Hvu. eexists. split; [reflexivity|].
          cbn [peekb heap mem blocks trace big_objects].
          split; [apply upd_same|]. repeat split; auto.
          intros a Ha. apply upd_other. congruence. }
      destruct Hwb as [g1 [E1 [Hpk1 [Hb1 [Ht1 [Hsg1 [Hbo1 Hfr1]]]]]]].
      unfold bind at 1. rewrite E1.
      unfold bind at 1, on_heap at 1, lift.
      rewrite (s_free_ok v0 n0) by (rewrite Hb1; exact Hin0).
      set (s2 := mkStore (mem (heap g1)) (without [v0] (blocks (heap g1)))
                         (trace (heap g1) ++ [EvFree v0]) (visited (heap g1))).
      set (g2 := mkGc s2 (big_objects g1) (pools g1) (allocd_bytes g1)
                      (collect_interval g1) (collections g1)).
      assert (Hu_rest : forall c, In c rest -> pv <> BNext c /\ pv <> BNext (c + w)).
      { intros c Hc. destruct pv as [|u]; [split; discriminate|].
        destruct Hpv as [_ Hu]. apply Forall_cons_iff in Hu.
        destruct Hu as [_ Hu]. rewrite Forall_forall in Hu.
        specialize (Hu c Hc). unfold hdr_apart in Hu. fold w in Hu.
        split; intros H; inversion H; lia. }
      assert (Hm2 : forall c, In c rest -> mem s2 (c + w) = m0 (c + w)).
      { intros c Hc. unfold s2. cbn [mem]. apply Hfr1. pose proof (Hu_rest c Hc); tauto. }
      destruct (big_kept_ext W m0 (mem s2) rest Hm2) as [Ek Eg].
      destruct (IH fuel (m0 v0) pv g2) as
          [g' [E [Hc' [Hcl [Hfr [Hbo [Hb [Ht Hsg]]]]]]]].
      * unfold g2, s2. cbn [heap mem]. eapply chain_frame; [exact Hch|].
        intros c Hc. apply Hfr1. pose proof (Hu_rest c Hc); tauto.
      * unfold g2. cbn [heap]. rewrite Forall_forall in *. intros c Hc.
        apply (big_block_without W s s2 c [v0]); auto.
        -- intros [H | []]. pose proof (Hrest_ne c Hc). intuition congruence.
        -- unfold s2. cbn [blocks]. now rewrite Hb1.
      * exact Hap.
      * destruct pv as [|u]; [exact I|]. destruct Hpv as [Hbu Hu].
        apply Forall_cons_iff in Hu. destruct Hu as [Hu0 Hu].
        split; [|exact Hu]. unfold g2. cbn [heap].
        apply (big_block_without W s s2 u [v0]); auto.
        -- intros [H | []]. apply hdr_apart_neq in Hu0. congruence.
        -- unfold s2. cbn [blocks]. now rewrite Hb1.
      * destruct pv; exact Hpk1.
      * simpl in Hf. lia.
      * unfold g2 in *. cbn [heap big_objects] in *. rewrite Ek in Hc', Hcl. rewrite Eg in Hb, Ht.
        exists g'. split; [exact E|].
        unfold big_kept, big_gone, big_marked. cbn [filter]. fold w.
        rewrite Em. cbn [negb map].
        fold (big_marked W m0). fold (big_kept W m0 rest).
        change (filter (fun v => negb (big_marked W m0 v)) rest)
          with (big_gone W m0 rest).
        split; [|split; [|split; [|split; [|split; [|split]]]]].
        -- destruct pv; exact Hc'.
        -- intros c Hc. rewrite Hcl by exact Hc. f_equal. apply Hm2.
           unfold big_kept in Hc. apply filter_In in Hc. tauto.
        -- intros a Ha Hne.
           assert (Ha1 : ~ In a (hdr_words W rest)).
           { unfold hdr_words in *. cbn [flat_map] in Ha.
             rewrite in_app_iff in Ha. tauto. }
           rewrite Hfr by auto. unfold s2. cbn [mem]. auto.
        -- intros Hne. rewrite Hbo by exact Hne. auto.
        -- rewrite Hb. unfold s2. cbn [blocks]. rewrite Hb1.
           apply without_without.
        -- rewrite Ht. unfold s2. cbn [trace]. rewrite Ht1.
           now rewrite <- app_assoc.
        -- eapply same_globals_trans; [exact Hsg1|].
           eapply same_globals_trans; [|exact Hsg].
           unfold s2. repeat split.
Qed.

End SweepBig.

Lemma big_apart_filter W f vs : big_apart W vs -> big_apart W (filter f vs).
Proof.
  induction vs as [|a vs IH]; simpl; auto.
  intros [Ha Hvs]. destruct (f a); simpl; auto.
  split; auto. rewrite Forall_forall in *. intros b Hb.
  apply Ha. apply filter_In in Hb. tauto.
Qed.

Lemma kept_not_gone W m vs v : In v (big_kept W m vs) -> ~ In v (big_gone W m vs).
Proof.
  unfold big_kept, big_gone. rewrite !filter_In. intros [_ H1] [_ H2].
  rewrite H1 in H2. discriminate.
Qed.

Lemma gone_not_based p gone bl :
  In p gone -> ~ In p (map fst (without gone bl)).
Proof.
  intros Hp Hin. apply in_map_iff in Hin. destruct Hin as [b [<- Hb]].
  unfold without in Hb. apply filter_In in Hb. destruct Hb as [_ Hb].
  apply negb_true_iff in Hb.
  assert (existsb (Z.eqb (fst b)) gone = true); [|congruence].
  apply existsb_exists. exists (fst b). split; auto. apply Z.eqb_refl.
Qed.

(** X8: on a well-formed big-object list, [sweep_big] returns, frees
    each unmarked object exactly once in list order and nothing else,
    and leaves the marked objects linked in their old order with their
    marks cleared; no word outside the headers of the listed objects is
    written, and the pools and counters are untouched. *)
Theorem sweep_big_frees_unmarked :
  forall W g vs fuel,
    wf_big W (heap g) (big_objects g) vs -> (length vs < fuel)%nat ->
    exists g',
      sweep_big W fuel g = Ok tt g' /\
      wf_big W (heap g') (big_objects g') (big_kept W (mem (heap g)) vs) /\
      (forall v, In v (big_kept W (mem (heap g)) vs) ->
         mem (heap g') (v + ptr_size W) =
           clear_marked (mem (heap g) (v + ptr_size W)) /\
         big_marked W (mem (heap g')) v = false) /\
      (forall a, ~ In a (hdr_words W vs) -> mem (heap g') a = mem (heap g) a) /\
      blocks (heap g') =
        without (big_gone W (mem (heap g)) vs) (blocks (heap g)) /\
      trace (heap g') =
        trace (heap g) ++ map EvFree (big_gone W (mem (heap g)) vs) /\
      same_globals g g'.
Proof.
  intros W g vs fuel [Hch [Hbl Hap]] Hf.
  destruct (sweep_big_loop_ok W vs fuel (big_objects g) BHead g Hch Hbl Hap I
                              eq_refl Hf)
    as [g' [E [Hc' [Hcl [Hfr [_ [Hb [Ht Hsg]]]]]]]].
  exists g'. unfold sweep_big, bind. split; [exact E|].
  split; [|split; [|split; [|split; [|split]]]]; auto.
  - split; [exact Hc'|]. split; [|now apply big_apart_filter].
    rewrite Forall_forall in *. intros v Hv.
    apply (big_block_without W (heap g) (heap g') v
                             (big_gone W (mem (heap g)) vs)); auto.
    + apply Hbl. unfold big_kept in Hv. apply filter_In in Hv. tauto.
    + now apply kept_not_gone.
  - intros v Hv. split; [now apply Hcl|].
    unfold big_marked. rewrite Hcl by exact Hv.
    unfold marked, clear_marked. rewrite Z.ldiff_spec. simpl.
    now rewrite andb_false_r.
  - intros a Ha. apply Hfr; [exact Ha | discriminate].
Qed.

Lemma ex_big_wf : wf_big BITS64 (heap ex_big_gc) (big_objects ex_big_gc) ex_bigs.
Proof.
  split; [|split].
  - simpl. unfold NULL. repeat split; lia.
  - repeat constructor.
    + exists 48. split; [now left | simpl; lia].
    + exists 48. split; [right; now left | simpl; lia].
  - simpl. repeat split; auto. constructor; [|constructor].
    unfold hdr_apart. simpl. lia.
Qed.

Lemma sweep_big_frees_unmarked_witness :
  wf_big BITS64 (heap ex_big_gc) (big_objects ex_big_gc) ex_bigs /\
  (length ex_bigs < 3)%nat /\
  exists g',
    sweep_big BITS64 3 ex_big_gc = Ok tt g' /\
    wf_big BITS64 (heap g') (big_objects g')
           (big_kept BITS64 (mem (heap ex_big_gc)) ex_bigs) /\
    (forall v, In v (big_kept BITS64 (mem (heap ex_big_gc)) ex_bigs) ->
       mem (heap g') (v + ptr_size BITS64) =
         clear_marked (mem (heap ex_big_gc) (v + ptr_size BITS64)) /\
       big_marked BITS64 (mem (heap g')) v = false) /\
    (forall a, ~ In a (hdr_words BITS64 ex_bigs) ->
       mem (heap g') a = mem (heap ex_big_gc) a) /\
    blocks (heap g') =
      without (big_gone BITS64 (mem (heap ex_big_gc)) ex_bigs)
              (blocks (heap ex_big_gc)) /\
    trace (heap g') =
      trace (heap ex_big_gc) ++
      map EvFree (big_gone BITS64 (mem (heap ex_big_gc)) ex_bigs) /\
    same_globals ex_big_gc g'.
Proof.
  assert (H2 : (length ex_bigs < 3)%nat) by (simpl; lia).
  split; [exact ex_big_wf|]. split; [exact H2|].
  apply (sweep_big_frees_unmarked BITS64 ex_big_gc ex_bigs 3 ex_big_wf H2).
Defined.

(** The list of the example: the marked object stays, the other is
    freed. *)
Example sweep_big_example :
  big_kept BITS64 (mem (heap ex_big_gc)) ex_bigs = [8192] /\
  big_gone BITS64 (mem (heap ex_big_gc)) ex_bigs = [4096].
Proof. split; reflexivity. Qed.

(** [alloc_big] pushes the new object on the front of the big-object
    list with a cleared flags word. *)
Lemma alloc_big_wf :
  forall W g vs r sz,
    wf_big W (heap g) (big_objects g) vs ->
    0 < r -> 0 <= sz -> sz + 2 * ptr_size W < word_mod W ->
    Forall (hdr_apart W r) vs ->
    exists g1,
      alloc_big W r sz g = Ok (r + 2 * ptr_size W) g1 /\
      wf_big W (heap g1) (big_objects g1) (r :: vs) /\
      big_marked W (mem (heap g1)) r = false /\
      (forall v, In v vs ->
         big_marked W (mem (heap g1)) v = big_marked W (mem (heap g)) v) /\
      same_globals g g1.
Proof.
  intros W g vs r sz [Hch [Hbl Hap]] Hr Hsz Hov Hfresh.
  pose proof (ptr_size_pos W) as Hw.
  rewrite (alloc_big_ok W r sz g Hr Hsz Hov).
  set (m1 := upd (upd (mem (heap g)) r (big_objects g)) (r + ptr_size W) 0).
  set (s1 := mkStore m1 ((r, sz + 2 * ptr_size W) :: blocks (heap g))
                     (trace (heap g) ++ [EvMalloc (sz + 2 * ptr_size W) r])
                     (visited (heap g))).
  exists (mkGc s1 r (pools g) (allocd_bytes g) (collect_interval g)
               (collections g)).
  split; [reflexivity|].
  change (heap (mkGc s1 r (pools g) (allocd_bytes g) (collect_interval g)
                     (collections g))) with s1.
  change (big_objects (mkGc s1 r (pools g) (allocd_bytes g)
                            (collect_interval g) (collections g))) with r.
  change (mem s1) with m1.
  assert (Hne : forall c, In c vs ->
                  c <> r /\ c <> r + ptr_size W /\
                  c + ptr_size W <> r /\ c + ptr_size W <> r + ptr_size W).
  { intros c Hc. rewrite Forall_forall in Hfresh. specialize (Hfresh c Hc).
    unfold hdr_apart in Hfresh. lia. }
  split; [|split; [|split]].
  - split; [|split].
    + cbn [chain]. split; [reflexivity|]. split; [unfold NULL; lia|].
      assert (Hm1r : m1 r = big_objects g)
        by (unfold m1; rewrite upd_other by lia; apply upd_same).
      change (mem s1) with m1. rewrite Hm1r.
      eapply chain_frame; [exact Hch|]. intros c Hc.
      pose proof (Hne c Hc). unfold m1. rewrite !upd_other; tauto.
    + constructor.
      * exists (sz + 2 * ptr_size W). split; [now left | lia].
      * rewrite Forall_forall in *. intros c Hc.
        destruct (Hbl c Hc) as [n [Hin Hn]]. exists n.
        split; [now right | exact Hn].
    + split; [exact Hfresh | exact Hap].
  - unfold big_marked. change (mem s1) with m1. unfold m1.
    rewrite upd_same. reflexivity.
  - intros v Hv. unfold big_marked. change (mem s1) with m1. unfold m1.
    pose proof (Hne v Hv).
    rewrite !upd_other; tauto.
  - repeat split.
Qed.

Lemma ex_big_fresh : Forall (hdr_apart BITS64 65536) ex_bigs.
Proof. repeat constructor; unfold hdr_apart; simpl; lia. Qed.

(** X9: a big object that is allocated and not marked is given back
    by the next sweep.  When [malloc] answers a block away from the
    headers of the listed objects and the size does not wrap,
    [alloc_big] returns the address two words into the block and leaves
    a well-formed list with the new object first and unmarked; the
    [sweep_big] that follows frees that block, so that no live block is
    based at it any more, and keeps exactly the objects of the old list
    that were marked. *)
Theorem alloc_big_unmarked_is_swept :
  forall W g vs r sz fuel,
    wf_big W (heap g) (big_objects g) vs ->
    0 < r -> 0 <= sz -> sz + 2 * ptr_size W < word_mod W ->
    Forall (hdr_apart W r) vs ->
    (S (length vs) < fuel)%nat ->
    exists g1 g2,
      alloc_big W r sz g = Ok (r + 2 * ptr_size W) g1 /\
      wf_big W (heap g1) (big_objects g1) (r :: vs) /\
      big_objects g1 = r /\
      sweep_big W fuel g1 = Ok tt g2 /\
      chain (mem (heap g2)) (big_objects g2) (big_kept W (mem (heap g)) vs) /\
      ~ In r (map fst (blocks (heap g2))) /\
      In (EvFree r) (skipn (length (trace (heap g1))) (trace (heap g2))).
Proof.
  intros W g vs r sz fuel Hwf Hr Hsz Hov Hfresh Hf.
  destruct (alloc_big_wf W g vs r sz Hwf Hr Hsz Hov Hfresh)
    as [g1 [E1 [Hwf1 [Hm1 [Hms _]]]]].
  pose proof Hwf1 as [Hch1 [Hbl1 Hap1]].
  assert (Hbo : big_objects g1 = r) by (simpl in Hch1; tauto).
  destruct (sweep_big_loop_ok W (r :: vs) fuel (big_objects g1) BHead g1
                              Hch1 Hbl1 Hap1 I eq_refl Hf)
    as [g2 [E2 [Hc2 [_ [_ [_ [Hb2 [Ht2 _]]]]]]]].
  assert (Ek : big_kept W (mem (heap g1)) (r :: vs) =
               big_kept W (mem (heap g)) vs).
  { unfold big_kept. cbn [filter]. rewrite Hm1.
    apply filter_ext_in. exact Hms. }
  assert (Eg : In r (big_gone W (mem (heap g1)) (r :: vs))).
  { unfold big_gone. cbn [filter]. rewrite Hm1. now left. }
  exists g1, g2. split; [exact E1|]. split; [exact Hwf1|].
  split; [exact Hbo|]. split; [exact E2|]. split; [|split].
  - rewrite <- Ek. exact Hc2.
  - rewrite Hb2. now apply gone_not_based.
  - rewrite Ht2, skipn_app, skipn_all, Nat.sub_diag. cbn [app skipn].
    now apply in_map.
Qed.

Lemma alloc_big_unmarked_is_swept_witness :
  wf_big BITS64 (heap ex_big_gc) (big_objects ex_big_gc) ex_bigs /\
  0 < 65536 /\ 0 <= 4096 /\ 4096 + 2 * ptr_size BITS64 < word_mod BITS64 /\
  Forall (hdr_apart BITS64 65536) ex_bigs /\
  (S (length ex_bigs) < 4)%nat /\
  exists g1 g2,
    alloc_big BITS64 65536 4096 ex_big_gc =
      Ok (65536 + 2 * ptr_size BITS64) g1 /\
    wf_big BITS64 (heap g1) (big_objects g1) (65536 :: ex_bigs) /\
    big_objects g1 = 65536 /\
    sweep_big BITS64 4 g1 = Ok tt g2 /\
    chain (mem (heap g2)) (big_objects g2)
          (big_kept BITS64 (mem (heap ex_big_gc)) ex_bigs) /\
    ~ In 65536 (map fst (blocks (heap g2))) /\
    In (EvFree 65536) (skipn (length (trace (heap g1))) (trace (heap g2))).
Proof.
  assert (H2 : 0 < 65536) by lia.
  assert (H3 : 0 <= 4096) by lia.
  assert (H4 : 4096 + 2 * ptr_size BITS64 < word_mod BITS64)
    by (unfold word_mod; simpl; lia).
  assert (H6 : (S (length ex_bigs) < 4)%nat) by (simpl; lia).
  split; [exact ex_big_wf|]. split; [exact H2|]. split; [exact H3|].
  split; [exact H4|]. split; [exact ex_big_fresh|]. split; [exact H6|].
  apply (alloc_big_unmarked_is_swept BITS64 ex_big_gc ex_bigs 65536 4096 4
           ex_big_wf H2 H3 H4 ex_big_fresh H6).
Defined.

(** ** The tracer keeps the tricolour invariant *)

Lemma bind_ok {S A B} (m : M S A) (k : A -> M S B) s b s' :
  (x <- m ;; k x) s = Ok b s' ->
  exists a s1, m s = Ok a s1 /\ k a s1 = Ok b s'.
Proof.
  unfold bind. destruct (m s) as [a s1 | | |]; try discriminate. eauto.
Qed.

Section Marks.

Variable W : arch.
Variable R : runtime.
Variable dom buf : list Z.

Lemma is_marked_grow s s' x : marks_grow s s' -> is_marked W s x -> is_marked W s' x.
Proof. intros [_ H]. apply H. Qed.

Lemma marks_ret : marks_to W R dom buf (ret tt) (fun _ => True).
Proof.
  intros s s' E. inversion E; subst. split; [apply marks_grow_refl|].
  split; [auto|]. split; [auto|].
  exists []. rewrite app_nil_r. split; [reflexivity|].
  split; [intros o []|]. auto.
Qed.

Lemma marks_weaken m (Q Q' : store -> Prop) :
  (forall s, Q s -> Q' s) -> marks_to W R dom buf m Q -> marks_to W R dom buf m Q'.
Proof.
  intros HQ Hm s s' E. destruct (Hm s s' E) as [G [Hq Hn]].
  split; [exact G|]. split; [|exact Hn]. intros s'' Hs. apply HQ. auto.
Qed.

Lemma marks_bind m k (Q1 Q2 : store -> Prop) :
  marks_to W R dom buf m Q1 -> marks_to W R dom buf k Q2 ->
  marks_to W R dom buf (m ;; k) (fun s => Q1 s /\ Q2 s).
Proof.
  intros Hm Hk s s' E. apply bind_ok in E. destruct E as [[] [s1 [E1 E2]]].
  destruct (Hm s s1 E1) as [G1 [Hq1 [[T1 F1] [new1 [V1 [B1 M1]]]]]].
  destruct (Hk s1 s' E2) as [G2 [Hq2 [[T2 F2] [new2 [V2 [B2 M2]]]]]].
  split; [eapply marks_grow_trans; eauto|]. split; [|split].
  - intros s'' Hs. split; [|auto]. apply Hq1. eapply marks_grow_trans; eauto.
  - split; [congruence|]. intros a Ha. rewrite F2, F1; auto.
  - exists (new1 ++ new2). split; [rewrite V2, V1; now rewrite app_assoc|].
    split.
    + intros o Ho. apply in_app_iff in Ho. destruct Ho as [Ho | Ho].
      * destruct (B1 o Ho) as [Hd Hb]. split; [exact Hd|].
        intros s'' Hs. apply Hb. eapply marks_grow_trans; eauto.
      * apply B2, Ho.
    + intros a Ha Hm'. destruct (M2 a Ha Hm') as [H | H].
      * destruct (M1 a Ha H) as [H1 | H1]; [now left|].
        right. apply in_app_iff. now left.
      * right. apply in_app_iff. now right.
Qed.

Lemma marks_assert b : marks_to W R dom buf (assert b) (fun _ => b = true).
Proof.
  destruct b; simpl.
  - eapply marks_weaken; [|apply marks_ret]. auto.
  - intros s s' E. discriminate.
Qed.

Lemma marks_if (b : bool) m1 m2 (Q1 Q2 : store -> Prop) :
  marks_to W R dom buf m1 Q1 -> marks_to W R dom buf m2 Q2 ->
  marks_to W R dom buf (if b then m1 else m2) (fun s => if b then Q1 s else Q2 s).
Proof. destruct b; auto. Qed.

(** [gc_setmark] on something that is not an object of [dom]. *)
Lemma marks_setmark b :
  direct dom buf b ->
  marks_to W R dom buf (gc_setmark W b) (fun s => is_marked W s b).
Proof.
  intros [Hbuf Hb] s s' E. rewrite gc_setmark_eq in E.
  destruct (valid W s (gc_val W b)); [|discriminate].
  inversion E; subst. clear E.
  split; [apply with_mark_grow|]. split; [|split].
  - intros s'' Hs. eapply is_marked_grow; [exact Hs|].
    unfold is_marked. simpl. rewrite upd_same. apply marked_set.
  - split; [reflexivity|]. intros a Ha. simpl. apply upd_other.
    intros ->. apply Ha. exists b. auto.
  - exists []. rewrite app_nil_r. split; [reflexivity|].
    split; [intros o []|]. intros a Ha Hm. left.
    unfold is_marked in *. simpl in Hm. rewrite upd_other in Hm; [exact Hm|].
    unfold gc_val. intros Heq. apply Hb. replace b with a by lia. exact Ha.
Qed.

Section Fields.

(** [mv] is [GC_Markval]: on an object of [dom] it leaves the object
    marked. *)
Variable mv : Z -> M store unit.
Hypothesis Hmv :
  forall x, In x dom -> marks_to W R dom buf (mv x) (fun s => is_marked W s x).

Lemma marks_nonnull x :
  x = NULL \/ In x dom ->
  marks_to W R dom buf (mark_nonnull mv x) (fun s => x = NULL \/ is_marked W s x).
Proof.
  intros Hx. unfold mark_nonnull. destruct (Z.eqb_spec x NULL) as [E | E].
  - eapply marks_weaken; [|apply marks_ret]. auto.
  - destruct Hx as [Hx | Hx]; [contradiction|].
    eapply marks_weaken; [|apply Hmv, Hx]. auto.
Qed.

Lemma marks_each (f : Z -> M store unit) (P : Z -> Prop)
    (Q : Z -> store -> Prop) l :
  (forall x, P x -> marks_to W R dom buf (f x) (Q x)) ->
  Forall P l ->
  marks_to W R dom buf (mark_each f l) (fun s => Forall (fun x => Q x s) l).
Proof.
  intros Hf Hl. induction Hl as [|x l Hx Hl IH]; cbn [mark_each].
  - eapply marks_weaken; [|apply marks_ret]. auto.
  - eapply marks_weaken; [|apply marks_bind; [apply Hf, Hx | exact IH]].
    intros s [H1 H2]. constructor; auto.
Qed.

Lemma marks_methlist nodes :
  forall fuel ml,
    ml_ok R (fun x => In x dom) (direct dom buf) ml nodes ->
    marks_to W R dom buf (gc_mark_methlist W R mv fuel ml)
             (fun s => ml_ok R (is_marked W s) (is_marked W s) ml nodes).
Proof.
  induction nodes as [|n nodes IH]; intros fuel ml Hok;
    (destruct fuel as [|fuel]; [intros s s' E; discriminate|]);
    cbn [gc_mark_methlist].
  - simpl in Hok. subst ml. rewrite Z.eqb_refl.
    eapply marks_weaken; [|apply marks_ret]. simpl. auto.
  - destruct Hok as [-> [Hn [Hh [H1 [H2 [H3 Hok]]]]]].
    destruct (Z.eqb_spec n NULL) as [E | _]; [contradiction|].
    eapply marks_weaken;
      [|apply marks_bind; [apply marks_setmark, Hh|];
        apply marks_bind; [apply Hmv, H1|];
        apply marks_bind; [apply Hmv, H2|];
        apply marks_bind; [apply Hmv, H3|];
        apply IH, Hok].
    cbn [ml_ok]. intros s H. intuition.
Qed.

Lemma marks_trace_obj fuel o :
  obj_ok R (fun x => In x dom) (direct dom buf) o ->
  marks_to W R dom buf (trace_obj W R mv fuel o)
           (fun s => obj_ok R (is_marked W s) (is_marked W s) o).
Proof.
  intros Ho.
  assert (HO : forall l, Forall (fun x => x = NULL \/ In x dom) l ->
             marks_to W R dom buf (mark_each (mark_nonnull mv) l)
                      (fun s => Forall (fun x => x = NULL \/ is_marked W s x) l)).
  { intros l Hl. apply (marks_each _ (fun x => x = NULL \/ In x dom)); auto.
    apply marks_nonnull. }
  destruct o; cbn [trace_obj obj_ok] in *; cbv zeta in *.
  - apply marks_ret.
  - (* array *)
    destruct Ho as [Hd [Hb He]].
    eapply marks_weaken;
      [|apply marks_bind; [apply Hmv, Hd|];
        apply marks_bind with
          (Q1 := fun s => data <> space -> is_marked W s data)
          (Q2 := fun s => elty_bits = false ->
                          Forall (fun x => x = NULL \/ is_marked W s x) elts)].
    + intros s H. cbv beta zeta in *. tauto.
    + destruct (Z.eqb_spec data space) as [E | E].
      * eapply marks_weaken; [|apply marks_ret]. intros; contradiction.
      * eapply marks_weaken; [|apply marks_setmark, Hb, E]. auto.
    + destruct elty_bits.
      * eapply marks_weaken; [|apply marks_ret]. intros; discriminate.
      * eapply marks_weaken; [|apply HO, He; reflexivity]. auto.
  - apply HO, Ho.
  - destruct Ho as [H1 [H2 [H3 [H4 [H5 H6]]]]].
    eapply marks_weaken;
      [|repeat (apply marks_bind; [apply Hmv; assumption|]);
        apply marks_nonnull, H6].
    intros s H. cbv beta zeta in *. tauto.
  - destruct Ho as [H1 H2].
    eapply marks_weaken;
      [|apply marks_bind; [apply marks_nonnull, H1 | apply marks_nonnull, H2]].
    intros s H. cbv beta zeta in *. tauto.
  - apply marks_nonnull, Ho.
  - destruct Ho as [H1 [H2 [H3 [H4 H5]]]]. subst env linfo.
    eapply marks_weaken;
      [|apply marks_bind; [apply marks_assert|];
        apply marks_bind; [apply marks_assert|];
        apply marks_bind; [apply Hmv, H3|];
        apply marks_bind; [apply Hmv, H4|]; apply Hmv, H5].
    intros s H. cbv beta zeta in *. tauto.
  - destruct Ho as [H1 [H2 [H3 [H4 [H5 [H6 [H7 [H8 H9]]]]]]]].
    eapply marks_weaken;
      [|apply marks_bind; [apply marks_nonnull, H1|];
        apply marks_bind; [apply marks_nonnull, H2|];
        repeat (apply marks_bind; [apply Hmv; assumption|]);
        apply marks_bind; [apply marks_nonnull, H8 | apply marks_nonnull, H9]].
    intros s H. cbv beta zeta in *. tauto.
  - destruct Ho as [H1 [H2 [H3 [H4 [H5 H6]]]]]. subst env linfo.
    eapply marks_weaken;
      [|apply marks_bind; [apply marks_assert|];
        apply marks_bind; [apply marks_assert|];
        apply marks_bind; [apply Hmv, H3|];
        apply marks_bind; [apply Hmv, H4|];
        apply marks_bind; [apply Hmv, H5|]; apply Hmv, H6].
    intros s H. cbv beta zeta in *. tauto.
  - destruct Ho as [[n1 H1] [[n2 H2] H3]].
    eapply marks_weaken;
      [|apply marks_bind; [apply marks_methlist, H1|];
        apply marks_bind; [apply marks_methlist, H2|];
        apply HO, H3].
    intros s [A [B C]]. eauto.
  - destruct Ho as [H1 [H2 [H3 H4]]].
    eapply marks_weaken;
      [|repeat (apply marks_bind; [apply Hmv; assumption|]); apply Hmv, H4].
    intros s H. cbv beta zeta in *. tauto.
  - apply (marks_each _ (fun x => In x dom)); auto.
  - contradiction.
Qed.

End Fields.

Hypothesis Hsep : separate R dom buf.

Lemma marks_gc_markval fuel :
  forall v, In v dom ->
    marks_to W R dom buf (gc_markval W R fuel v) (fun s => is_marked W s v).
Proof.
  induction fuel as [|n IH]; intros v Hv s s' E; [discriminate|].
  rewrite gc_markval_step in E.
  destruct (v =? NULL); [discriminate|].
  destruct (valid W s (gc_val W v)); [|discriminate].
  destruct (marked (mem s (gc_val W v))) eqn:Em.
  - inversion E; subst. split; [apply marks_grow_refl|]. split; [|split].
    + intros s'' Hs. eapply is_marked_grow; eauto.
    + auto.
    + exists []. rewrite app_nil_r. split; [reflexivity|].
      split; [intros o []|]. auto.
  - destruct (marks_trace_obj (gc_markval W R n) IH n (obj_at R v)
                              (Hsep v Hv) _ _ E)
      as [G [Hq [[T F] [new [V [B M]]]]]].
    assert (G0 : marks_grow s (entered W s v)).
    { split; [reflexivity|]. apply (proj2 (with_mark_grow s (gc_val W v))). }
    assert (Hme : is_marked W (entered W s v) v).
    { unfold is_marked. simpl. rewrite upd_same. apply marked_set. }
    split; [eapply marks_grow_trans; eauto|]. split; [|split].
    + intros s'' Hs. eapply is_marked_grow; [exact Hs|].
      eapply is_marked_grow; eauto.
    + split; [exact T|]. intros a Ha. rewrite F by exact Ha.
      simpl. apply upd_other. intros ->. apply Ha. exists v. auto.
    + exists (v :: new). split.
      * rewrite V. cbn [entered visited]. now rewrite <- app_assoc.
      * split.
        -- intros o [<- | Ho]; [|apply B, Ho]. split; [exact Hv|].
           intros s'' Hs. apply Hq, Hs.
        -- intros a Ha Hm'. destruct (M a Ha Hm') as [H | H].
           ++ destruct (Z.eq_dec a v) as [-> | Hne]; [right; now left|].
              left. unfold is_marked in *. simpl in H.
              rewrite upd_other in H; [exact H|]. unfold gc_val. lia.
           ++ right. now right.
Qed.

End Marks.

Lemma ml_ok_mono R (P P' H H' : Z -> Prop) nodes :
  (forall x, P x -> P' x) -> (forall x, H x -> H' x) ->
  forall ml, ml_ok R P H ml nodes -> ml_ok R P' H' ml nodes.
Proof.
  intros HP HH. induction nodes as [|n t IH]; intros ml; cbn [ml_ok]; auto.
  intros [E [Hn [Hh [H1 [H2 [H3 Ht]]]]]]. repeat split; auto.
Qed.

Lemma obj_ok_mono R (P P' H H' : Z -> Prop) o :
  (forall x, P x -> P' x) -> (forall x, H x -> H' x) ->
  obj_ok R P H o -> obj_ok R P' H' o.
Proof.
  intros HP HH.
  assert (HO : forall l, Forall (fun x => x = NULL \/ P x) l ->
                         Forall (fun x => x = NULL \/ P' x) l).
  { intros l. apply Forall_impl. intros x [Hx | Hx]; auto. }
  assert (HM : forall ml, (exists nodes, ml_ok R P H ml nodes) ->
                          exists nodes, ml_ok R P' H' ml nodes).
  { intros ml [nodes Hn]. exists nodes. eapply ml_ok_mono; eauto. }
  destruct o; cbn [obj_ok]; cbv zeta; auto;
    try (intuition auto; fail).
  - intros Hf. eapply Forall_impl; [|exact Hf]. auto.
Qed.

Lemma black_grow W R s s' o : marks_grow s s' -> black W R s o -> black W R s' o.
Proof.
  intros G. apply obj_ok_mono; intros x; apply is_marked_grow; exact G.
Qed.

(** X10: [gc_markval] keeps the tricolour invariant and writes
    nothing but marks.  On objects [dom] that refer only to each other,
    and whose directly marked buffers and method-list entries [buf] are
    not objects themselves, a call that returns has only set mark bits,
    leaves its argument marked, has written no word that is not the
    header of an object of [dom] or of an item of [buf], has called
    neither [malloc] nor [free], and leaves every marked object with
    all the fields the tracer follows marked, provided that held of the
    objects marked on entry. *)
Theorem gc_markval_keeps_tricolour :
  forall W R dom buf fuel v s s',
    separate R dom buf -> In v dom -> tricolour W R dom s ->
    gc_markval W R fuel v s = Ok tt s' ->
    is_marked W s' v /\ marks_grow s s' /\
    trace s' = trace s /\
    (forall a, ~ header W dom buf a -> mem s' a = mem s a) /\
    tricolour W R dom s'.
Proof.
  intros W R dom buf fuel v s s' Hsep Hv Htri E.
  destruct (marks_gc_markval W R dom buf Hsep fuel v Hv s s' E)
    as [G [Hq [[T F] [new [V [B M]]]]]].
  split; [apply Hq, marks_grow_refl|]. split; [exact G|].
  split; [exact T|]. split; [exact F|].
  intros o Ho Hm. destruct (M o Ho Hm) as [H | H].
  - eapply black_grow; [exact G|]. now apply Htri.
  - apply (proj2 (B o H)), marks_grow_refl.
Qed.

Lemma ex_separate : separate ex_runtime ex_dom ex_buf.
Proof.
  intros o [<- | [<- | []]]; simpl; unfold ex_dom, NULL; simpl; tauto.
Qed.

Lemma ex_tricolour : tricolour BITS64 ex_runtime ex_dom ex_cycle_store.
Proof. intros o _ H. unfold is_marked in H. simpl in H. discriminate. Qed.

Lemma gc_markval_keeps_tricolour_witness :
  separate ex_runtime ex_dom ex_buf /\ In 4104 ex_dom /\
  tricolour BITS64 ex_runtime ex_dom ex_cycle_store /\
  exists s',
    gc_markval BITS64 ex_runtime 3 4104 ex_cycle_store = Ok tt s' /\
    is_marked BITS64 s' 4104 /\ marks_grow ex_cycle_store s' /\
    trace s' = trace ex_cycle_store /\
    (forall a, ~ header BITS64 ex_dom ex_buf a ->
               mem s' a = mem ex_cycle_store a) /\
    tricolour BITS64 ex_runtime ex_dom s'.
Proof.
  assert (H2 : In 4104 ex_dom) by (left; reflexivity).
  split; [exact ex_separate|]. split; [exact H2|]. split; [exact ex_tricolour|].
  destruct (gc_markval BITS64 ex_runtime 3 4104 ex_cycle_store)
    as [[] s' | s' | s' |] eqn:E;
    try (vm_compute in E; discriminate).
  exists s'. split; [reflexivity|].
  apply (gc_markval_keeps_tricolour BITS64 ex_runtime ex_dom ex_buf 3 4104
           ex_cycle_store s' ex_separate H2 ex_tricolour E).
Defined.

(** ** The mark phase from the roots *)

Section MarkRoots.

Variable W : arch.
Variable R : runtime.
Variable dom buf : list Z.
Hypothesis Hsep : separate R dom buf.

Lemma marks_binding fuel slot :
  slot_ok R (fun x => In x dom) (direct dom buf) slot ->
  marks_to W R dom buf (mark_binding W R (gc_markval W R fuel) slot)
           (fun s => slot_ok R (is_marked W s) (is_marked W s) slot).
Proof.
  destruct slot as [b|]; cbn [slot_ok mark_binding].
  - intros [Hb [Hv Ht]].
    eapply marks_weaken;
      [|apply marks_bind; [apply marks_setmark, Hb|];
        apply marks_bind;
          [apply (marks_nonnull W R dom buf (gc_markval W R fuel));
             [apply marks_gc_markval, Hsep | exact Hv]
          |apply marks_gc_markval; [exact Hsep | exact Ht]]].
    intros s H. cbv beta in *. tauto.
  - intros _. apply marks_ret.
Qed.

Lemma marks_bindings fuel slots :
  Forall (slot_ok R (fun x => In x dom) (direct dom buf)) slots ->
  marks_to W R dom buf (mark_bindings W R (gc_markval W R fuel) slots)
           (fun s => Forall (slot_ok R (is_marked W s) (is_marked W s)) slots).
Proof.
  intros Hs. induction Hs as [|x l Hx Hl IH]; cbn [mark_bindings].
  - eapply marks_weaken; [|apply marks_ret]. auto.
  - eapply marks_weaken;
      [|apply marks_bind; [apply marks_binding, Hx | exact IH]].
    intros s [H1 H2]. constructor; auto.
Qed.

Lemma marks_module fuel m :
  module_ok R (fun x => In x dom) (direct dom buf) m ->
  marks_to W R dom buf (gc_mark_module W R fuel m)
           (fun s => module_ok R (is_marked W s) (is_marked W s) m).
Proof.
  intros [Hm Hb]. unfold gc_mark_module, module_ok.
  apply marks_bind; [apply marks_setmark, Hm | apply marks_bindings, Hb].
Qed.

Lemma marks_gc_mark fuel :
  roots_ok R (fun x => In x dom) (direct dom buf) ->
  marks_to W R dom buf (jl_mark_type_cache R) (fun _ => True) ->
  marks_to W R dom buf (gc_mark W R fuel)
           (fun s => roots_ok R (is_marked W s) (is_marked W s)).
Proof.
  intros [Hr [Hs Hu]] Hc. unfold traced_roots in Hr.
  repeat (apply Forall_cons_iff in Hr; destruct Hr as [? Hr]).
  unfold gc_mark. cbv zeta.
  eapply marks_weaken;
    [|apply marks_bind; [apply marks_gc_markval; [exact Hsep | eassumption]|];
      apply marks_bind; [apply marks_gc_markval; [exact Hsep | eassumption]|];
      apply marks_bind; [apply marks_module, Hs|];
      apply marks_bind; [apply marks_module, Hu|];
      apply marks_bind; [apply marks_gc_markval; [exact Hsep | eassumption]|];
      apply marks_bind; [apply marks_gc_markval; [exact Hsep | eassumption]|];
      apply marks_bind; [apply marks_gc_markval; [exact Hsep | eassumption]|];
      apply marks_bind; [apply marks_gc_markval; [exact Hsep | eassumption]|];
      apply marks_bind; [apply marks_gc_markval; [exact Hsep | eassumption]|];
      apply marks_bind; [apply marks_gc_markval; [exact Hsep | eassumption]|];
      exact Hc].
  intros s H'. cbv beta in H'. unfold roots_ok, traced_roots.
  split; [repeat constructor; tauto | tauto].
Qed.

End MarkRoots.

(** X11: the mark phase marks the roots and keeps the tricolour
    invariant.  When the roots and the values and types of the module
    bindings are objects of [dom], the modules and bindings themselves
    are items of [buf], and the type-cache marker of the runtime is a
    marking step too, a [gc_mark] that returns has only set mark bits,
    has written no word other than a header, has marked every root,
    both modules and every binding with its value and type, and no
    marked object refers to an unmarked one. *)
Theorem gc_mark_marks_roots :
  forall W R dom buf fuel s s',
    separate R dom buf ->
    roots_ok R (fun x => In x dom) (direct dom buf) ->
    marks_to W R dom buf (jl_mark_type_cache R) (fun _ => True) ->
    tricolour W R dom s ->
    gc_mark W R fuel s = Ok tt s' ->
    marks_grow s s' /\
    trace s' = trace s /\
    (forall a, ~ header W dom buf a -> mem s' a = mem s a) /\
    roots_ok R (is_marked W s') (is_marked W s') /\
    tricolour W R dom s'.
Proof.
  intros W R dom buf fuel s s' Hsep Hroots Hc Htri E.
  destruct (marks_gc_mark W R dom buf Hsep fuel Hroots Hc s s' E)
    as [G [Hq [[T F] [new [V [B M]]]]]].
  split; [exact G|]. split; [exact T|]. split; [exact F|].
  split; [apply Hq, marks_grow_refl|].
  intros o Ho Hm. destruct (M o Ho Hm) as [H | H].
  - eapply black_grow; [exact G|]. now apply Htri.
  - apply (proj2 (B o H)), marks_grow_refl.
Qed.

Lemma ex_mark_separate : separate ex_mark_runtime ex_dom ex_buf.
Proof.
  intros o [<- | [<- | []]]; simpl; unfold ex_dom, NULL; simpl; tauto.
Qed.

Lemma ex_direct b : In b ex_buf -> direct ex_dom ex_buf b.
Proof.
  intros Hb. split; [exact Hb|]. unfold ex_buf, ex_dom in *. simpl in *.
  intuition lia.
Qed.

Lemma ex_mark_roots :
  roots_ok ex_mark_runtime (fun x => In x ex_dom) (direct ex_dom ex_buf).
Proof.
  unfold roots_ok, module_ok, traced_roots. simpl.
  split; [unfold ex_dom; repeat constructor; auto|]. split.
  - split; [apply ex_direct; now left|].
    constructor; [|constructor; [exact I | constructor]].
    split; [apply ex_direct; right; right; now left|].
    split; [right; right; now left | now left].
  - split; [apply ex_direct; right; now left | constructor].
Qed.

Lemma ex_mark_tricolour : tricolour BITS64 ex_mark_runtime ex_dom ex_mark_store.
Proof. intros o _ H. unfold is_marked in H. simpl in H. discriminate. Qed.

Lemma gc_mark_marks_roots_witness :
  separate ex_mark_runtime ex_dom ex_buf /\
  roots_ok ex_mark_runtime (fun x => In x ex_dom) (direct ex_dom ex_buf) /\
  marks_to BITS64 ex_mark_runtime ex_dom ex_buf
           (jl_mark_type_cache ex_mark_runtime) (fun _ => True) /\
  tricolour BITS64 ex_mark_runtime ex_dom ex_mark_store /\
  exists s',
    gc_mark BITS64 ex_mark_runtime 3 ex_mark_store = Ok tt s' /\
    marks_grow ex_mark_store s' /\
    trace s' = trace ex_mark_store /\
    (forall a, ~ header BITS64 ex_dom ex_buf a ->
               mem s' a = mem ex_mark_store a) /\
    roots_ok ex_mark_runtime (is_marked BITS64 s') (is_marked BITS64 s') /\
    tricolour BITS64 ex_mark_runtime ex_dom s'.
Proof.
  assert (H3 : marks_to BITS64 ex_mark_runtime ex_dom ex_buf
                        (jl_mark_type_cache ex_mark_runtime) (fun _ => True))
    by apply marks_ret.
  split; [exact ex_mark_separate|]. split; [exact ex_mark_roots|].
  split; [exact H3|]. split; [exact ex_mark_tricolour|].
  destruct (gc_mark BITS64 ex_mark_runtime 3 ex_mark_store)
    as [[] s' | s' | s' |] eqn:E;
    try (vm_compute in E; discriminate).
  exists s'. split; [reflexivity|].
  apply (gc_mark_marks_roots BITS64 ex_mark_runtime ex_dom ex_buf 3
           ex_mark_store s' ex_mark_separate ex_mark_roots H3
           ex_mark_tricolour E).
Defined.

(** ** The mark phase halts *)

Section MarkHalts.

Variable W : arch.
Variable R : runtime.
Hypothesis Hml : methlists_finite R.
Variable k : nat.

Lemma good_mark_bindings slots :
  good W k (fun n => mark_bindings W R (gc_markval W R n) slots).
Proof.
  induction slots as [|[b|] slots IH]; cbn [mark_bindings mark_binding].
  - apply good_ret.
  - apply good_bind; [|exact IH].
    apply good_bind; [apply good_setmark|].
    apply good_bind.
    + apply (good_mark_nonnull W k (gc_markval W R)).
      intros y. now apply gc_markval_good.
    + now apply gc_markval_good.
  - apply good_bind; [apply good_ret | exact IH].
Qed.

Lemma good_mark_module m : good W k (fun n => gc_mark_module W R n m).
Proof.
  unfold gc_mark_module.
  apply good_bind; [apply good_setmark | apply good_mark_bindings].
Qed.

Lemma good_gc_mark :
  good W k (fun _ => jl_mark_type_cache R) ->
  good W k (fun n => gc_mark W R n).
Proof.
  intros Hc. unfold gc_mark. cbv zeta.
  repeat (apply good_bind;
          [first [now apply gc_markval_good | apply good_mark_module]|]).
  exact Hc.
Qed.

End MarkHalts.

(** X12: the mark phase halts.  When the method lists are
    null-terminated and the type-cache marker of the runtime halts,
    [gc_mark] ends in the same way for all large enough fuel and never
    by exhausting it, having only set mark bits and traced no object
    twice. *)
Theorem gc_mark_terminates :
  forall W R s,
    methlists_finite R -> vis_ok W s ->
    (forall k, good W k (fun _ => jl_mark_type_cache R)) ->
    exists fuel out,
      (forall n, (fuel <= n)%nat -> gc_mark W R n s = out) /\
      match out with
      | Ok _ s' | Fault s' | Abort s' =>
          marks_grow s s' /\ NoDup (visited s') /\
          (forall o, In o (visited s') -> is_marked W s' o)
      | OutOfFuel => False
      end.
Proof.
  intros W R s Hml Hvis Hc.
  assert (Hpre : mark_pre W (unmarked_count W s) s) by (split; auto).
  destruct (good_gc_mark W R Hml _ (Hc _) s Hpre) as [N [out [E Q]]].
  exists N, out. split; [exact E|].
  destruct out as [? s' | s' | s' |]; try contradiction;
    destruct Q as [G [Hn Hv]]; auto.
Qed.

Lemma ex_mark_methlists : methlists_finite ex_mark_runtime.
Proof. intros v defs cache c1 H. simpl in H. repeat destruct (_ =? _) in H; discriminate. Qed.

Lemma ex_mark_vis : vis_ok BITS64 ex_mark_store.
Proof. split; [constructor | intros o []]. Qed.

Lemma gc_mark_terminates_witness :
  methlists_finite ex_mark_runtime /\ vis_ok BITS64 ex_mark_store /\
  (forall k, good BITS64 k (fun _ => jl_mark_type_cache ex_mark_runtime)) /\
  exists fuel out,
    (forall n, (fuel <= n)%nat ->
               gc_mark BITS64 ex_mark_runtime n ex_mark_store = out) /\
    match out with
    | Ok _ s' | Fault s' | Abort s' =>
        marks_grow ex_mark_store s' /\ NoDup (visited s') /\
        (forall o, In o (visited s') -> is_marked BITS64 s' o)
    | OutOfFuel => False
    end.
Proof.
  assert (H3 : forall k,
             good BITS64 k (fun _ => jl_mark_type_cache ex_mark_runtime))
    by (intros k; apply good_ret).
  split; [exact ex_mark_methlists|]. split; [exact ex_mark_vis|].
  split; [exact H3|].
  apply (gc_mark_terminates BITS64 ex_mark_runtime ex_mark_store
           ex_mark_methlists ex_mark_vis H3).
Defined.

(** ** [pool_alloc] pops the free list *)

Lemma chain_fun m : forall l l' a, chain m a l -> chain m a l' -> l = l'.
Proof.
  induction l as [|c l IH]; intros [|c' l'] a H H'; simpl in *; auto.
  - destruct H' as [-> [Hc _]]. contradiction.
  - destruct H as [-> [Hc _]]. contradiction.
  - destruct H as [-> [_ H]]. destruct H' as [<- [_ H']].
    f_equal. eapply IH; eauto.
Qed.

Lemma chain_suffix m : forall l1 l2 a,
  chain m a (l1 ++ l2) -> exists b, chain m b l2.
Proof.
  induction l1 as [|c l1 IH]; intros l2 a H; simpl in *; eauto.
  destruct H as [_ [_ H]]. eapply IH; eauto.
Qed.

(** A null-terminated list does not come back to its head. *)
Lemma chain_head_fresh m a c t : chain m a (c :: t) -> ~ In c t.
Proof.
  intros H Hin. apply in_split in Hin. destruct Hin as [t1 [t2 ->]].
  pose proof H as [-> [_ Ht]].
  destruct (chain_suffix m t1 (c :: t2) _ Ht) as [b Hb].
  pose proof Hb as [-> _].
  pose proof (chain_fun m _ _ _ Hb H) as E.
  apply (f_equal (@length Z)) in E. simpl in E.
  rewrite length_app in E. simpl in E. lia.
Qed.

Lemma lseg_frame m m' l : forall a b,
  lseg m a l b -> (forall c, In c l -> m' c = m c) -> lseg m' a l b.
Proof.
  induction l as [|c l IH]; intros a b H Hm; simpl in *; auto.
  destruct H as [-> H]. split; [reflexivity|].
  rewrite Hm by auto. apply IH; auto.
Qed.

(** X13: on a non-empty free list [pool_alloc] pops the head.  It
    returns the address one word past the first cell, zeroes that
    cell's header, leaves the rest of the list as the new free list,
    and does nothing else: no other word is written, [malloc] is not
    called and the page list is not touched. *)
Theorem pool_alloc_pops_head :
  forall W r s c rest,
    chain (mem (st s)) (freelist (pl s)) (c :: rest) ->
    valid W (st s) c = true ->
    exists s',
      pool_alloc W r s = Ok (c + ptr_size W) s' /\
      chain (mem (st s')) (freelist (pl s')) rest /\
      mem (st s') c = 0 /\
      (forall a, a <> c -> mem (st s') a = mem (st s) a) /\
      blocks (st s') = blocks (st s) /\ trace (st s') = trace (st s) /\
      pages (pl s') = pages (pl s) /\ osize (pl s') = osize (pl s).
Proof.
  intros W r s c rest Hch Hv.
  pose proof (chain_head_fresh _ _ _ _ Hch) as Hfresh.
  destruct Hch as [Hfl [Hc Hch]].
  exists (poke (poke s LFreelist (mem (st s) c)) (LMem c) 0).
  split; [|split; [|split; [|split]]].
  - unfold pool_alloc. unfold bind at 1. rewrite rd_ok by exact I.
    cbn [peek]. rewrite Hfl.
    destruct (Z.eqb_spec c NULL) as [E | _]; [contradiction|].
    unfold bind at 1, ret at 1.
    unfold bind at 1. rewrite rd_ok by exact I. cbn [peek]. rewrite Hfl.
    destruct (Z.eqb_spec c NULL) as [E | _]; [contradiction|].
    unfold bind at 1, ret at 1.
    unfold bind at 1. rewrite rd_ok by exact I. cbn [peek]. rewrite Hfl.
    unfold bind at 1. rewrite rd_ok by exact Hv. cbn [peek].
    unfold bind at 1. rewrite wr_ok by exact I.
    unfold bind at 1. rewrite wr_ok by (apply loc_ok_poke; exact Hv).
    reflexivity.
  - simpl. eapply chain_frame; [exact Hch|].
    intros x Hx. apply upd_other. intros ->. contradiction.
  - simpl. apply upd_same.
  - intros a Ha. simpl. now apply upd_other.
  - repeat split.
Qed.

Lemma ex_fl_chain :
  chain (mem (st ex_fl_pst)) (freelist (pl ex_fl_pst)) (65544 :: ex_fl_rest).
Proof. simpl. unfold NULL. repeat split; lia. Qed.

Lemma pool_alloc_pops_head_witness :
  chain (mem (st ex_fl_pst)) (freelist (pl ex_fl_pst)) (65544 :: ex_fl_rest) /\
  valid BITS64 (st ex_fl_pst) 65544 = true /\
  exists s',
    pool_alloc BITS64 NULL ex_fl_pst = Ok (65544 + ptr_size BITS64) s' /\
    chain (mem (st s')) (freelist (pl s')) ex_fl_rest /\
    mem (st s') 65544 = 0 /\
    (forall a, a <> 65544 -> mem (st s') a = mem (st ex_fl_pst) a) /\
    blocks (st s') = blocks (st ex_fl_pst) /\
    trace (st s') = trace (st ex_fl_pst) /\
    pages (pl s') = pages (pl ex_fl_pst) /\
    osize (pl s') = osize (pl ex_fl_pst).
Proof.
  assert (H2 : valid BITS64 (st ex_fl_pst) 65544 = true) by reflexivity.
  split; [exact ex_fl_chain|]. split; [exact H2|].
  apply (pool_alloc_pops_head BITS64 NULL ex_fl_pst 65544 ex_fl_rest
           ex_fl_chain H2).
Defined.

(** X14: on an empty free list [pool_alloc] takes a page from
    [malloc], returns the payload of its first cell and leaves the
    other cells of the page, in address order, as the free list.  The
    page is allocated but the page list of the pool is as before. *)
Theorem pool_alloc_grows :
  forall W r s,
    freelist (pl s) = NULL -> 0 < r ->
    ptr_size W <= osize (pl s) <= GC_PAGE_SZ - ptr_size W ->
    exists s',
      pool_alloc W r s = Ok (r + 2 * ptr_size W) s' /\
      chain (mem (st s')) (freelist (pl s'))
            (tl (page_cells W (osize (pl s)) r)) /\
      mem (st s') (r + ptr_size W) = 0 /\
      (forall a, a < r \/ r + GC_PAGE_SZ <= a ->
                 mem (st s') a = mem (st s) a) /\
      blocks (st s') = (r, GC_PAGE_SZ) :: blocks (st s) /\
      trace (st s') = trace (st s) ++ [EvMalloc GC_PAGE_SZ r] /\
      pages (pl s') = pages (pl s) /\ osize (pl s') = osize (pl s).
Proof.
  intros W r s Hnull Hr Ho. pose proof (ptr_size_pos W) as Hw.
  assert (Hpos : 0 < osize (pl s)) by lia.
  set (s2 := add_page_result W r s).
  assert (Hosz : osize (pl s2) = osize (pl s))
    by (apply add_page_result_osize; lia).
  destruct (page_cells_first W (osize (pl s)) r) as [t Ht]; try lia.
  pose proof (add_page_result_freelist W r s Hr (proj1 Ho)) as Hseg.
  fold s2 in Hseg. rewrite Ht, Hnull in Hseg.
  pose proof Hseg as [Hhead Hseg'].
  assert (Hal : allocated (st s2) (freelist (pl s2)) (osize (pl s2))).
  { exists (r, GC_PAGE_SZ). unfold s2 at 1.
    rewrite add_page_result_blocks by lia. rewrite Hhead, Hosz. simpl.
    split; [now left | lia]. }
  pose proof (page_cells_NoDup W (osize (pl s)) r Hpos) as Hnd.
  rewrite Ht in Hnd. apply NoDup_cons_iff in Hnd. destruct Hnd as [Hfresh _].
  assert (Hnz : Forall (fun c => c <> NULL) t).
  { apply Forall_forall. intros c Hc.
    assert (Hin : In c (page_cells W (osize (pl s)) r))
      by (rewrite Ht; now right).
    apply page_cells_in_page in Hin; [|exact Hpos]. unfold NULL. lia. }
  exists (poke (poke s2 LFreelist (mem (st s2) (freelist (pl s2))))
               (LMem (freelist (pl s2))) 0).
  split; [|split; [|split; [|split; [|split; [|split; [|split]]]]]].
  - unfold pool_alloc. unfold bind at 1. rewrite rd_ok by exact I.
    cbn [peek]. rewrite Hnull, Z.eqb_refl.
    unfold bind at 1. rewrite add_page_ok by lia. fold s2.
    rewrite (pool_alloc_from_head W s2)
      by first [exact Hal | rewrite ?Hosz, ?Hhead; lia].
    rewrite Hhead. f_equal. lia.
  - rewrite Ht. cbn [tl poke st pl mem freelist]. rewrite Hhead.
    apply lseg_chain; [|exact Hnz].
    eapply lseg_frame; [exact Hseg'|].
    intros c Hc. apply upd_other. intros ->. contradiction.
  - cbn [poke st pl mem]. rewrite Hhead. apply upd_same.
  - intros a Ha. cbn [poke st pl mem]. rewrite Hhead. rewrite upd_other by lia.
    apply add_page_result_frame; [lia | exact Ha].
  - cbn [poke st pl blocks]. apply add_page_result_blocks; lia.
  - cbn [poke st pl trace]. apply add_page_result_trace; lia.
  - cbn [poke st pl pages]. apply add_page_result_pages; lia.
  - cbn [poke st pl osize]. exact Hosz.
Qed.

Lemma pool_alloc_grows_witness :
  freelist (pl ex_pst) = NULL /\ 0 < 65536 /\
  ptr_size BITS64 <= osize (pl ex_pst) <= GC_PAGE_SZ - ptr_size BITS64 /\
  exists s',
    pool_alloc BITS64 65536 ex_pst = Ok (65536 + 2 * ptr_size BITS64) s' /\
    chain (mem (st s')) (freelist (pl s'))
          (tl (page_cells BITS64 (osize (pl ex_pst)) 65536)) /\
    mem (st s') (65536 + ptr_size BITS64) = 0 /\
    (forall a, a < 65536 \/ 65536 + GC_PAGE_SZ <= a ->
               mem (st s') a = mem (st ex_pst) a) /\
    blocks (st s') = (65536, GC_PAGE_SZ) :: blocks (st ex_pst) /\
    trace (st s') = trace (st ex_pst) ++ [EvMalloc GC_PAGE_SZ 65536] /\
    pages (pl s') = pages (pl ex_pst) /\ osize (pl s') = osize (pl ex_pst).
Proof.
  assert (H1 : freelist (pl ex_pst) = NULL) by reflexivity.
  assert (H2 : 0 < 65536) by lia.
  assert (H3 : ptr_size BITS64 <= osize (pl ex_pst)
               <= GC_PAGE_SZ - ptr_size BITS64)
    by (unfold GC_PAGE_SZ; simpl; lia).
  split; [exact H1|]. split; [exact H2|]. split; [exact H3|].
  apply (pool_alloc_grows BITS64 65536 ex_pst H1 H2 H3).
Defined.

(** ** Everything reachable is marked *)

Lemma ml_ok_fun R (P1 P2 H1 H2 : Z -> Prop) :
  forall n1 n2 ml, ml_ok R P1 H1 ml n1 -> ml_ok R P2 H2 ml n2 -> n1 = n2.
Proof.
  induction n1 as [|a n1 IH]; intros [|b n2] ml A B; cbn [ml_ok] in *; auto.
  - destruct B as [-> [Hb _]]. contradiction.
  - destruct A as [-> [Ha _]]. contradiction.
  - destruct A as [-> [_ [_ [_ [_ [_ A]]]]]].
    destruct B as [<- [_ [_ [_ [_ [_ B]]]]]].
    f_equal. eapply IH; eauto.
Qed.

Lemma ml_ok_and R (P1 P2 H1 H2 : Z -> Prop) nodes :
  forall ml, ml_ok R P1 H1 ml nodes -> ml_ok R P2 H2 ml nodes ->
             ml_ok R (fun x => P1 x /\ P2 x) (fun _ => True) ml nodes.
Proof.
  induction nodes as [|n t IH]; intros ml A B; cbn [ml_ok] in *; auto.
  destruct A as [E [Hn [_ [A1 [A2 [A3 A]]]]]].
  destruct B as [_ [_ [_ [B1 [B2 [B3 B]]]]]].
  repeat split; auto.
Qed.

Lemma Forall_and {A} (P Q : A -> Prop) l :
  Forall P l -> Forall Q l -> Forall (fun x => P x /\ Q x) l.
Proof.
  intros HP HQ. rewrite Forall_forall in *. intros x Hx. split; auto.
Qed.

Lemma Forall_or_and (P Q : Z -> Prop) l :
  Forall (fun x => x = NULL \/ P x) l -> Forall (fun x => x = NULL \/ Q x) l ->
  Forall (fun x => x = NULL \/ P x /\ Q x) l.
Proof.
  intros HP HQ. rewrite Forall_forall in *. intros x Hx.
  destruct (HP x Hx), (HQ x Hx); auto.
Qed.

Lemma obj_ok_and R (P1 P2 H1 H2 : Z -> Prop) o :
  obj_ok R P1 H1 o -> obj_ok R P2 H2 o ->
  obj_ok R (fun x => P1 x /\ P2 x) (fun _ => True) o.
Proof.
  assert (HM : forall ml,
             (exists nodes, ml_ok R P1 H1 ml nodes) ->
             (exists nodes, ml_ok R P2 H2 ml nodes) ->
             exists nodes,
               ml_ok R (fun x => P1 x /\ P2 x) (fun _ => True) ml nodes).
  { intros ml [n1 A] [n2 B]. exists n1.
    rewrite <- (ml_ok_fun R _ _ _ _ _ _ _ A B) in B.
    now apply ml_ok_and with (H1 := H1) (H2 := H2). }
  destruct o; cbn [obj_ok]; cbv zeta; auto.
  - intros [A1 [A2 A3]] [B1 [B2 B3]]. repeat split; auto.
    intros E. apply Forall_or_and; auto.
  - apply Forall_or_and.
  - intuition auto.
  - intuition auto.
  - intuition auto.
  - intuition auto.
  - intuition auto.
  - intuition auto.
  - intros [A1 [A2 A3]] [B1 [B2 B3]]. repeat split; auto.
    apply Forall_or_and; auto.
  - intuition auto.
  - apply Forall_and.
Qed.

Lemma slot_ok_and R (P1 P2 H1 H2 : Z -> Prop) slot :
  slot_ok R P1 H1 slot -> slot_ok R P2 H2 slot ->
  slot_ok R (fun x => P1 x /\ P2 x) (fun _ => True) slot.
Proof. destruct slot; cbn [slot_ok]; intuition auto. Qed.

Lemma module_ok_and R (P1 P2 H1 H2 : Z -> Prop) m :
  module_ok R P1 H1 m -> module_ok R P2 H2 m ->
  module_ok R (fun x => P1 x /\ P2 x) (fun _ => True) m.
Proof.
  intros [_ A] [_ B]. split; [exact I|].
  rewrite Forall_forall in *. intros x Hx.
  eapply slot_ok_and; eauto.
Qed.

Lemma roots_ok_and R (P1 P2 H1 H2 : Z -> Prop) :
  roots_ok R P1 H1 -> roots_ok R P2 H2 ->
  roots_ok R (fun x => P1 x /\ P2 x) (fun _ => True).
Proof.
  intros [A1 [A2 A3]] [B1 [B2 B3]].
  split; [now apply Forall_and|].
  split; eapply module_ok_and; eauto.
Qed.

(** What is marked when the mark phase is over. *)
Lemma reachable_marked W R dom buf s :
  separate R dom buf ->
  roots_ok R (fun x => In x dom) (direct dom buf) ->
  roots_ok R (is_marked W s) (is_marked W s) ->
  tricolour W R dom s ->
  forall x, reachable R dom x -> In x dom /\ is_marked W s x.
Proof.
  intros Hsep Hroots Hm Htri x Hx.
  apply (Hx (fun x => In x dom /\ is_marked W s x)).
  - eapply roots_ok_and; eauto.
  - intros o Ho [_ Hmo]. eapply obj_ok_and; [apply Hsep, Ho|].
    apply Htri; auto.
Qed.

(** X15: the mark phase marks everything reachable from the roots.
    When the roots and the values and types of the module bindings are
    objects of [dom], the modules and bindings are items of [buf], the
    type-cache marker is a marking step, and no marked object refers to
    an unmarked one on entry (for instance when nothing is marked),
    every object reachable from the roots through the fields the tracer
    follows is an object of [dom] and is marked when [gc_mark]
    returns. *)
Theorem gc_mark_marks_reachable :
  forall W R dom buf fuel s s',
    separate R dom buf ->
    roots_ok R (fun x => In x dom) (direct dom buf) ->
    marks_to W R dom buf (jl_mark_type_cache R) (fun _ => True) ->
    tricolour W R dom s ->
    gc_mark W R fuel s = Ok tt s' ->
    forall x, reachable R dom x -> In x dom /\ is_marked W s' x.
Proof.
  intros W R dom buf fuel s s' Hsep Hroots Hc Htri E.
  destruct (marks_gc_mark W R dom buf Hsep fuel Hroots Hc s s' E)
    as [G [Hq [[T F] [new [V [B M]]]]]].
  apply (reachable_marked W R dom buf s' Hsep Hroots).
  - apply Hq, marks_grow_refl.
  - intros o Ho Hm. destruct (M o Ho Hm) as [H | H].
    + eapply black_grow; [exact G|]. now apply Htri.
    + apply (proj2 (B o H)), marks_grow_refl.
Qed.

(** The second closure of the example is reachable from the roots. *)
Lemma ex_reachable : reachable ex_mark_runtime ex_dom 4120.
Proof.
  intros P [Hr _] Hcl. unfold traced_roots in Hr. simpl in Hr.
  apply Forall_cons_iff in Hr. destruct Hr as [H0 _].
  assert (Hin : In 4104 ex_dom) by (left; reflexivity).
  specialize (Hcl 4104 Hin H0). simpl in Hcl.
  destruct Hcl as [[E | H] _]; [discriminate | exact H].
Qed.

Lemma gc_mark_marks_reachable_witness :
  separate ex_mark_runtime ex_dom ex_buf /\
  roots_ok ex_mark_runtime (fun x => In x ex_dom) (direct ex_dom ex_buf) /\
  marks_to BITS64 ex_mark_runtime ex_dom ex_buf
           (jl_mark_type_cache ex_mark_runtime) (fun _ => True) /\
  tricolour BITS64 ex_mark_runtime ex_dom ex_mark_store /\
  reachable ex_mark_runtime ex_dom 4120 /\
  exists s',
    gc_mark BITS64 ex_mark_runtime 3 ex_mark_store = Ok tt s' /\
    In 4120 ex_dom /\ is_marked BITS64 s' 4120.
Proof.
  assert (H3 : marks_to BITS64 ex_mark_runtime ex_dom ex_buf
                        (jl_mark_type_cache ex_mark_runtime) (fun _ => True))
    by apply marks_ret.
  split; [exact ex_mark_separate|]. split; [exact ex_mark_roots|].
  split; [exact H3|]. split; [exact ex_mark_tricolour|].
  split; [exact ex_reachable|].
  destruct (gc_mark BITS64 ex_mark_runtime 3 ex_mark_store)
    as [[] s' | s' | s' |] eqn:E;
    try (vm_compute in E; discriminate).
  exists s'. split; [reflexivity|].
  apply (gc_mark_marks_reachable BITS64 ex_mark_runtime ex_dom ex_buf 3
           ex_mark_store s' ex_mark_separate ex_mark_roots H3
           ex_mark_tricolour E 4120 ex_reachable).
Defined.

(** ** A collection keeps the reachable big objects *)

Lemma sweep_pools_no_pages_heap W fuel idx :
  forall g g',
    no_pages g ->
    sweep_pools W fuel idx g = Ok tt g' ->
    heap g' = heap g /\ big_objects g' = big_objects g.
Proof.
  induction idx as [|i idx IH]; intros g g' Hn E; cbn [sweep_pools] in E.
  - inversion E; subst. auto.
  - unfold bind in E.
    destruct (on_pool i (sweep_pool W fuel) g) as [[] g1 | | |] eqn:E1;
      try discriminate.
    assert (Hg1 : no_pages g1 /\ heap g1 = heap g /\
                  big_objects g1 = big_objects g).
    { unfold on_pool, lift in E1.
      destruct fuel as [|n].
      - unfold sweep_pool, bind in E1. rewrite rd_ok in E1 by exact I.
        discriminate.
      - rewrite sweep_pool_no_pages in E1 by apply (no_pages_nth g i Hn).
        injection E1 as <-. cbn [heap big_objects poke st].
        split; [|auto]. unfold no_pages. cbn [pools].
        apply Forall_upd_nth; [exact Hn|].
        cbn [poke pl pages]. apply (no_pages_nth g i Hn). }
    destruct Hg1 as [Hn1 [Hh Hb]].
    destruct (IH g1 g' Hn1 E) as [Hh' Hb']. split; congruence.
Qed.

Lemma in_without_or gone bl b :
  In b bl -> In b (without gone bl) \/ In (fst b) gone.
Proof.
  intros Hb. destruct (existsb (Z.eqb (fst b)) gone) eqn:E.
  - right. apply existsb_exists in E. destruct E as [x [Hx Hxe]].
    apply Z.eqb_eq in Hxe. now subst.
  - left. unfold without. apply filter_In. split; auto. now rewrite E.
Qed.

(** X16: a collection does not free a reachable big object.  From a
    state in which no pool has a page on its list and the big-object
    list is well formed with its links outside every header, when the
    roots are objects of [dom] that refer only to each other and the
    type-cache marker is a marking step, a [gc_collect] that returns
    leaves a well-formed big-object list of unmarked objects of the old
    list that holds every object whose payload is reachable from the
    roots; the only blocks it frees are big objects that it took off
    the list; every pool is left without pages and without a free
    list. *)
Theorem gc_collect_keeps_reachable_big :
  forall W R dom buf vs fuel g g',
    no_pages g ->
    wf_big W (heap g) (big_objects g) vs ->
    (forall v, In v vs -> ~ header W dom buf v) ->
    (length vs < fuel)%nat ->
    separate R dom buf ->
    roots_ok R (fun x => In x dom) (direct dom buf) ->
    marks_to W R dom buf (jl_mark_type_cache R) (fun _ => True) ->
    tricolour W R dom (heap g) ->
    gc_collect W R fuel g = Ok tt g' ->
    exists kept,
      wf_big W (heap g') (big_objects g') kept /\
      (forall v, In v kept ->
         In v vs /\ big_marked W (mem (heap g')) v = false) /\
      (forall v, In v vs -> reachable R dom (v + 2 * ptr_size W) ->
         In v kept) /\
      (forall b, In b (blocks (heap g)) ->
         In b (blocks (heap g')) \/ (In (fst b) vs /\ ~ In (fst b) kept)) /\
      pools_drained g'.
Proof.
  intros W R dom buf vs fuel g g' Hnp Hwf Hlinks Hf Hsep Hroots Hc Htri E.
  unfold gc_collect, bind in E.
  destruct (count_collection g) as [[] g1 | | |] eqn:E1; try discriminate.
  injection E1 as <-.
  destruct (on_heap (gc_mark W R fuel) _) as [[] g2 | | |] eqn:E2;
    try discriminate.
  unfold on_heap, lift in E2. cbn [heap] in E2.
  destruct (gc_mark W R fuel (heap g)) as [[] s2 | | |] eqn:Em;
    try discriminate.
  injection E2 as <-.
  cbn [big_objects pools allocd_bytes collect_interval collections] in E.
  set (g2 := mkGc s2 (big_objects g) (pools g) (allocd_bytes g)
                  (collect_interval g) (S (collections g))) in *.
  destruct (marks_gc_mark W R dom buf Hsep fuel Hroots Hc _ _ Em)
    as [G [Hq [[T F] [new [V [B M]]]]]].
  assert (Htri2 : tricolour W R dom s2).
  { intros o Ho Hm. destruct (M o Ho Hm) as [H | H].
    - eapply black_grow; [exact G|]. now apply Htri.
    - apply (proj2 (B o H)), marks_grow_refl. }
  assert (Hreach : forall x, reachable R dom x -> is_marked W s2 x).
  { intros x Hx.
    apply (reachable_marked W R dom buf s2 Hsep Hroots
                            (Hq _ (marks_grow_refl _)) Htri2 x Hx). }
  destruct Hwf as [Hch [Hbl Hap]].
  assert (Hwf2 : wf_big W (heap g2) (big_objects g2) vs).
  { unfold g2. cbn [heap big_objects]. split; [|split; [|exact Hap]].
    - eapply chain_frame; [exact Hch|]. intros v Hv. apply F, Hlinks, Hv.
    - eapply Forall_impl; [|exact Hbl]. intros v [n [Hin Hn]].
      exists n. split; [|exact Hn]. now rewrite (proj1 G). }
  destruct (gc_sweep W fuel g2) as [[] g3 | | |] eqn:E3; try discriminate.
  unfold set_allocd_bytes in E. injection E as <-.
  unfold gc_sweep, bind in E3.
  destruct (sweep_big W fuel g2) as [[] g4 | | |] eqn:E4; try discriminate.
  destruct Hwf2 as [Hch2 [Hbl2 Hap2]].
  destruct (sweep_big_loop_ok W vs fuel (big_objects g2) BHead g2 Hch2 Hbl2
                              Hap2 I eq_refl Hf)
    as [g4' [E4' [Hc4 [Hcl4 [_ [_ [Hb4 [_ Hsg4]]]]]]]].
  unfold sweep_big, bind in E4. rewrite E4' in E4. injection E4 as ->.
  assert (Hnp4 : no_pages g4).
  { destruct Hsg4 as [Hp _]. unfold no_pages. rewrite Hp. exact Hnp. }
  destruct (sweep_pools_no_pages_heap W fuel _ g4 g3 Hnp4 E3) as [Hh3 Hb3].
  destruct (sweep_pools_drains W fuel _ g4 g3 Hnp4 E3) as [Hnp3 Hfl3].
  set (kept := big_kept W (mem (heap g2)) vs) in *.
  cbn [heap big_objects]. rewrite Hh3, Hb3.
  exists kept. split; [|split; [|split; [|split]]].
  - split; [exact Hc4|]. split; [|now apply big_apart_filter].
    rewrite Forall_forall in *. intros v Hv.
    apply (big_block_without W (heap g2) (heap g4) v
                             (big_gone W (mem (heap g2)) vs)); auto.
    + apply Hbl2. unfold kept, big_kept in Hv. apply filter_In in Hv. tauto.
    + now apply kept_not_gone.
  - intros v Hv. split.
    + unfold kept, big_kept in Hv. apply filter_In in Hv. tauto.
    + unfold big_marked. rewrite Hcl4 by exact Hv.
      unfold marked, clear_marked. rewrite Z.ldiff_spec. simpl.
      now rewrite andb_false_r.
  - intros v Hv Hr. unfold kept, big_kept. apply filter_In.
    split; [exact Hv|]. specialize (Hreach _ Hr).
    unfold is_marked, gc_val in Hreach. unfold big_marked, g2. cbn [heap].
    replace (v + ptr_size W) with (v + 2 * ptr_size W - ptr_size W) by lia.
    exact Hreach.
  - intros b Hb. rewrite Hb4. unfold g2 at 2. cbn [heap].
    rewrite (proj1 G).
    destruct (in_without_or (big_gone W (mem (heap g2)) vs) _ b Hb)
      as [H | H]; [now left|].
    right. split.
    + unfold big_gone in H. apply filter_In in H. tauto.
    + intros Hk. revert H. now apply kept_not_gone.
  - intros k Hk. cbn [pools]. split.
    + apply no_pages_nth. exact Hnp3.
    + apply Hfl3. left. apply in_seq. unfold N_POOLS in *. lia.
Qed.

Lemma ex_heap_no_pages : no_pages ex_heap_gc.
Proof. unfold no_pages. vm_compute pools. repeat constructor. Qed.

Lemma ex_heap_wf :
  wf_big BITS64 (heap ex_heap_gc) (big_objects ex_heap_gc) ex_heap_bigs.
Proof.
  split; [|split].
  - simpl. unfold NULL. repeat split; lia.
  - repeat constructor.
    + exists 48. split; [now left | simpl; lia].
    + exists 48. split; [right; now left | simpl; lia].
    + exists 48. split; [right; right; now left | simpl; lia].
  - simpl. repeat split; auto; repeat constructor; unfold hdr_apart; simpl; lia.
Qed.

Lemma ex_heap_links v :
  In v ex_heap_bigs -> ~ header BITS64 ex_heap_dom ex_heap_buf v.
Proof.
  intros Hv [x [Hx E]]. unfold gc_val in E.
  unfold ex_heap_bigs, ex_heap_dom, ex_heap_buf in *. simpl in *.
  intuition lia.
Qed.

Lemma ex_heap_separate : separate ex_heap_runtime ex_heap_dom ex_heap_buf.
Proof.
  intros o [<- | [<- | []]]; simpl; unfold ex_heap_dom, NULL; simpl; tauto.
Qed.

Lemma ex_heap_direct b :
  In b ex_heap_buf -> direct ex_heap_dom ex_heap_buf b.
Proof.
  intros Hb. split; [exact Hb|].
  unfold ex_heap_buf, ex_heap_dom in *. simpl in *. intuition lia.
Qed.

Lemma ex_heap_roots :
  roots_ok ex_heap_runtime (fun x => In x ex_heap_dom)
           (direct ex_heap_dom ex_heap_buf).
Proof.
  unfold roots_ok, module_ok, traced_roots. simpl.
  split; [unfold ex_heap_dom; repeat constructor; auto|]. split.
  - split; [apply ex_heap_direct; now left | constructor].
  - split; [apply ex_heap_direct; right; now left | constructor].
Qed.

Lemma ex_heap_tricolour :
  tricolour BITS64 ex_heap_runtime ex_heap_dom (heap ex_heap_gc).
Proof.
  intros o [<- | [<- | []]] H; unfold is_marked in H; simpl in H; discriminate.
Qed.

(** The payload of the object at 4096 is reachable through the closure
    in the object at 8192. *)
Lemma ex_heap_reachable :
  reachable ex_heap_runtime ex_heap_dom (4096 + 2 * ptr_size BITS64).
Proof.
  intros P [Hr _] Hcl. unfold traced_roots in Hr. simpl in Hr.
  apply Forall_cons_iff in Hr. destruct Hr as [H0 _].
  assert (Hin : In 8208 ex_heap_dom) by (left; reflexivity).
  specialize (Hcl 8208 Hin H0). simpl in Hcl.
  destruct Hcl as [[E | H] _]; [discriminate | exact H].
Qed.

Lemma gc_collect_keeps_reachable_big_witness :
  no_pages ex_heap_gc /\
  wf_big BITS64 (heap ex_heap_gc) (big_objects ex_heap_gc) ex_heap_bigs /\
  (forall v, In v ex_heap_bigs ->
             ~ header BITS64 ex_heap_dom ex_heap_buf v) /\
  (length ex_heap_bigs < 4)%nat /\
  separate ex_heap_runtime ex_heap_dom ex_heap_buf /\
  roots_ok ex_heap_runtime (fun x => In x ex_heap_dom)
           (direct ex_heap_dom ex_heap_buf) /\
  marks_to BITS64 ex_heap_runtime ex_heap_dom ex_heap_buf
           (jl_mark_type_cache ex_heap_runtime) (fun _ => True) /\
  tricolour BITS64 ex_heap_runtime ex_heap_dom (heap ex_heap_gc) /\
  exists g',
    gc_collect BITS64 ex_heap_runtime 4 ex_heap_gc = Ok tt g' /\
    exists kept,
      wf_big BITS64 (heap g') (big_objects g') kept /\
      (forall v, In v kept ->
         In v ex_heap_bigs /\ big_marked BITS64 (mem (heap g')) v = false) /\
      (forall v, In v ex_heap_bigs ->
         reachable ex_heap_runtime ex_heap_dom (v + 2 * ptr_size BITS64) ->
         In v kept) /\
      (forall b, In b (blocks (heap ex_heap_gc)) ->
         In b (blocks (heap g')) \/
         (In (fst b) ex_heap_bigs /\ ~ In (fst b) kept)) /\
      pools_drained g'.
Proof.
  assert (H4 : (length ex_heap_bigs < 4)%nat) by (simpl; lia).
  assert (H7 : marks_to BITS64 ex_heap_runtime ex_heap_dom ex_heap_buf
                        (jl_mark_type_cache ex_heap_runtime) (fun _ => True))
    by apply marks_ret.
  split; [exact ex_heap_no_pages|]. split; [exact ex_heap_wf|].
  split; [exact ex_heap_links|]. split; [exact H4|].
  split; [exact ex_heap_separate|]. split; [exact ex_heap_roots|].
  split; [exact H7|]. split; [exact ex_heap_tricolour|].
  destruct (gc_collect BITS64 ex_heap_runtime 4 ex_heap_gc)
    as [[] g' | g' | g' |] eqn:E;
    try (vm_compute in E; discriminate).
  exists g'. split; [reflexivity|].
  apply (gc_collect_keeps_reachable_big BITS64 ex_heap_runtime ex_heap_dom
           ex_heap_buf ex_heap_bigs 4 ex_heap_gc g' ex_heap_no_pages
           ex_heap_wf ex_heap_links H4 ex_heap_separate ex_heap_roots H7
           ex_heap_tricolour E).
Defined.

(** The collection of the example frees the object at 12288 and keeps
    the other two. *)
Example gc_collect_example :
  exists g',
    gc_collect BITS64 ex_heap_runtime 4 ex_heap_gc = Ok tt g' /\
    big_objects g' = 8192 /\
    map fst (blocks (heap g')) = [8192; 4096; 16384] /\
    trace (heap g') = [EvFree 12288].
Proof. eexists. split; [vm_compute; reflexivity|]. repeat split. Qed.

(** ** The roots on the stack *)

Lemma marks_stack W R dom buf (frame_at : Z -> jl_gcframe_t)
      (mv : Z -> M store unit) fs :
  (forall x, In x dom -> marks_to W R dom buf (mv x) (fun s => is_marked W s x)) ->
  forall fuel s0,
    frames_ok frame_at (fun x => In x dom) s0 fs ->
    marks_to W R dom buf (gc_mark_stack frame_at mv fuel s0)
             (fun s => frames_ok frame_at (is_marked W s) s0 fs).
Proof.
  intros Hmv. induction fs as [|f fs IH]; intros fuel s0 Hok;
    (destruct fuel as [|fuel]; [intros s s' E; discriminate|]);
    cbn [gc_mark_stack].
  - simpl in Hok. subst s0. rewrite Z.eqb_refl.
    eapply marks_weaken; [|apply marks_ret]. simpl. auto.
  - destruct Hok as [-> [Hf [Hr Hok]]].
    destruct (Z.eqb_spec f NULL) as [E | _]; [contradiction|].
    eapply marks_weaken;
      [|apply marks_bind;
        [apply (marks_each W R dom buf mv (fun x => In x dom)
                           (fun x s => is_marked W s x));
           [exact Hmv | exact Hr]
        |apply IH, Hok]].
    cbn [frames_ok]. intros s [H1 H2]. repeat split; auto.
Qed.

(** X17: [gc_mark_stack] marks every root of every frame.  On a chain
    of frames that ends in a null [prev] and whose roots are objects of
    [dom], a call that returns has only set mark bits, leaves every
    root of every frame marked and keeps the tricolour invariant. *)
Theorem gc_mark_stack_marks_frames :
  forall W R dom buf frame_at fs fuel fuel' s0 s s',
    separate R dom buf ->
    frames_ok frame_at (fun x => In x dom) s0 fs ->
    tricolour W R dom s ->
    gc_mark_stack frame_at (gc_markval W R fuel) fuel' s0 s = Ok tt s' ->
    marks_grow s s' /\
    frames_ok frame_at (is_marked W s') s0 fs /\
    tricolour W R dom s'.
Proof.
  intros W R dom buf frame_at fs fuel fuel' s0 s s' Hsep Hok Htri E.
  destruct (marks_stack W R dom buf frame_at (gc_markval W R fuel) fs
                        (marks_gc_markval W R dom buf Hsep fuel)
                        fuel' s0 Hok s s' E)
    as [G [Hq [_ [new [V [B M]]]]]].
  split; [exact G|]. split; [apply Hq, marks_grow_refl|].
  intros o Ho Hm. destruct (M o Ho Hm) as [H | H].
  - eapply black_grow; [exact G|]. now apply Htri.
  - apply (proj2 (B o H)), marks_grow_refl.
Qed.

Lemma ex_frames_ok :
  frames_ok ex_frame_at (fun x => In x ex_dom) 100 ex_frames.
Proof.
  cbn [frames_ok ex_frames]. unfold NULL.
  split; [reflexivity|]. split; [lia|]. split.
  - change (gf_roots (ex_frame_at 100)) with [4104].
    constructor; [now left | constructor].
  - change (gf_prev (ex_frame_at 100)) with 200.
    split; [reflexivity|]. split; [lia|]. split.
    + change (gf_roots (ex_frame_at 200)) with [4120].
      constructor; [right; now left | constructor].
    + reflexivity.
Qed.

Lemma gc_mark_stack_marks_frames_witness :
  separate ex_runtime ex_dom ex_buf /\
  frames_ok ex_frame_at (fun x => In x ex_dom) 100 ex_frames /\
  tricolour BITS64 ex_runtime ex_dom ex_cycle_store /\
  exists s',
    gc_mark_stack ex_frame_at (gc_markval BITS64 ex_runtime 3) 3 100
                  ex_cycle_store = Ok tt s' /\
    marks_grow ex_cycle_store s' /\
    frames_ok ex_frame_at (is_marked BITS64 s') 100 ex_frames /\
    tricolour BITS64 ex_runtime ex_dom s'.
Proof.
  split; [exact ex_separate|]. split; [exact ex_frames_ok|].
  split; [exact ex_tricolour|].
  destruct (gc_mark_stack ex_frame_at (gc_markval BITS64 ex_runtime 3) 3 100
                          ex_cycle_store)
    as [[] s' | s' | s' |] eqn:E;
    try (vm_compute in E; discriminate).
  exists s'. split; [reflexivity|].
  apply (gc_mark_stack_marks_frames BITS64 ex_runtime ex_dom ex_buf
           ex_frame_at ex_frames 3 3 100 ex_cycle_store s'
           ex_separate ex_frames_ok ex_tricolour E).
Defined.

(** ** Null roots *)

Lemma gc_markval_ok_nonnull W R fuel v s s' :
  gc_markval W R fuel v s = Ok tt s' -> v <> NULL.
Proof.
  destruct fuel as [|n]; [discriminate|]. rewrite gc_markval_step.
  destruct (Z.eqb_spec v NULL); [discriminate | auto].
Qed.

(** X18: the mark phase needs every root.  [gc_markval] asserts that
    its argument is not null and [gc_mark] hands it the eight root
    globals without a test: a [gc_mark] that returns had all of them
    non-null, and with a null [jl_root_task] it aborts on its first
    step, before any mark is set. *)
Theorem gc_mark_null_root_aborts :
  forall W R,
    (forall fuel s s',
        gc_mark W R fuel s = Ok tt s' ->
        Forall (fun r => r <> NULL) (traced_roots R)) /\
    (forall fuel s,
        jl_root_task R = NULL -> gc_mark W R (S fuel) s = Abort s).
Proof.
  intros W R. split.
  - intros fuel s s' E. unfold gc_mark in E. cbv zeta in E.
    apply bind_ok in E. destruct E as [[] [s1 [E1 E]]].
    apply bind_ok in E. destruct E as [[] [s2 [E2 E]]].
    apply bind_ok in E. destruct E as [[] [s3 [E3 E]]].
    apply bind_ok in E. destruct E as [[] [s4 [E4 E]]].
    apply bind_ok in E. destruct E as [[] [s5 [E5 E]]].
    apply bind_ok in E. destruct E as [[] [s6 [E6 E]]].
    apply bind_ok in E. destruct E as [[] [s7 [E7 E]]].
    apply bind_ok in E. destruct E as [[] [s8 [E8 E]]].
    apply bind_ok in E. destruct E as [[] [s9 [E9 E]]].
    apply bind_ok in E. destruct E as [[] [s10 [E10 E]]].
    unfold traced_roots.
    repeat constructor; eapply gc_markval_ok_nonnull; eassumption.
  - intros fuel s Hr. unfold gc_mark. cbv zeta. unfold bind at 1.
    rewrite gc_markval_step, Hr. reflexivity.
Qed.

Lemma gc_mark_null_root_aborts_witness :
  jl_root_task ex_runtime = NULL /\
  gc_mark BITS64 ex_runtime 1 ex_cycle_store = Abort ex_cycle_store.
Proof.
  assert (H1 : jl_root_task ex_runtime = NULL) by reflexivity.
  split; [exact H1|].
  apply (proj2 (gc_mark_null_root_aborts BITS64 ex_runtime) O ex_cycle_store
               H1).
Defined.

(** ** The lists a sweep leaves *)

(** X19: [sweep_pool] rebuilds the free list in page order and, inside
    a page, in address order.  On a well-formed pool whose cells are no
    larger than a page, so that the end pointer
    [pg + GC_PAGE_SZ - osize] of the code does not wrap around, the
    pages left on
    the list are, in their old order, those that held a cell that was
    not free; the free list runs, page by page in that order and by
    ascending address inside a page, through the cells that were free
    or unmarked; and the pages that held only free cells are given to
    [free] once each in list order, with no other call of [malloc] or
    [free]. *)
Theorem sweep_pool_list_order :
  forall W s pgs fuel,
    wf_pool W s pgs -> osize (pl s) <= GC_PAGE_SZ ->
    (length pgs < fuel)%nat ->
    exists s',
      sweep_pool W fuel s = Ok tt s' /\
      chain (mem (st s')) (pages (pl s'))
            (survivors W (osize (pl s)) (mem (st s)) pgs) /\
      chain (mem (st s')) (freelist (pl s'))
            (flat_map (kept_cells W (osize (pl s)) (mem (st s)))
                      (survivors W (osize (pl s)) (mem (st s)) pgs)) /\
      trace (st s') =
        trace (st s) ++
        map EvFree (released W (osize (pl s)) (mem (st s)) pgs).
Proof.
  intros W s pgs fuel Hwf Hmax Hf.
  destruct (sweep_pool_ok W s pgs fuel Hwf Hf)
    as [s' [E [Hpg [Hfl [_ [_ [_ [Ht _]]]]]]]].
  exists s'. auto.
Qed.

Lemma sweep_pool_list_order_witness :
  wf_pool BITS64 ex_marked_pst ex_pages /\
  osize (pl ex_marked_pst) <= GC_PAGE_SZ /\
  (length ex_pages < 2)%nat /\
  exists s',
    sweep_pool BITS64 2 ex_marked_pst = Ok tt s' /\
    chain (mem (st s')) (pages (pl s'))
          (survivors BITS64 (osize (pl ex_marked_pst))
                     (mem (st ex_marked_pst)) ex_pages) /\
    chain (mem (st s')) (freelist (pl s'))
          (flat_map (kept_cells BITS64 (osize (pl ex_marked_pst))
                                (mem (st ex_marked_pst)))
                    (survivors BITS64 (osize (pl ex_marked_pst))
                               (mem (st ex_marked_pst)) ex_pages)) /\
    trace (st s') =
      trace (st ex_marked_pst) ++
      map EvFree (released BITS64 (osize (pl ex_marked_pst))
                           (mem (st ex_marked_pst)) ex_pages).
Proof.
  assert (H1 : osize (pl ex_marked_pst) <= GC_PAGE_SZ)
    by (unfold GC_PAGE_SZ; simpl; lia).
  assert (H2 : (length ex_pages < 2)%nat) by (simpl; lia).
  split; [exact ex_marked_wf|]. split; [exact H1|]. split; [exact H2|].
  apply (sweep_pool_list_order BITS64 ex_marked_pst ex_pages 2 ex_marked_wf
           H1 H2).
Defined.

(** In the example the first cell is marked and stays allocated; the
    other six cells form the free list in address order. *)
Example sweep_pool_list_order_example :
  survivors BITS64 (osize (pl ex_marked_pst)) (mem (st ex_marked_pst))
            ex_pages = [65536] /\
  flat_map (kept_cells BITS64 (osize (pl ex_marked_pst))
                       (mem (st ex_marked_pst)))
           [65536] = [67600; 69656; 71712; 73768; 75824; 77880].
Proof. split; reflexivity. Qed.

(** ** What an allocation leaves alone *)

Lemma keeps_pools_on_heap A (m : M store A) : keeps pools (on_heap m).
Proof. intros g. apply post_lift. intros s. reflexivity. Qed.

Lemma keeps_pools_alloc_big W r sz : keeps pools (alloc_big W r sz).
Proof.
  unfold alloc_big.
  repeat (apply keeps_bind; [|intros ?]);
    try apply keeps_pools_on_heap; try apply keeps_ret;
    intros g; reflexivity.
Qed.

Lemma keeps_big_on_pool A i (m : M pst A) : keeps big_objects (on_pool i m).
Proof. intros g. apply post_lift. intros s. reflexivity. Qed.

Lemma keeps_nth_on_pool A i j (m : M pst A) :
  j <> i -> keeps (fun g => nth j (pools g) null_pool) (on_pool i m).
Proof.
  intros Hne g. apply post_lift. intros s. cbn [pools].
  apply nth_upd_nth_other. congruence.
Qed.

(** X20: an allocation that does not collect touches one pool at most.
    When [allocd_bytes] does not exceed [collect_interval], a request of
    at most 2048 bytes leaves every pool but [pools[szclass(sz)]] and
    the big-object list as they were, and a larger request leaves every
    pool as it was, however the call ends. *)
Theorem allocb_touches_one_pool :
  forall W R fuel r sz g,
    allocd_bytes g <= collect_interval g ->
    post (allocb W R fuel r sz) g
         (fun g' =>
            if 2048 <? sz then pools g' = pools g
            else big_objects g' = big_objects g /\
                 forall j, j <> Z.to_nat (szclass sz) ->
                   nth j (pools g') null_pool = nth j (pools g) null_pool).
Proof.
  intros W R fuel r sz g Hle. unfold post, allocb.
  unfold bind at 1. rewrite maybe_collect_unfold.
  replace (collect_interval g <? allocd_bytes g) with false
    by (symmetry; apply Z.ltb_ge; exact Hle).
  unfold bind at 1, get. unfold bind at 1, set_allocd_bytes.
  set (g1 := mkGc (heap g) (big_objects g) (pools g)
                  (wrap W (allocd_bytes g + sz)) (collect_interval g)
                  (collections g)).
  destruct (2048 <? sz).
  - pose proof (keeps_pools_alloc_big W r sz g1) as H. unfold post in H.
    destruct (alloc_big W r sz g1); auto.
  - pose proof (keeps_big_on_pool Z (Z.to_nat (szclass sz)) (pool_alloc W r) g1)
      as Hb.
    unfold post in *.
    destruct (on_pool (Z.to_nat (szclass sz)) (pool_alloc W r) g1) eqn:E;
      auto; (split; [exact Hb|]); intros j Hj;
      pose proof (keeps_nth_on_pool Z (Z.to_nat (szclass sz)) j
                                    (pool_alloc W r) Hj g1) as Hn;
      unfold post in Hn; rewrite E in Hn; exact Hn.
Qed.

Lemma allocb_touches_one_pool_witness :
  allocd_bytes ex_gc <= collect_interval ex_gc /\
  post (allocb BITS64 ex_runtime 1 65536 24) ex_gc
       (fun g' =>
          if 2048 <? 24 then pools g' = pools ex_gc
          else big_objects g' = big_objects ex_gc /\
               forall j, j <> Z.to_nat (szclass 24) ->
                 nth j (pools g') null_pool = nth j (pools ex_gc) null_pool).
Proof.
  assert (H1 : allocd_bytes ex_gc <= collect_interval ex_gc)
    by (simpl; lia).
  split; [exact H1|].
  apply (allocb_touches_one_pool BITS64 ex_runtime 1 65536 24 ex_gc H1).
Defined.

(** ** A collection halts *)

Lemma sweep_pools_no_pages_ok W n idx :
  forall g, no_pages g -> exists g', sweep_pools W (S n) idx g = Ok tt g'.
Proof.
  induction idx as [|i idx IH]; intros g Hn; cbn [sweep_pools].
  - eexists. reflexivity.
  - unfold bind, on_pool, lift.
    rewrite sweep_pool_no_pages by apply (no_pages_nth g i Hn).
    apply IH. unfold no_pages. cbn [pools].
    apply Forall_upd_nth; [exact Hn|].
    cbn [poke pl pages]. apply (no_pages_nth g i Hn).
Qed.

(** Once the mark phase has returned, the sweep goes through. *)
Lemma gc_collect_runs W R dom buf vs n g s2 :
  no_pages g ->
  wf_big W (heap g) (big_objects g) vs ->
  (forall v, In v vs -> ~ header W dom buf v) ->
  (length vs < n)%nat ->
  separate R dom buf ->
  roots_ok R (fun x => In x dom) (direct dom buf) ->
  marks_to W R dom buf (jl_mark_type_cache R) (fun _ => True) ->
  gc_mark W R n (heap g) = Ok tt s2 ->
  exists g', gc_collect W R n g = Ok tt g'.
Proof.
  intros Hnp [Hch [Hbl Hap]] Hlinks Hf Hsep Hroots Hc Em.
  destruct (marks_gc_mark W R dom buf Hsep n Hroots Hc _ _ Em)
    as [G [_ [[_ F] _]]].
  unfold gc_collect, bind. cbn [count_collection].
  unfold on_heap at 1, lift. cbn [heap]. rewrite Em.
  cbn [big_objects pools allocd_bytes collect_interval collections].
  set (g2 := mkGc s2 (big_objects g) (pools g) (allocd_bytes g)
                  (collect_interval g) (S (collections g))).
  assert (Hch2 : chain (mem (heap g2)) (big_objects g2) vs).
  { unfold g2. cbn [heap big_objects].
    eapply chain_frame; [exact Hch|]. intros v Hv. apply F, Hlinks, Hv. }
  assert (Hbl2 : Forall (big_block W (heap g2)) vs).
  { unfold g2. cbn [heap]. eapply Forall_impl; [|exact Hbl].
    intros v [m [Hin Hm]]. exists m. split; [|exact Hm].
    now rewrite (proj1 G). }
  destruct (sweep_big_loop_ok W vs n (big_objects g2) BHead g2 Hch2 Hbl2
                              Hap I eq_refl Hf)
    as [g4 [E4 [_ [_ [_ [_ [_ [_ Hsg4]]]]]]]].
  unfold gc_sweep, bind, sweep_big, bind. rewrite E4.
  assert (Hnp4 : no_pages g4).
  { destruct Hsg4 as [Hp _]. unfold no_pages. rewrite Hp. exact Hnp. }
  destruct n as [|n]; [simpl in Hf; lia|].
  destruct (sweep_pools_no_pages_ok W n (seq 0 (Z.to_nat N_POOLS)) g4 Hnp4)
    as [g3 E3].
  rewrite E3. eexists. reflexivity.
Qed.

(** X21: a collection halts.  From a state in which no pool has a page
    on its list and the big-object list is well formed with its links
    outside every header, when the roots are objects of [dom], the
    method lists are null-terminated and the type-cache marker of the
    runtime is a marking step that halts, [gc_collect] does not run out
    of fuel once the fuel is large enough: the mark phase ends, and if
    it returns, the sweep returns as well. *)
Theorem gc_collect_terminates :
  forall W R dom buf vs g,
    no_pages g ->
    wf_big W (heap g) (big_objects g) vs ->
    (forall v, In v vs -> ~ header W dom buf v) ->
    separate R dom buf ->
    roots_ok R (fun x => In x dom) (direct dom buf) ->
    marks_to W R dom buf (jl_mark_type_cache R) (fun _ => True) ->
    (forall k, good W k (fun _ => jl_mark_type_cache R)) ->
    methlists_finite R -> vis_ok W (heap g) ->
    exists fuel,
      forall n, (fuel <= n)%nat ->
        match gc_collect W R n g with
        | Ok _ _ | Fault _ | Abort _ => True
        | OutOfFuel => False
        end.
Proof.
  intros W R dom buf vs g Hnp Hwf Hlinks Hsep Hroots Hc Hgood Hml Hvis.
  assert (Hpre : mark_pre W (unmarked_count W (heap g)) (heap g))
    by (split; auto).
  destruct (good_gc_mark W R Hml _ (Hgood _) (heap g) Hpre) as [N [out [E Q]]].
  exists (Nat.max N (S (length vs))). intros n Hn.
  assert (En : gc_mark W R n (heap g) = out) by (apply E; lia).
  destruct out as [[] s2 | s2 | s2 |]; try contradiction.
  - destruct (gc_collect_runs W R dom buf vs n g s2 Hnp Hwf Hlinks
                              ltac:(lia) Hsep Hroots Hc En) as [g' Eg].
    now rewrite Eg.
  - unfold gc_collect, bind. cbn [count_collection].
    unfold on_heap, lift. cbn [heap]. now rewrite En.
  - unfold gc_collect, bind. cbn [count_collection].
    unfold on_heap, lift. cbn [heap]. now rewrite En.
Qed.

Lemma ex_heap_methlists : methlists_finite ex_heap_runtime.
Proof.
  intros v defs cache c1 H. simpl in H.
  destruct (v =? 8208); discriminate.
Qed.

Lemma ex_heap_vis : vis_ok BITS64 (heap ex_heap_gc).
Proof. split; [constructor | intros o []]. Qed.

Lemma gc_collect_terminates_witness :
  no_pages ex_heap_gc /\
  wf_big BITS64 (heap ex_heap_gc) (big_objects ex_heap_gc) ex_heap_bigs /\
  (forall v, In v ex_heap_bigs ->
             ~ header BITS64 ex_heap_dom ex_heap_buf v) /\
  separate ex_heap_runtime ex_heap_dom ex_heap_buf /\
  roots_ok ex_heap_runtime (fun x => In x ex_heap_dom)
           (direct ex_heap_dom ex_heap_buf) /\
  marks_to BITS64 ex_heap_runtime ex_heap_dom ex_heap_buf
           (jl_mark_type_cache ex_heap_runtime) (fun _ => True) /\
  (forall k, good BITS64 k (fun _ => jl_mark_type_cache ex_heap_runtime)) /\
  methlists_finite ex_heap_runtime /\ vis_ok BITS64 (heap ex_heap_gc) /\
  exists fuel,
    forall n, (fuel <= n)%nat ->
      match gc_collect BITS64 ex_heap_runtime n ex_heap_gc with
      | Ok _ _ | Fault _ | Abort _ => True
      | OutOfFuel => False
      end.
Proof.
  assert (H6 : marks_to BITS64 ex_heap_runtime ex_heap_dom ex_heap_buf
                        (jl_mark_type_cache ex_heap_runtime) (fun _ => True))
    by apply marks_ret.
  assert (H7 : forall k,
             good BITS64 k (fun _ => jl_mark_type_cache ex_heap_runtime))
    by (intros k; apply good_ret).
  split; [exact ex_heap_no_pages|]. split; [exact ex_heap_wf|].
  split; [exact ex_heap_links|]. split; [exact ex_heap_separate|].
  split; [exact ex_heap_roots|]. split; [exact H6|]. split; [exact H7|].
  split; [exact ex_heap_methlists|]. split; [exact ex_heap_vis|].
  apply (gc_collect_terminates BITS64 ex_heap_runtime ex_heap_dom ex_heap_buf
           ex_heap_bigs ex_heap_gc ex_heap_no_pages ex_heap_wf ex_heap_links
           ex_heap_separate ex_heap_roots H6 H7 ex_heap_methlists ex_heap_vis).
Defined.

